(** * Rebuild: the trace cache, the recipe state and the scheduler

    A shallow embedding of the C sources of the build engine
    ([hash.c], [set.c], [map.c], [buffer.c], [storage.c], [trace.c],
    [recipe.c], [target.c], [scheduler.c], and the command line of [main.c]),
    the properties of them that the specification states, and further
    properties of the code.

    Conventions of the embedding:
    - a C [uint8_t] is a [byte]; a [uint32_t]/[uint64_t] is a [Z] with the
      wrap-around written out; integers are stored little-endian;
    - a [char*] is a [string]; the bytes a C string holds are the ones before
      its first NUL, which [c_str] computes;
    - a pointer that may be [NULL] is an [option];
    - a [Recipe*] is the recipe's target name: the scheduler owns every recipe
      through its [recipes] map, keyed by that name;
    - the [Map]s the scheduler holds are [gmap]s; the [Set] of [set.c] is its
      open-addressing table (FNV-1a, linear probing, growth at load 0.75),
      the entries array being a list, and module [Map] has the table of
      [map.c] in the same way, which Part II shows to be a finite map;
    - BLAKE2b (a vendored library) and the clock are a parameter
      ([Platform]). *)

From Stdlib Require Import ZArith Lia List Bool Eqdep_dec.
From Stdlib Require Import Strings.Byte Strings.Ascii Strings.String.
From Stdlib Require Import Sorting.Permutation.
From stdpp Require Import base option list gmap strings pretty.

#[local] Set Warnings "-register-all".
Local Open Scope string_scope.
Local Open Scope list_scope.
Local Open Scope Z_scope.

(* ================================================================== *)
(** * Part I: the model                                                 *)
(* ================================================================== *)

(** ** Bytes and fixed-width integers *)

Definition byte_of_Z (z : Z) : byte :=
  match Byte.of_N (Z.to_N (z mod 256)) with
  | Some b => b
  | None => x00
  end.

Definition Z_of_byte (b : byte) : Z := Z.of_N (Byte.to_N b).

(** [dest ^= src] on one byte. *)
Definition byte_xor (a b : byte) : byte :=
  let '(a0, (a1, (a2, (a3, (a4, (a5, (a6, a7))))))) := Byte.to_bits a in
  let '(b0, (b1, (b2, (b3, (b4, (b5, (b6, b7))))))) := Byte.to_bits b in
  Byte.of_bits (xorb a0 b0, (xorb a1 b1, (xorb a2 b2, (xorb a3 b3,
               (xorb a4 b4, (xorb a5 b5, (xorb a6 b6, xorb a7 b7))))))).

(** The [n] bytes of an unsigned integer in memory, least significant first. *)
Fixpoint le_encode (n : nat) (v : Z) : list byte :=
  match n with
  | O => []
  | S k => byte_of_Z v :: le_encode k (v / 256)
  end.

Fixpoint le_decode (bs : list byte) : Z :=
  match bs with
  | [] => 0
  | b :: rest => Z_of_byte b + 256 * le_decode rest
  end.

Definition UINT32_MAX : Z := 2 ^ 32 - 1.
Definition UINT64_MAX : Z := 2 ^ 64 - 1.
Definition to_uint32 (v : Z) : Z := v mod 2 ^ 32.
Definition to_uint64 (v : Z) : Z := v mod 2 ^ 64.
Definition is_uint64 (v : Z) : Prop := 0 <= v <= UINT64_MAX.

(** ** C strings *)

(** The bytes of a [char*]: everything before the first NUL. *)
Fixpoint c_str (bs : list byte) : list byte :=
  match bs with
  | [] => []
  | b :: rest => if Byte.eqb b x00 then [] else b :: c_str rest
  end.

Definition str_bytes (s : string) : list byte := c_str (list_byte_of_string s).

Definition strlen (s : string) : Z := Z.of_nat (length (str_bytes s)).

(** A Rocq [string] that is a C string: it holds no NUL. *)
Definition is_c_string (s : string) : Prop :=
  Forall (fun b => b <> x00) (list_byte_of_string s).

(** [rebuild_strdup] of a buffer: the copy stops at the first NUL. *)
Definition rebuild_strdup (bs : list byte) : string :=
  string_of_list_byte (c_str bs).

(** [strcmp(a, b) <= 0], bytes compared as unsigned. *)
Definition strcmp_le (a b : string) : bool := String.leb a b.

(** ** Hash (common.h, hash.c) *)

(** [typedef struct { uint8_t bytes[32]; } Hash]. *)
Record Hash : Type := mkHash {
  hash_bytes : list byte;
  hash_size : Nat.eqb (length hash_bytes) 32 = true
}.

Definition hash_zero : Hash := mkHash (repeat x00 32) eq_refl.

(** The [Hash] a 32-byte buffer holds. *)
Definition hash_of_bytes (bs : list byte) : Hash :=
  match Nat.eqb (length bs) 32 as c return Nat.eqb (length bs) 32 = c -> Hash with
  | true => fun H => mkHash bs H
  | false => fun _ => hash_zero
  end eq_refl.

Fixpoint bytes_eqb (a b : list byte) : bool :=
  match a, b with
  | [], [] => true
  | x :: a', y :: b' => Byte.eqb x y && bytes_eqb a' b'
  | _, _ => false
  end.

(** [memcmp(a->bytes, b->bytes, 32) == 0]. *)
Definition hash_equal (a b : Hash) : bool :=
  bytes_eqb (hash_bytes a) (hash_bytes b).

Fixpoint xor_bytes (a b : list byte) : list byte :=
  match a, b with
  | x :: a', y :: b' => byte_xor x y :: xor_bytes a' b'
  | _, _ => []
  end.

(** [hash_combine(dest, src)]: the new value of [*dest]. *)
Definition hash_combine (dest src : Hash) : Hash :=
  hash_of_bytes (xor_bytes (hash_bytes dest) (hash_bytes src)).

Definition hex_digit (d : Z) : ascii :=
  if d <? 10 then ascii_of_N (Z.to_N (48 + d)) else ascii_of_N (Z.to_N (87 + d)).

(** [sprintf(&hex[i * 2], "%02x", h->bytes[i])] for the 32 bytes. *)
Fixpoint hex_of_bytes (bs : list byte) : string :=
  match bs with
  | [] => EmptyString
  | b :: rest =>
      String (hex_digit (Z_of_byte b / 16))
        (String (hex_digit (Z_of_byte b mod 16)) (hex_of_bytes rest))
  end.

Definition hash_to_hex (h : Hash) : string := hex_of_bytes (hash_bytes h).

(** What the engine takes from outside: the BLAKE2b digest of a byte
    sequence (vendor/blake2), libuv's monotonic clock in nanoseconds and
    [time(NULL)] at clock read number [n] of a run, and the process id. *)
Class Platform : Type := {
  blake2b : list byte -> Hash;
  uv_hrtime : nat -> Z;
  unix_time : nat -> Z;
  getpid : Z
}.

(** [hash_data(data, len, out)]. *)
Definition hash_data `{Platform} (data : list byte) : Hash := blake2b data.

(** ** The file system the engine reads

    What [stat], [fopen]/[fread] and [opendir]/[readdir] see at a path: a
    regular file with its bytes, a directory with its entries ([.] and [..]
    left out), or something else (a socket, a device). [readable] is false
    where opening the node fails. *)

Inductive Node : Type :=
  | RegFile (readable : bool) (content : list byte)
  | Directory (readable : bool) (entries : list (string * Node))
  | Special.

(** The node a path resolves to, [None] where [stat] fails. *)
Definition FileSystem : Type := string -> option Node.

Inductive FileKind : Type := S_IFREG | S_IFDIR | S_IFOTHER.

Definition node_kind (n : Node) : FileKind :=
  match n with
  | RegFile _ _ => S_IFREG
  | Directory _ _ => S_IFDIR
  | Special => S_IFOTHER
  end.

(** [stat(path, &st) == 0] and the type in [st.st_mode]. *)
Definition stat (fs : FileSystem) (path : string) : option FileKind :=
  node_kind <$> fs path.

(** [qsort] with a [strcmp] comparison on a key. Names in one directory and
    values in one set are distinct, so every sorting algorithm gives this
    order. *)
Fixpoint sort_insert {A : Type} (key : A -> string) (x : A) (l : list A) : list A :=
  match l with
  | [] => [x]
  | y :: rest =>
      if strcmp_le (key x) (key y) then x :: l
      else y :: sort_insert key x rest
  end.

Fixpoint qsort {A : Type} (key : A -> string) (l : list A) : list A :=
  match l with
  | [] => []
  | x :: rest => sort_insert key x (qsort key rest)
  end.

Section Hashing.
Context `{Platform}.

(** [hash_file(path, out)]: [None] where it returns false. *)
Definition hash_file_node (n : Node) : option Hash :=
  match n with
  | RegFile true content => Some (hash_data content)
  | _ => None
  end.

Definition hash_file (fs : FileSystem) (path : string) : option Hash :=
  fs path ≫= hash_file_node.

(** One step of the loop over the sorted entries of [hash_tree]: the name
    is mixed in, then the entry's own hash unless hashing it failed. *)
Definition hash_tree_entry (out : Hash) (e : string * option Hash) : Hash :=
  let out := hash_combine out (hash_data (str_bytes (fst e))) in
  match snd e with
  | Some entry_hash => hash_combine out entry_hash
  | None => out
  end.

(** [hash_tree] on the node a path resolves to. *)
Fixpoint hash_tree_node (n : Node) : option Hash :=
  match n with
  | RegFile _ _ => hash_file_node n
  | Special => None
  | Directory false _ => None
  | Directory true entries =>
      let hashed := map (fun e => (fst e, hash_tree_node (snd e))) entries in
      Some (fold_left hash_tree_entry (qsort fst hashed) hash_zero)
  end.

(** [hash_tree(path, out)]: [None] where it returns false. *)
Definition hash_tree (fs : FileSystem) (path : string) : option Hash :=
  fs path ≫= hash_tree_node.
End Hashing.

(** ** Error codes (common.h) *)

Inductive RebuildError : Type :=
  | REBUILD_OK
  | REBUILD_ERROR_IO
  | REBUILD_ERROR_MEMORY
  | REBUILD_ERROR_PARSE
  | REBUILD_ERROR_EXEC
  | REBUILD_ERROR_HASH
  | REBUILD_ERROR_TRACE.

(** ** Set (set.h, set.c)

    A hash set of strings with open addressing and linear probing. The
    entries array is a list, a [SetEntry*] is an index into it, and a
    [size_t] is a [nat]. A value is a C string, so the copy
    [rebuild_strdup] makes of it is the value itself. *)

(** [value] is [None] for a slot never used; a slot that is not occupied
    and has a value is a tombstone. *)
Record SetEntry : Type := mkEntry {
  value : option string;
  occupied : bool
}.

Record StrSet : Type := mkSet {
  entries : list SetEntry;
  capacity : nat;
  size : nat;
  tombstones : nat
}.

Definition DEFAULT_SET_CAPACITY : nat := 16.
Definition FNV_OFFSET_BASIS : Z := 2166136261.
Definition FNV_PRIME : Z := 16777619.

(** What [calloc] leaves in a slot. *)
Definition empty_entry : SetEntry := mkEntry None false.

(** The entry [set_add] writes for a value. *)
Definition value_entry (v : string) : SetEntry := mkEntry (Some v) true.

(** FNV-1a on 32 bits. *)
Definition hash_string (str : string) : Z :=
  fold_left (fun hash b => to_uint32 (Z.lxor hash (Z_of_byte b) * FNV_PRIME))
            (str_bytes str) FNV_OFFSET_BASIS.

(** [hash % capacity]. *)
Definition home_slot (capacity : nat) (v : string) : nat :=
  Z.to_nat (hash_string v mod Z.of_nat capacity).

(** The loop of [set_find_entry] from iteration [i] on, with [fuel]
    iterations left. An occupied slot always has a value. *)
Fixpoint find_loop (entries : list SetEntry) (capacity index : nat) (v : string)
    (tombstone : option nat) (i fuel : nat) : option nat :=
  match fuel with
  | O => tombstone
  | S fuel' =>
      let probe_index := ((index + i) mod capacity)%nat in
      match entries !! probe_index with
      | None => tombstone
      | Some entry =>
          if negb (occupied entry) then
            match value entry with
            | None => Some (default probe_index tombstone)
            | Some _ =>
                find_loop entries capacity index v
                          (Some (default probe_index tombstone)) (S i) fuel'
            end
          else if bool_decide (value entry = Some v) then Some probe_index
          else find_loop entries capacity index v tombstone (S i) fuel'
      end
  end.

(** [set_find_entry(entries, capacity, value)]: the slot found, [None] for
    [NULL]. *)
Definition set_find_entry (entries : list SetEntry) (capacity : nat) (v : string)
  : option nat :=
  find_loop entries capacity (home_slot capacity v) v None 0 capacity.

(** The body of the rehash loop of [set_grow] for one old entry. *)
Definition rehash_entry (new_capacity : nat) (new_entries : list SetEntry)
    (entry : SetEntry) : list SetEntry :=
  match occupied entry, value entry with
  | true, Some v =>
      match set_find_entry new_entries new_capacity v with
      | Some dest => <[dest := value_entry v]> new_entries
      | None => new_entries
      end
  | _, _ => new_entries
  end.

(** The value [set_iterate] passes on for a slot, if any. *)
Definition slot_value (entry : SetEntry) : option string :=
  if occupied entry then value entry else None.

(** [set_iterate] with a callback that collects and never stops: the values
    in slot order. *)
Definition iterate_entries (entries : list SetEntry) : list string :=
  omap slot_value entries.

Definition set_iterate (s : StrSet) : list string := iterate_entries (entries s).

Definition set_grow (s : StrSet) : StrSet :=
  let new_capacity :=
    if (capacity s =? 0)%nat then DEFAULT_SET_CAPACITY else (capacity s * 2)%nat in
  let new_entries :=
    fold_left (rehash_entry new_capacity) (entries s)
              (replicate new_capacity empty_entry) in
  mkSet new_entries new_capacity (length (iterate_entries (entries s))) 0.

(** The loop of [set_create] that rounds the capacity up to a power of 2. *)
Fixpoint round_up (fuel capacity initial_capacity : nat) : nat :=
  match fuel with
  | O => capacity
  | S fuel' =>
      if (capacity <? initial_capacity)%nat
      then round_up fuel' (capacity * 2)%nat initial_capacity
      else capacity
  end.

Definition set_create (initial_capacity : nat) : StrSet :=
  let initial_capacity :=
    if (initial_capacity =? 0)%nat then DEFAULT_SET_CAPACITY else initial_capacity in
  let capacity := round_up initial_capacity 1 initial_capacity in
  mkSet (replicate capacity empty_entry) capacity 0 0.

(** [(size_t)(capacity * SET_MAX_LOAD_FACTOR)]: the product with 0.75 is
    exact in a double. *)
Definition load_limit (capacity : nat) : nat := (capacity * 3 / 4)%nat.

(** [set_add(set, value)]: the error code and the set afterwards. *)
Definition set_add (s : StrSet) (v : string) : RebuildError * StrSet :=
  let s := if (load_limit (capacity s) <? size s + tombstones s + 1)%nat
           then set_grow s else s in
  match set_find_entry (entries s) (capacity s) v with
  | None => (REBUILD_ERROR_MEMORY, s)
  | Some slot =>
      match entries s !! slot with
      | None => (REBUILD_ERROR_MEMORY, s)
      | Some entry =>
          if occupied entry then (REBUILD_OK, s)
          else (REBUILD_OK,
                mkSet (<[slot := value_entry v]> (entries s)) (capacity s)
                      (S (size s)) (tombstones s))
      end
  end.

Definition set_has (s : StrSet) (v : string) : bool :=
  if (size s =? 0)%nat then false
  else match set_find_entry (entries s) (capacity s) v with
       | None => false
       | Some slot =>
           match entries s !! slot with
           | Some entry => occupied entry
           | None => false
           end
       end.

(** ** Storage (storage.h, storage.c)

    The store's directories, and [disk]: the regular files below them, by
    path. *)

Record Storage : Type := mkStorage {
  base_dir : string;
  traces_dir : string;
  objects_dir : string;
  tmp_dir : string;
  disk : gmap string (list byte)
}.

(** [asprintf(&path, "%s/%s/%s", base_dir, level1, filename)]. *)
Definition build_sharded_path (base hex_hash : string) : string :=
  (base ++ "/" ++ substring 0 2 hex_hash ++ "/"
        ++ substring 2 (String.length hex_hash - 2) hex_hash)%string.

(** The shard directory can always be created in this model. *)
Definition storage_get_trace_path (s : Storage) (request_key : Hash) : string :=
  build_sharded_path (traces_dir s) (hash_to_hex request_key).

Definition storage_trace_exists (s : Storage) (request_key : Hash) : bool :=
  bool_decide (is_Some (disk s !! storage_get_trace_path s request_key)).

Definition storage_write (s : Storage) (path : string) (data : list byte) : Storage :=
  mkStorage (base_dir s) (traces_dir s) (objects_dir s) (tmp_dir s)
            (<[path := data]> (disk s)).

(** ** Trace (trace.h, trace.c) *)

(** [dep_paths] and [dep_hashes] are one list of pairs; [dep_count] is its
    length. *)
Record Trace : Type := mkTrace {
  trace_request_key : Hash;
  deps : list (string * Hash);
  output_tree_hash : Hash;
  cpu_time_ms : Z;
  wall_time_ms : Z
}.

Definition dep_count (t : Trace) : Z := Z.of_nat (length (deps t)).
Definition dep_paths (t : Trace) : list string := map fst (deps t).
Definition dep_hashes (t : Trace) : list Hash := map snd (deps t).

Definition TRACE_MAGIC : list byte := [x52; x42; x54; x52].  (* "RBTR" *)
Definition TRACE_VERSION : Z := 1.
Definition MAX_PATH_LEN : Z := 4096.

Definition trace_create (request_key : Hash) : Trace :=
  mkTrace request_key [] hash_zero 0 0.

(** [trace_add_dependency(t, path, hash)]: the path is copied with
    [rebuild_strdup]. *)
Definition trace_add_dependency (t : Trace) (path : list byte) (hash : Hash) : Trace :=
  mkTrace (trace_request_key t) (deps t ++ [(rebuild_strdup path, hash)])
          (output_tree_hash t) (cpu_time_ms t) (wall_time_ms t).

Section TraceValidate.
Context `{Platform}.

(** The body of the loop of [trace_validate] for one dependency: whether
    it still matches, and the paths handed to [hash_file] or [hash_tree]
    on the way. *)
Definition validate_dep (fs : FileSystem) (d : string * Hash) : bool * list string :=
  let path := fst d in
  let expected_hash := snd d in
  match stat fs path with
  | None => (false, [])
  | Some S_IFDIR =>
      match hash_tree fs path with
      | None => (false, [path])
      | Some actual_hash => (hash_equal actual_hash expected_hash, [path])
      end
  | Some S_IFREG =>
      match hash_file fs path with
      | None => (false, [path])
      | Some actual_hash => (hash_equal actual_hash expected_hash, [path])
      end
  | Some S_IFOTHER => (false, [])
  end.

(** [for (i = 0; i < t->dep_count; i++)], leaving at the first [return
    false]. *)
Fixpoint validate_loop (fs : FileSystem) (ds : list (string * Hash))
  : bool * list string :=
  match ds with
  | [] => (true, [])
  | d :: rest =>
      let '(ok, hashed) := validate_dep fs d in
      if ok then
        let '(result, hashed_later) := validate_loop fs rest in
        (result, hashed ++ hashed_later)
      else (false, hashed)
  end.

(** [trace_validate(t)] with the list of the paths it hashed, in order. *)
Definition trace_validate_hashed (fs : FileSystem) (t : Trace) : bool * list string :=
  validate_loop fs (deps t).

Definition trace_validate (fs : FileSystem) (t : Trace) : bool :=
  fst (trace_validate_hashed fs t).
End TraceValidate.

(** What [trace_save] writes for one dependency: [path_len] is
    [(uint32_t)strlen(path)]. *)
Definition encode_dep (d : string * Hash) : list byte :=
  let path_len := to_uint32 (strlen (fst d)) in
  le_encode 4 path_len
    ++ take (Z.to_nat path_len) (str_bytes (fst d))
    ++ hash_bytes (snd d).

Definition trace_file (t : Trace) : list byte :=
  TRACE_MAGIC
    ++ le_encode 4 TRACE_VERSION
    ++ hash_bytes (trace_request_key t)
    ++ le_encode 8 (dep_count t)
    ++ flat_map encode_dep (deps t)
    ++ hash_bytes (output_tree_hash t)
    ++ le_encode 8 (cpu_time_ms t)
    ++ le_encode 8 (wall_time_ms t).

(** [trace_save(t, storage)]: opening the file and writing to it succeed in
    this model. *)
Definition trace_save (t : Trace) (storage : Storage) : bool * Storage :=
  let trace_path := storage_get_trace_path storage (trace_request_key t) in
  (true, storage_write storage trace_path (trace_file t)).

(** [read_all(f, data, size)] on the unread part of the file: the bytes
    read and what is left, [None] on a short read. *)
Definition read_all (size : nat) (f : list byte) : option (list byte * list byte) :=
  if (size <=? length f)%nat then Some (take size f, drop size f) else None.

(** The loop of [trace_load] over [dep_count] dependencies. *)
Fixpoint read_deps (count : nat) (t : Trace) (f : list byte)
  : option (Trace * list byte) :=
  match count with
  | O => Some (t, f)
  | S count' =>
      '(len_bytes, f) ← read_all 4 f;
      let path_len := le_decode len_bytes in
      if MAX_PATH_LEN <? path_len then None else
      '(path, f) ← read_all (Z.to_nat path_len) f;
      '(hash, f) ← read_all 32 f;
      read_deps count' (trace_add_dependency t path (hash_of_bytes hash)) f
  end.

(** What [trace_load] does with the bytes of the trace file. *)
Definition parse_trace (request_key : Hash) (f : list byte) : option Trace :=
  '(magic, f) ← read_all 4 f;
  if negb (bytes_eqb magic TRACE_MAGIC) then None else
  '(version, f) ← read_all 4 f;
  if negb (le_decode version =? TRACE_VERSION) then None else
  let t := trace_create request_key in
  '(stored_key, f) ← read_all 32 f;
  if negb (hash_equal (hash_of_bytes stored_key) request_key) then None else
  '(count, f) ← read_all 8 f;
  '(t, f) ← read_deps (Z.to_nat (le_decode count)) t f;
  '(out, f) ← read_all 32 f;
  '(cpu, f) ← read_all 8 f;
  '(wall, f) ← read_all 8 f;
  Some (mkTrace (trace_request_key t) (deps t) (hash_of_bytes out)
                (le_decode cpu) (le_decode wall)).

(** [trace_load(request_key, storage)]: [None] is [NULL]. *)
Definition trace_load (request_key : Hash) (storage : Storage) : option Trace :=
  let trace_path := storage_get_trace_path storage request_key in
  if negb (storage_trace_exists storage request_key) then None else
  f ← disk storage !! trace_path;
  parse_trace request_key f.

(** ** Recipe (recipe.h, recipe.c) *)

Inductive RecipeState : Type :=
  | RECIPE_PENDING
  | RECIPE_RUNNING
  | RECIPE_SUSPENDED
  | RECIPE_COMPLETE
  | RECIPE_FAILED.

(** [fiber] and [user_data] are left out: nothing sets them. *)
Record Recipe : Type := mkRecipe {
  target_name : string;
  state : RecipeState;
  request_key : Hash;
  declared_deps : StrSet;
  pending_deps : StrSet;
  output_dir : option string;
  temp_dir : option string;
  start_time : Z
}.

Definition recipe_create (name : string) : Recipe :=
  mkRecipe name RECIPE_PENDING hash_zero (set_create 0) (set_create 0) None None 0.

(** [recipe_add_dependency(r, dep_path)]: the recipe afterwards. It returns
    before touching [pending_deps] when the first [set_add] fails; the error
    code, which no caller acts on, is left out. *)
Definition recipe_add_dependency (r : Recipe) (dep_path : string) : Recipe :=
  let '(err, declared) := set_add (declared_deps r) dep_path in
  let pending :=
    match err with
    | REBUILD_OK => snd (set_add (pending_deps r) dep_path)
    | _ => pending_deps r
    end in
  mkRecipe (target_name r) (state r) (request_key r) declared pending
           (output_dir r) (temp_dir r) (start_time r).

Definition recipe_set_state (r : Recipe) (st : RecipeState) : Recipe :=
  mkRecipe (target_name r) st (request_key r) (declared_deps r)
           (pending_deps r) (output_dir r) (temp_dir r) (start_time r).

Definition recipe_set_request_key (r : Recipe) (key : Hash) : Recipe :=
  mkRecipe (target_name r) (state r) key (declared_deps r)
           (pending_deps r) (output_dir r) (temp_dir r) (start_time r).

Definition recipe_set_output_dir (r : Recipe) (dir : string) : Recipe :=
  mkRecipe (target_name r) (state r) (request_key r) (declared_deps r)
           (pending_deps r) (Some dir) (temp_dir r) (start_time r).

Definition recipe_set_temp_dir (r : Recipe) (dir : option string) : Recipe :=
  mkRecipe (target_name r) (state r) (request_key r) (declared_deps r)
           (pending_deps r) (output_dir r) dir (start_time r).

Definition recipe_set_start_time (r : Recipe) (t : Z) : Recipe :=
  mkRecipe (target_name r) (state r) (request_key r) (declared_deps r)
           (pending_deps r) (output_dir r) (temp_dir r) t.

Definition recipe_has_dependency (r : Recipe) (dep_path : string) : bool :=
  set_has (declared_deps r) dep_path.

Section RequestKey.
Context `{Platform}.

(** The loop of [recipe_compute_request_key] over the sorted array. *)
Definition combine_deps (key : Hash) (sorted : list string) : Hash :=
  fold_left (fun k dep => hash_combine k (hash_data (str_bytes dep))) sorted key.

(** [recipe_compute_request_key(r, recipe_code_hash)]: the recipe with its
    [request_key] set. *)
Definition recipe_compute_request_key (r : Recipe) (recipe_code_hash : Hash) : Recipe :=
  let key := recipe_code_hash in
  let key := hash_combine key (hash_data (str_bytes (target_name r))) in
  let arr := set_iterate (declared_deps r) in
  let key :=
    if (0 <? length arr)%nat then combine_deps key (qsort id arr) else key in
  recipe_set_request_key r key.
End RequestKey.

(** ** Script runtime (umka_bridge.h)

    The engine sees a target function of the script only through the host
    functions it calls and the status [umka_resume_fiber] returns: a
    [Fiber] is that behaviour. [FiberDependOn] continues with what
    [rebuild_depend_on] returned.

    A [Fiber] is the behaviour of a script that returns: one that loops or
    blocks has none. Of the host functions it has the two that change a
    recipe or the scheduler; [rebuild_register_target], which writes the
    registry, is not one of them, so a registry stays as it is while a
    [Fiber] runs. *)

Inductive UmkaFiberStatus : Type :=
  | UMKA_FIBER_RUNNING
  | UMKA_FIBER_SUSPENDED
  | UMKA_FIBER_COMPLETE
  | UMKA_FIBER_ERROR.

Inductive Fiber : Type :=
  | FiberReturn (status : UmkaFiberStatus)
  | FiberDependOn (target : string) (k : option string -> Fiber)
  | FiberRegisterDep (path : string) (k : Fiber).

(** A compiled script: its functions by name ([umkaGetFunc]). *)
Definition Script : Type := string -> option Fiber.

Record Target : Type := mkTarget {
  name : string;
  function_name : string
}.

Definition TargetRegistry : Type := gmap string Target.

Definition target_registry_get (reg : TargetRegistry) (n : string) : option Target :=
  reg !! n.

Definition umka_create_fiber (umka : Script) (fn : string) : option Fiber := umka fn.

(** ** Scheduler (scheduler.h, scheduler.c) *)

(** [ready_queue] is the queue from head to tail; a waiter list is the list
    from its head. Two fields are not of the C struct: [clock_reads] counts
    the reads of the clock, and [executed] lists the targets
    [scheduler_execute_recipe] was called for, oldest first. *)
Record Scheduler : Type := mkScheduler {
  storage : Storage;
  recipes : gmap string Recipe;
  completed : gmap string string;
  ready_queue : list string;
  waiting : gmap string (list string);
  umka : option Script;
  registry : option TargetRegistry;
  active_count : Z;
  failed : bool;
  target_error : option string;
  clock_reads : nat;
  executed : list string
}.

Definition set_storage (s : Scheduler) (x : Storage) : Scheduler :=
  mkScheduler x (recipes s) (completed s) (ready_queue s) (waiting s) (umka s)
    (registry s) (active_count s) (failed s) (target_error s) (clock_reads s) (executed s).

Definition set_recipes (s : Scheduler) (x : gmap string Recipe) : Scheduler :=
  mkScheduler (storage s) x (completed s) (ready_queue s) (waiting s) (umka s)
    (registry s) (active_count s) (failed s) (target_error s) (clock_reads s) (executed s).

Definition set_completed (s : Scheduler) (x : gmap string string) : Scheduler :=
  mkScheduler (storage s) (recipes s) x (ready_queue s) (waiting s) (umka s)
    (registry s) (active_count s) (failed s) (target_error s) (clock_reads s) (executed s).

Definition set_ready_queue (s : Scheduler) (x : list string) : Scheduler :=
  mkScheduler (storage s) (recipes s) (completed s) x (waiting s) (umka s)
    (registry s) (active_count s) (failed s) (target_error s) (clock_reads s) (executed s).

Definition set_waiting (s : Scheduler) (x : gmap string (list string)) : Scheduler :=
  mkScheduler (storage s) (recipes s) (completed s) (ready_queue s) x (umka s)
    (registry s) (active_count s) (failed s) (target_error s) (clock_reads s) (executed s).

Definition set_active_count (s : Scheduler) (x : Z) : Scheduler :=
  mkScheduler (storage s) (recipes s) (completed s) (ready_queue s) (waiting s) (umka s)
    (registry s) x (failed s) (target_error s) (clock_reads s) (executed s).

Definition set_failure (s : Scheduler) (target : string) : Scheduler :=
  mkScheduler (storage s) (recipes s) (completed s) (ready_queue s) (waiting s) (umka s)
    (registry s) (active_count s) true (Some target) (clock_reads s) (executed s).

Definition tick (s : Scheduler) : Scheduler :=
  mkScheduler (storage s) (recipes s) (completed s) (ready_queue s) (waiting s) (umka s)
    (registry s) (active_count s) (failed s) (target_error s) (S (clock_reads s)) (executed s).

Definition log_executed (s : Scheduler) (target : string) : Scheduler :=
  mkScheduler (storage s) (recipes s) (completed s) (ready_queue s) (waiting s) (umka s)
    (registry s) (active_count s) (failed s) (target_error s) (clock_reads s)
    (executed s ++ [target]).

(** [scheduler->umka = umka] and [scheduler->registry = registry], as
    main.c does once the build file is loaded. *)
Definition scheduler_load (s : Scheduler) (script : Script) (reg : TargetRegistry)
  : Scheduler :=
  mkScheduler (storage s) (recipes s) (completed s) (ready_queue s) (waiting s)
    (Some script) (Some reg) (active_count s) (failed s) (target_error s)
    (clock_reads s) (executed s).

(** An assignment through a [Recipe*]. *)
Definition update_recipe (s : Scheduler) (r : string) (f : Recipe -> Recipe) : Scheduler :=
  set_recipes s (alter f r (recipes s)).

Definition queue_push (s : Scheduler) (r : string) : Scheduler :=
  set_ready_queue s (ready_queue s ++ [r]).

Definition queue_is_empty (s : Scheduler) : bool :=
  match ready_queue s with [] => true | _ => false end.

(** [waiter_list_add] links the new node at the head. *)
Definition waiter_list_add (waiters : list string) (r : string) : list string :=
  r :: waiters.

Definition scheduler_create (st : Storage) : Scheduler :=
  mkScheduler st ∅ ∅ [] ∅ None None 0 false None 0 [].

(** [scheduler_get_recipe]: the recipe is created when the map has none; the
    pointer it returns is [target]. *)
Definition scheduler_get_recipe (s : Scheduler) (target : string) : Scheduler :=
  match recipes s !! target with
  | Some _ => s
  | None => set_recipes s (<[target := recipe_create target]> (recipes s))
  end.

Definition scheduler_get_completed (s : Scheduler) (target : string) : option string :=
  completed s !! target.

Definition scheduler_mark_completed (s : Scheduler) (target output_path : string)
  : Scheduler :=
  set_completed s (<[target := output_path]> (completed s)).

Definition scheduler_resume_recipe (s : Scheduler) (r : string) : Scheduler :=
  let s := update_recipe s r (fun recipe =>
             match state recipe with
             | RECIPE_SUSPENDED => recipe_set_state recipe RECIPE_PENDING
             | _ => recipe
             end) in
  queue_push s r.

Definition waiter_list_notify_all (waiters : list string) (s : Scheduler) : Scheduler :=
  fold_left scheduler_resume_recipe waiters s.

(** The waiter list of [target] with [r] added, created when missing. *)
Definition add_waiter (s : Scheduler) (target r : string) : Scheduler :=
  let waiters := default [] (waiting s !! target) in
  set_waiting s (<[target := waiter_list_add waiters r]> (waiting s)).

(** [scheduler_on_depend_request(sched, recipe, target_name)]: the path it
    returns ([None] is [NULL]) and the scheduler afterwards. *)
Definition scheduler_on_depend_request (s : Scheduler) (r target : string)
  : option string * Scheduler :=
  let s := update_recipe s r (fun recipe => recipe_add_dependency recipe target) in
  match scheduler_get_completed s target with
  | Some completed_path => (Some completed_path, s)
  | None =>
      let s := scheduler_get_recipe s target in
      match state <$> recipes s !! target with
      | None => (None, s)
      | Some RECIPE_COMPLETE => (scheduler_get_completed s target, s)
      | Some RECIPE_PENDING =>
          let s := update_recipe s r (fun recipe =>
                     recipe_set_state recipe RECIPE_SUSPENDED) in
          let s := add_waiter s target r in
          let s := queue_push s target in
          (None, s)
      | Some _ =>
          let s := update_recipe s r (fun recipe =>
                     recipe_set_state recipe RECIPE_SUSPENDED) in
          let s := add_waiter s target r in
          (None, s)
      end
  end.

(** [umka_resume_fiber] on the fiber of recipe [r]: the host functions run
    against the scheduler, in the order the script calls them. This is what
    the bridge does when the context holds the interpreter and the
    [depend_on] callback is [scheduler_on_depend_request]; with a context
    that holds no interpreter [umka_resume_fiber] returns
    [UMKA_FIBER_ERROR] before any host function runs, which is
    [FiberReturn UMKA_FIBER_ERROR]. *)
Fixpoint run_fiber (f : Fiber) (r : string) (s : Scheduler)
  : UmkaFiberStatus * Scheduler :=
  match f with
  | FiberReturn status => (status, s)
  | FiberDependOn target k =>
      let '(path, s) := scheduler_on_depend_request s r target in
      run_fiber (k path) r s
  | FiberRegisterDep path k =>
      run_fiber k r (update_recipe s r (fun recipe => recipe_add_dependency recipe path))
  end.

Section SchedulerOps.
Context `{Platform}.

(** [uv_hrtime() / 1000000] and the scheduler after the read. *)
Definition now_ms (s : Scheduler) : Z * Scheduler :=
  (to_uint64 (uv_hrtime (clock_reads s)) / 1000000, tick s).

(** [storage_get_tmp_dir]: [<tmp>/<target>_<unix_secs>_<pid>]. The
    directory is made in this model; the code returns [NULL] when it cannot
    be. *)
Definition storage_get_tmp_dir (s : Scheduler) (target : string) : string :=
  (tmp_dir (storage s) ++ "/" ++ target ++ "_" ++ pretty (unix_time (clock_reads s))
     ++ "_" ++ pretty getpid)%string.

Definition scheduler_check_cache (fs : FileSystem) (s : Scheduler) (r : string)
  : bool * Scheduler :=
  match recipes s !! r with
  | None => (false, s)
  | Some recipe =>
      let request_key := hash_data (str_bytes (target_name recipe)) in
      let s := update_recipe s r (fun recipe =>
                 recipe_set_request_key recipe request_key) in
      match trace_load request_key (storage s) with
      | None => (false, s)
      | Some trace =>
          if trace_validate fs trace then
            let output_path := default "outputs" (output_dir recipe) in
            let s := update_recipe s r (fun recipe =>
                       recipe_set_state recipe RECIPE_COMPLETE) in
            (true, scheduler_mark_completed s (target_name recipe) output_path)
          else (false, s)
      end
  end.

(** The trace [scheduler_on_recipe_complete] builds on success. *)
Definition completion_trace (recipe : Recipe) (elapsed_time : Z) : Trace :=
  let trace := trace_create (request_key recipe) in
  mkTrace (trace_request_key trace) (deps trace) (hash_data [])
          elapsed_time elapsed_time.

Definition scheduler_on_recipe_complete (s : Scheduler) (r : string) (success : bool)
  : Scheduler :=
  match recipes s !! r with
  | None => s
  | Some recipe =>
      let s := set_active_count s (active_count s - 1) in
      let '(now, s) := now_ms s in
      let elapsed_time := to_uint64 (now - start_time recipe) in
      if success then
        let s := update_recipe s r (fun recipe =>
                   recipe_set_state recipe RECIPE_COMPLETE) in
        let trace := completion_trace recipe elapsed_time in
        let s := set_storage s (snd (trace_save trace (storage s))) in
        let output_path := default "outputs" (output_dir recipe) in
        let s := scheduler_mark_completed s (target_name recipe) output_path in
        match waiting s !! target_name recipe with
        | Some waiters =>
            let s := waiter_list_notify_all waiters s in
            set_waiting s (delete (target_name recipe) (waiting s))
        | None => s
        end
      else
        let s := update_recipe s r (fun recipe =>
                   recipe_set_state recipe RECIPE_FAILED) in
        set_failure s (target_name recipe)
  end.

(** [snprintf(path, 256, "outputs/%s", name)]. *)
Definition default_output_dir (target : string) : string :=
  substring 0 255 ("outputs/" ++ target)%string.

Definition scheduler_execute_recipe (s : Scheduler) (r : string) : Scheduler :=
  match recipes s !! r with
  | None => s
  | Some recipe =>
      let s := log_executed s r in
      let s := update_recipe s r (fun recipe =>
                 recipe_set_state recipe RECIPE_RUNNING) in
      let s := set_active_count s (active_count s + 1) in
      let '(now, s) := now_ms s in
      let s := update_recipe s r (fun recipe => recipe_set_start_time recipe now) in
      let s := match output_dir recipe with
               | None => update_recipe s r (fun recipe =>
                   recipe_set_output_dir recipe (default_output_dir (target_name recipe)))
               | Some _ => s
               end in
      let s := match temp_dir recipe with
               | None => update_recipe s r (fun recipe =>
                   recipe_set_temp_dir recipe
                     (Some (storage_get_tmp_dir s (target_name recipe))))
               | Some _ => s
               end in
      match umka s, registry s with
      | Some script, Some reg =>
          match target_registry_get reg (target_name recipe) with
          | None => scheduler_on_recipe_complete s r false
          | Some target =>
              match umka_create_fiber script (function_name target) with
              | None => scheduler_on_recipe_complete s r false
              | Some fiber =>
                  let '(status, s) := run_fiber fiber r s in
                  let success := match status with
                                 | UMKA_FIBER_COMPLETE => true
                                 | _ => false
                                 end in
                  scheduler_on_recipe_complete s r success
              end
          end
      | _, _ => scheduler_on_recipe_complete s r false
      end
  end.

(** The loop of [scheduler_run]: [fuel] bounds the number of iterations,
    and [None] means it was used up. *)
Fixpoint scheduler_run (fuel : nat) (s : Scheduler) : option (RebuildError * Scheduler) :=
  if negb (queue_is_empty s) && negb (failed s) then
    match fuel with
    | O => None
    | S fuel' =>
        match ready_queue s with
        | [] => scheduler_run fuel' s
        | r :: rest =>
            let s := set_ready_queue s rest in
            match state <$> recipes s !! r with
            | Some RECIPE_COMPLETE => scheduler_run fuel' s
            | _ => scheduler_run fuel' (scheduler_execute_recipe s r)
            end
        end
    end
  else if failed s then Some (REBUILD_ERROR_EXEC, s)
  else Some (REBUILD_OK, s).

Definition scheduler_build (fs : FileSystem) (fuel : nat) (s : Scheduler)
  (target : string) : option (RebuildError * Scheduler) :=
  let s := scheduler_get_recipe s target in
  match scheduler_get_completed s target with
  | Some _ => Some (REBUILD_OK, s)
  | None =>
      let '(hit, s) := scheduler_check_cache fs s target in
      if hit then Some (REBUILD_OK, s)
      else scheduler_run fuel (queue_push s target)
  end.
End SchedulerOps.

(** ** Set: removal, clearing, copies and unions (set.h, set.c) *)

(** What [set_remove] leaves in a slot: the entry keeps its string and is
    no longer occupied. *)
Definition tombstone_entry (v : string) : SetEntry := mkEntry (Some v) false.

Definition set_size (s : StrSet) : nat := size s.

Definition set_capacity (s : StrSet) : nat := capacity s.

(** [set_remove(set, value)]: whether the value was there, and the set
    afterwards. *)
Definition set_remove (s : StrSet) (v : string) : bool * StrSet :=
  if (size s =? 0)%nat then (false, s)
  else match set_find_entry (entries s) (capacity s) v with
       | None => (false, s)
       | Some slot =>
           match entries s !! slot with
           | None => (false, s)
           | Some entry =>
               if negb (occupied entry) then (false, s)
               else (true,
                     mkSet (<[slot := mkEntry (value entry) false]> (entries s))
                           (capacity s) (size s - 1) (S (tombstones s)))
           end
       end.

(** [set_clear(set)]: every slot is reset, the capacity stays. *)
Definition set_clear (s : StrSet) : StrSet :=
  mkSet (map (fun _ => empty_entry) (entries s)) (capacity s) 0 0.

(** The loop of [set_copy] and of [set_union] over the entries of the other
    set: [set_add] for each value, leaving at the first error. *)
Fixpoint add_entries (s : StrSet) (others : list SetEntry) : RebuildError * StrSet :=
  match others with
  | [] => (REBUILD_OK, s)
  | entry :: rest =>
      match occupied entry, value entry with
      | true, Some v =>
          let '(err, s') := set_add s v in
          match err with
          | REBUILD_OK => add_entries s' rest
          | _ => (err, s')
          end
      | _, _ => add_entries s rest
      end
  end.

(** [set_copy(set)]: [None] is [NULL]. *)
Definition set_copy (s : StrSet) : option StrSet :=
  let copy := set_create (capacity s) in
  match add_entries copy (entries s) with
  | (REBUILD_OK, copy) => Some copy
  | _ => None
  end.

(** [set_union(set, other)] for two different sets: the error code and
    [set] afterwards. *)
Definition set_union (s other : StrSet) : RebuildError * StrSet :=
  add_entries s (entries other).

Definition set_contains_all (s other : StrSet) : bool :=
  if (size other =? 0)%nat then true
  else if (size s <? size other)%nat then false
  else forallb (fun entry =>
                  match occupied entry, value entry with
                  | true, Some v => set_has s v
                  | _, _ => true
                  end) (entries other).

(** ** Map (map.h, map.c)

    The hash map the scheduler and the target registry keep their tables
    in: open addressing with linear probing, as [Set]. A [void*] value is
    an [option]: [None] is [NULL], which the map stores like any other
    value. [hash_string] and the rounding loop of [map_create] are those of
    set.c, word for word. *)

Module Map.
Section WithValues.
Context {V : Type}.

Record MapEntry : Type := mkEntry {
  key : option string;
  value : option V;
  occupied : bool
}.

Record Map : Type := mkMap {
  entries : list MapEntry;
  capacity : nat;
  size : nat;
  tombstones : nat
}.

Definition DEFAULT_MAP_CAPACITY : nat := 16.

(** What [calloc] leaves in a slot. *)
Definition empty_entry : MapEntry := mkEntry None None false.

(** The loop of [map_find_entry] from iteration [i] on, with [fuel]
    iterations left. *)
Fixpoint find_loop (entries : list MapEntry) (capacity index : nat) (k : string)
    (tombstone : option nat) (i fuel : nat) : option nat :=
  match fuel with
  | O => tombstone
  | S fuel' =>
      let probe_index := ((index + i) mod capacity)%nat in
      match entries !! probe_index with
      | None => tombstone
      | Some entry =>
          if negb (occupied entry) then
            match key entry with
            | None => Some (default probe_index tombstone)
            | Some _ =>
                find_loop entries capacity index k
                          (Some (default probe_index tombstone)) (S i) fuel'
            end
          else if bool_decide (key entry = Some k) then Some probe_index
          else find_loop entries capacity index k tombstone (S i) fuel'
      end
  end.

(** [map_find_entry(entries, capacity, key)]: the slot found, [None] for
    [NULL]. *)
Definition map_find_entry (entries : list MapEntry) (capacity : nat) (k : string)
  : option nat :=
  find_loop entries capacity (home_slot capacity k) k None 0 capacity.

(** The body of the rehash loop of [map_grow] for one old entry. *)
Definition rehash_entry (new_capacity : nat) (new_entries : list MapEntry)
    (entry : MapEntry) : list MapEntry :=
  match occupied entry, key entry with
  | true, Some k =>
      match map_find_entry new_entries new_capacity k with
      | Some dest => <[dest := mkEntry (Some k) (value entry) true]> new_entries
      | None => new_entries
      end
  | _, _ => new_entries
  end.

(** The pair [map_iterate] passes on for a slot, if any. *)
Definition slot_binding (entry : MapEntry) : option (string * option V) :=
  if occupied entry then (fun k => (k, value entry)) <$> key entry else None.

(** [map_iterate] with a callback that collects and never stops: the keys
    with their values, in slot order. *)
Definition map_iterate (m : Map) : list (string * option V) :=
  omap slot_binding (entries m).

Definition map_grow (m : Map) : Map :=
  let new_capacity :=
    if (capacity m =? 0)%nat then DEFAULT_MAP_CAPACITY else (capacity m * 2)%nat in
  let new_entries :=
    fold_left (rehash_entry new_capacity) (entries m)
              (replicate new_capacity empty_entry) in
  mkMap new_entries new_capacity (length (map_iterate m)) 0.

Definition map_create (initial_capacity : nat) : Map :=
  let initial_capacity :=
    if (initial_capacity =? 0)%nat then DEFAULT_MAP_CAPACITY else initial_capacity in
  let capacity := round_up initial_capacity 1 initial_capacity in
  mkMap (replicate capacity empty_entry) capacity 0 0.

(** [map_set(map, key, value)]: the error code and the map afterwards. The
    key is copied for a new entry only; an entry that exists keeps its key
    and takes the value. *)
Definition map_set (m : Map) (k : string) (v : option V) : RebuildError * Map :=
  let m := if (load_limit (capacity m) <? size m + tombstones m + 1)%nat
           then map_grow m else m in
  match map_find_entry (entries m) (capacity m) k with
  | None => (REBUILD_ERROR_MEMORY, m)
  | Some slot =>
      match entries m !! slot with
      | None => (REBUILD_ERROR_MEMORY, m)
      | Some entry =>
          if occupied entry
          then (REBUILD_OK,
                mkMap (<[slot := mkEntry (key entry) v true]> (entries m)) (capacity m)
                      (size m) (tombstones m))
          else (REBUILD_OK,
                mkMap (<[slot := mkEntry (Some k) v true]> (entries m)) (capacity m)
                      (S (size m)) (tombstones m))
      end
  end.

(** [map_get(map, key)]: [None] for a key that is missing, and for a key
    set to [NULL]. *)
Definition map_get (m : Map) (k : string) : option V :=
  if (size m =? 0)%nat then None
  else match map_find_entry (entries m) (capacity m) k with
       | None => None
       | Some slot =>
           match entries m !! slot with
           | Some entry => if occupied entry then value entry else None
           | None => None
           end
       end.

Definition map_has (m : Map) (k : string) : bool :=
  if (size m =? 0)%nat then false
  else match map_find_entry (entries m) (capacity m) k with
       | None => false
       | Some slot =>
           match entries m !! slot with
           | Some entry => occupied entry
           | None => false
           end
       end.

(** [map_remove(map, key)]: the old value and the map afterwards. The slot
    becomes a tombstone, which keeps the key. *)
Definition map_remove (m : Map) (k : string) : option V * Map :=
  if (size m =? 0)%nat then (None, m)
  else match map_find_entry (entries m) (capacity m) k with
       | None => (None, m)
       | Some slot =>
           match entries m !! slot with
           | None => (None, m)
           | Some entry =>
               if negb (occupied entry) then (None, m)
               else (value entry,
                     mkMap (<[slot := mkEntry (key entry) None false]> (entries m))
                           (capacity m) (size m - 1) (S (tombstones m)))
           end
       end.

Definition map_size (m : Map) : nat := size m.

Definition map_capacity (m : Map) : nat := capacity m.

(** [map_clear(map, value_free_fn)]: every slot is reset, the capacity
    stays. *)
Definition map_clear (m : Map) : Map :=
  mkMap (map (fun _ => empty_entry) (entries m)) (capacity m) 0 0.
End WithValues.

Arguments MapEntry : clear implicits.
Arguments Map : clear implicits.
End Map.

(** ** The target registry over its map (target.h, target.c)

    The registry as target.c keeps it, in a [Map] from names to targets.
    The interpreter pointers [umka] and [umka_script] are left out. *)

Module Registry.
Record TargetRegistry : Type := mkRegistry {
  targets : Map.Map Target
}.

Definition target_registry_create : TargetRegistry := mkRegistry (Map.map_create 0).

Definition target_registry_has (registry : TargetRegistry) (name : string) : bool :=
  Map.map_has (targets registry) name.

Definition target_registry_get (registry : TargetRegistry) (name : string)
  : option Target :=
  Map.map_get (targets registry) name.

(** [target_registry_register(registry, name, function_name, script)]: a
    target of that name is removed first, then the new one is set. *)
Definition target_registry_register (registry : TargetRegistry)
    (name function_name : string) : RebuildError * TargetRegistry :=
  let targets :=
    if target_registry_has registry name
    then snd (Map.map_remove (targets registry) name)
    else targets registry in
  let target := mkTarget name function_name in
  let '(err, targets) := Map.map_set targets name (Some target) in
  (err, mkRegistry targets).

(** [target_registry_list(registry, &count)]: the names in the order
    [map_iterate] visits them; [count] is the length. *)
Definition target_registry_list (registry : TargetRegistry) : list string :=
  (Map.map_iterate (targets registry)).*1.
End Registry.

(** ** Hashes from hexadecimal (hash.c) *)

(** [isxdigit((unsigned char)c)]: a digit, or a letter from a to f in
    either case. *)
Definition isxdigit (c : byte) : bool :=
  let n := Z_of_byte c in
  ((48 <=? n) && (n <=? 57)) || ((65 <=? n) && (n <=? 70)) || ((97 <=? n) && (n <=? 102)).

(** The value [strtoul(.., 16)] gives a hexadecimal digit. *)
Definition hex_value (c : byte) : Z :=
  let n := Z_of_byte c in
  if n <=? 57 then n - 48 else if n <=? 70 then n - 55 else n - 87.

(** The loop of [hash_from_hex] from pair [i] on, over the digits left:
    whether it came to its end, and the bytes of [out] then. A pair of
    hexadecimal digits is all [strtoul] reads, so its end pointer check
    never fails. *)
Fixpoint from_hex_loop (digits : list byte) (i : nat) (out : list byte)
  : bool * list byte :=
  match digits with
  | high :: low :: rest =>
      if negb (isxdigit high) || negb (isxdigit low) then (false, out)
      else
        let val := hex_value high * 16 + hex_value low in
        from_hex_loop rest (S i) (<[i := byte_of_Z val]> out)
  | _ => (true, out)
  end.

(** [hash_from_hex(hex, out)]: the result and [*out] afterwards. *)
Definition hash_from_hex (hex : string) (out : Hash) : bool * Hash :=
  if negb (strlen hex =? 64) then (false, out)
  else
    let '(ok, bytes) := from_hex_loop (str_bytes hex) 0 (hash_bytes out) in
    (ok, hash_of_bytes bytes).

(** ** Buffer (buffer.h, buffer.c)

    [data] holds the [size] bytes in use: the rest of the allocation is
    never read. [size_t] has 64 bits. Allocation succeeds in this model, as
    [rebuild_malloc] and [rebuild_realloc] leave the program when it does
    not. *)

Module Buffer.

Record Buffer : Type := mkBuffer {
  data : list byte;
  capacity : Z
}.

Definition DEFAULT_BUFFER_CAPACITY : Z := 64.

Definition to_size (v : Z) : Z := v mod 2 ^ 64.

Definition buffer_size (buf : Buffer) : Z := Z.of_nat (length (data buf)).

Definition buffer_capacity (buf : Buffer) : Z := capacity buf.

(** [while (new_capacity < min_capacity) new_capacity = new_capacity +
    (new_capacity >> 1)]: [fuel] bounds the number of iterations, and [None]
    means it was used up. *)
Fixpoint grow_loop (fuel : nat) (new_capacity min_capacity : Z) : option Z :=
  if new_capacity <? min_capacity then
    match fuel with
    | O => None
    | S fuel' =>
        grow_loop fuel' (to_size (new_capacity + Z.shiftr new_capacity 1)) min_capacity
    end
  else Some new_capacity.

Definition buffer_ensure_capacity (fuel : nat) (buf : Buffer) (min_capacity : Z)
  : option (RebuildError * Buffer) :=
  if min_capacity <=? capacity buf then Some (REBUILD_OK, buf)
  else
    let new_capacity :=
      if capacity buf =? 0 then DEFAULT_BUFFER_CAPACITY else capacity buf in
    match grow_loop fuel new_capacity min_capacity with
    | None => None
    | Some new_capacity =>
        if new_capacity =? 0 then Some (REBUILD_ERROR_MEMORY, buf)
        else Some (REBUILD_OK, mkBuffer (data buf) new_capacity)
    end.

Definition buffer_create (initial_capacity : Z) : Buffer :=
  let initial_capacity :=
    if initial_capacity =? 0 then DEFAULT_BUFFER_CAPACITY else initial_capacity in
  mkBuffer [] initial_capacity.

(** [buffer_append(buf, data, len)] with [len] the length of [bytes], for
    [size + len] within [size_t]. *)
Definition buffer_append (fuel : nat) (buf : Buffer) (bytes : list byte)
  : option (RebuildError * Buffer) :=
  let len := Z.of_nat (length bytes) in
  if len =? 0 then Some (REBUILD_OK, buf)
  else
    match buffer_ensure_capacity fuel buf (to_size (buffer_size buf + len)) with
    | None => None
    | Some (REBUILD_OK, buf) =>
        Some (REBUILD_OK, mkBuffer (data buf ++ bytes) (capacity buf))
    | Some (err, buf) => Some (err, buf)
    end.

Definition buffer_append_str (fuel : nat) (buf : Buffer) (str : string)
  : option (RebuildError * Buffer) :=
  buffer_append fuel buf (str_bytes str).

Definition buffer_append_char (fuel : nat) (buf : Buffer) (c : byte)
  : option (RebuildError * Buffer) :=
  buffer_append fuel buf [c].

Definition buffer_clear (buf : Buffer) : Buffer := mkBuffer [] (capacity buf).

(** [buffer_to_string(buf)]: the copy ends with a NUL, so as a C string it
    stops at the first NUL of the data. *)
Definition buffer_to_string (buf : Buffer) : string := rebuild_strdup (data buf).

End Buffer.

(** ** The command line (main.c)

    [argv] holds C strings, and [argc] is its length. *)

(** [strcmp(a, b) == 0]. *)
Definition streq (a b : string) : bool := bytes_eqb (str_bytes a) (str_bytes b).

(** [arg[0] == '-']. *)
Definition starts_with_dash (arg : string) : bool :=
  match str_bytes arg with
  | b :: _ => Byte.eqb b x2d
  | [] => false
  end.

(** The loop of [main] over [argv[1]] to [argv[argc - 1]]: the code [main]
    returns from inside the loop ([inl]), or [target_name] at its end. *)
Fixpoint parse_options (args : list string) (target_name : option string)
  : Z + option string :=
  match args with
  | [] => inr target_name
  | arg :: rest =>
      if streq arg "-h" || streq arg "--help" then inl 0
      else if streq arg "--version" then inl 0
      else if starts_with_dash arg then inl 1
      else match target_name with
           | None => parse_options rest (Some arg)
           | Some _ => inl 1
           end
  end.

(** [main] up to the point where it sets up the build: the code it returns,
    or the target it goes on to build. *)
Definition main_arguments (argv : list string) : Z + string :=
  if (length argv <? 2)%nat then inl 1
  else match parse_options (tl argv) None with
       | inl code => inl code
       | inr None => inl 1
       | inr (Some target_name) => inr target_name
       end.

(** ** Notions the properties are stated with *)

Section Matching.
Context `{Platform}.

(** The hash a dependency path has now: [hash_file] for a regular file,
    [hash_tree] for a directory, none for a missing path and for anything
    else. *)
Definition current_hash (fs : FileSystem) (path : string) : option Hash :=
  match stat fs path with
  | Some S_IFREG => hash_file fs path
  | Some S_IFDIR => hash_tree fs path
  | _ => None
  end.

(** A recorded dependency matches when its path hashes to the recorded
    hash. *)
Definition dep_matches (fs : FileSystem) (d : string * Hash) : Prop :=
  current_hash fs (fst d) = Some (snd d).
End Matching.

(** A path [trace_validate] can hand to a hash function: a regular file or
    a directory. *)
Definition hashable (fs : FileSystem) (path : string) : bool :=
  match stat fs path with
  | Some S_IFREG | Some S_IFDIR => true
  | _ => false
  end.

(** Slot [j] holds the value [v]. *)
Definition holds (es : list SetEntry) (j : nat) (v : string) : Prop :=
  es !! j ≫= slot_value = Some v.

(** Slot [j] was never used. *)
Definition unused (es : list SetEntry) (j : nat) : Prop :=
  es !! j = Some empty_entry.

(** The slot probed at iteration [k] of [set_find_entry]. *)
Definition probe (cap h k : nat) : nat := ((h + k) mod cap)%nat.

(** The slots probed before iteration [k] all hold a value. *)
Definition run_full (es : list SetEntry) (cap h k : nat) : Prop :=
  forall k', (k' < k)%nat -> exists w, holds es (probe cap h k') w.

(** A table without tombstones in which every value is found by probing
    from its home slot, and sits in one slot only. *)
Definition table_ok (es : list SetEntry) (cap : nat) : Prop :=
  length es = cap
  /\ Forall (fun e => e = empty_entry \/ exists v, e = value_entry v) es
  /\ (forall j v, holds es j v ->
        exists k, (k < cap)%nat /\ probe cap (home_slot cap v) k = j
                  /\ run_full es cap (home_slot cap v) k)
  /\ (forall j1 j2 v, holds es j1 v -> holds es j2 v -> j1 = j2).

(** What [set_create] establishes and [set_add] keeps. *)
Definition set_wf (s : StrSet) : Prop :=
  table_ok (entries s) (capacity s)
  /\ (0 < capacity s)%nat
  /\ tombstones s = 0%nat
  /\ size s = length (set_iterate s)
  /\ (size s <= load_limit (capacity s))%nat.

Section Reachable.
Context `{Platform}.

(** The state [scheduler_execute_recipe] has made when it resumes the fiber
    of the recipe: the recipe is logged and Running, [active_count] is
    raised, the start time is read and the two directories are set. The
    host functions of the script run in this state, and
    [scheduler_on_recipe_complete] is called in it for a recipe without a
    script, a registry, a target or a function. *)
Definition execute_recipe_setup (s : Scheduler) (r : string) : Scheduler :=
  match recipes s !! r with
  | None => s
  | Some recipe =>
      let s := log_executed s r in
      let s := update_recipe s r (fun recipe =>
                 recipe_set_state recipe RECIPE_RUNNING) in
      let s := set_active_count s (active_count s + 1) in
      let '(now, s) := now_ms s in
      let s := update_recipe s r (fun recipe => recipe_set_start_time recipe now) in
      let s := match output_dir recipe with
               | None => update_recipe s r (fun recipe =>
                   recipe_set_output_dir recipe (default_output_dir (target_name recipe)))
               | Some _ => s
               end in
      match temp_dir recipe with
      | None => update_recipe s r (fun recipe =>
          recipe_set_temp_dir recipe
            (Some (storage_get_tmp_dir s (target_name recipe))))
      | Some _ => s
      end
  end.

(** The states of a scheduler: what [scheduler_create] returns, and every
    state an operation of scheduler.h or a host function of the script
    bridge leaves, also those inside [scheduler_execute_recipe], where the
    recipe of the running script is Running ([reach_setup]) until it asks
    for a dependency. *)
Inductive reachable : Scheduler -> Prop :=
  | reach_create st :
      reachable (scheduler_create st)
  | reach_load s script reg :
      reachable s -> reachable (scheduler_load s script reg)
  | reach_get_recipe s target :
      reachable s -> reachable (scheduler_get_recipe s target)
  | reach_mark_completed s target path :
      reachable s -> reachable (scheduler_mark_completed s target path)
  | reach_check_cache fs s r :
      reachable s -> reachable (snd (scheduler_check_cache fs s r))
  | reach_execute s r :
      reachable s -> reachable (scheduler_execute_recipe s r)
  | reach_setup s r :
      reachable s -> reachable (execute_recipe_setup s r)
  | reach_complete s r success :
      reachable s -> reachable (scheduler_on_recipe_complete s r success)
  | reach_depend s r target :
      reachable s -> reachable (snd (scheduler_on_depend_request s r target))
  | reach_register_dep s r path :
      reachable s ->
      reachable (update_recipe s r (fun recipe => recipe_add_dependency recipe path))
  | reach_resume s r :
      reachable s -> reachable (scheduler_resume_recipe s r)
  | reach_build fs fuel s target e s' :
      reachable s -> scheduler_build fs fuel s target = Some (e, s') -> reachable s'
  | reach_run fuel s e s' :
      reachable s -> scheduler_run fuel s = Some (e, s') -> reachable s'.
End Reachable.

(** What holds of the recipes in every reachable state: a recipe is filed
    under its own name, its two dependency sets are the same well-formed
    table, and a Complete recipe has a published output path. *)
Definition recipes_consistent (rs : gmap string Recipe) (cs : gmap string string) : Prop :=
  forall n d,
    rs !! n = Some d ->
    target_name d = n
    /\ (pending_deps d = declared_deps d /\ set_wf (declared_deps d))
    /\ (state d = RECIPE_COMPLETE -> is_Some (cs !! n)).

Definition scheduler_consistent (s : Scheduler) : Prop :=
  recipes_consistent (recipes s) (completed s).

(** An update of a recipe that keeps its name, adds to both dependency sets
    alike and does not make it Complete. *)
Definition neutral (f : Recipe -> Recipe) : Prop :=
  forall d,
    target_name (f d) = target_name d
    /\ (pending_deps d = declared_deps d /\ set_wf (declared_deps d) ->
        pending_deps (f d) = declared_deps (f d) /\ set_wf (declared_deps (f d)))
    /\ (state (f d) = RECIPE_COMPLETE -> state d = RECIPE_COMPLETE).

(** The state [scheduler_on_depend_request] finds the recipe of [target] in:
    a recipe that does not exist yet is created Pending. *)
Definition dependency_state (s : Scheduler) (target : string) : RecipeState :=
  match recipes s !! target with
  | Some d => state d
  | None => RECIPE_PENDING
  end.

(** Two states with the same failure flag, failed target and list of
    executed recipes. *)
Definition same_outcome (s s' : Scheduler) : Prop :=
  failed s' = failed s
  /\ target_error s' = target_error s
  /\ executed s' = executed s.

(** What the C types guarantee of a [Trace]: every path is a C string, there
    are at most [UINT64_MAX] dependencies, and the timings are [uint64_t]. *)
Definition trace_representable (t : Trace) : Prop :=
  Forall (fun d => is_c_string (fst d)) (deps t)
  /\ dep_count t <= UINT64_MAX
  /\ is_uint64 (cpu_time_ms t)
  /\ is_uint64 (wall_time_ms t).

(** No dependency path is longer than the 4096 bytes [trace_load] accepts. *)
Definition paths_within_limit (t : Trace) : Prop :=
  Forall (fun d => strlen (fst d) <= MAX_PATH_LEN) (deps t).

(** A trace whose one dependency path is 4097 bytes long, and an empty
    store. *)
Definition long_path : string := string_of_list_byte (repeat x61 4097).

Definition long_path_trace : Trace :=
  mkTrace hash_zero [(long_path, hash_zero)] hash_zero 7 9.

Definition empty_storage : Storage :=
  mkStorage "/data/rebuild" "/data/rebuild/traces" "/data/rebuild/objects"
            "/data/rebuild/tmp" ∅.

(** The trace of the repository's save-and-load test, with this model's
    test digest for the hashes. *)
Definition sample_trace : Trace :=
  mkTrace (hash_of_bytes (repeat x2a 32))
          [("/path/to/source.c", hash_of_bytes (repeat x01 32));
           ("/path/to/header.h", hash_of_bytes (repeat x02 32))]
          (hash_of_bytes (repeat x03 32)) 1234 5678.

(** One dependency as a trace file holds it: the bytes of its path and its
    hash, written as length, path, hash. *)
Definition encode_entry (e : list byte * Hash) : list byte :=
  le_encode 4 (Z.of_nat (length (fst e))) ++ fst e ++ hash_bytes (snd e).

(** The dependency [trace_load] records for such an entry. *)
Definition load_entry (e : list byte * Hash) : string * Hash :=
  (rebuild_strdup (fst e), snd e).

(** A store whose trace file for the zero key starts with the bytes "RBTX". *)
Definition bad_magic_storage : Storage :=
  storage_write empty_storage (storage_get_trace_path empty_storage hash_zero)
    ([x52; x42; x54; x58] ++ drop 4 (trace_file (trace_create hash_zero))).

(** The recipe after the script registered the given paths, in order. *)
Definition register_all (r : Recipe) (paths : list string) : Recipe :=
  fold_left recipe_add_dependency paths r.

(** A file system with nothing in it. *)
Definition empty_fs : FileSystem := fun _ => None.

(** A platform to run the model on: the digest is the first 32 bytes of the
    input, padded with zeros. *)
Definition test_digest (data : list byte) : Hash :=
  hash_of_bytes (take 32 (data ++ repeat x00 32)).

Definition test_platform : Platform :=
  {| blake2b := test_digest;
     uv_hrtime := fun n => Z.of_nat n * 5000000;
     unix_time := fun n => 1700000000 + Z.of_nat n;
     getpid := 4242 |}.

(** A scheduler that knows the target "lib", over a store that holds the
    trace an earlier build of "lib" left: no dependency, as
    [scheduler_on_recipe_complete] writes it. *)
Definition lib_key : Hash := @hash_data test_platform (str_bytes "lib").

Definition lib_trace : Trace := mkTrace lib_key [] hash_zero 5 5.

Definition lib_scheduler : Scheduler :=
  scheduler_get_recipe
    (scheduler_create (snd (trace_save lib_trace empty_storage))) "lib".

(** A scheduler on an empty store that knows the target "app". *)
Definition app_scheduler : Scheduler :=
  scheduler_get_recipe (scheduler_create empty_storage) "app".

(** The scheduler of "app" once "app" has asked for "lib": "app" waits for
    "lib", and "lib" is queued. *)
Definition waiting_scheduler : Scheduler :=
  snd (scheduler_on_depend_request app_scheduler "app" "lib").

(** The scheduler of "app" when [scheduler_execute_recipe] resumes the
    script of "app": the recipe of "app" is Running. *)
Definition running_scheduler : Scheduler :=
  @execute_recipe_setup test_platform app_scheduler "app".

(** The scheduler when [scheduler_run] has taken "lib" from the queue and
    [scheduler_execute_recipe] resumes its script: "lib" is Running and
    "app" waits for it. *)
Definition running_lib_scheduler : Scheduler :=
  @execute_recipe_setup test_platform (set_ready_queue waiting_scheduler []) "lib".

(** The scheduler of "app" once the script of "app" has registered the
    dependency "gen.h". *)
Definition registered_scheduler : Scheduler :=
  update_recipe app_scheduler "app"
    (fun recipe => recipe_add_dependency recipe "gen.h").

(** The three shapes of a slot: never used, a value, a tombstone. *)
Definition entry_ok (e : SetEntry) : Prop :=
  e = empty_entry \/ (exists v, e = value_entry v) \/ (exists v, e = tombstone_entry v).

(** A slot that was used: it holds a value or a tombstone. *)
Definition slot_used (e : SetEntry) : bool :=
  match value e with
  | Some _ => true
  | None => occupied e
  end.

(** The number of slots that were used. *)
Definition used_slots (es : list SetEntry) : nat :=
  length (List.filter slot_used es).

(** A table, tombstones included, in which every value is reached by
    probing from its home slot before any slot that was never used, and
    sits in one slot only. *)
Definition table_inv (es : list SetEntry) (cap : nat) : Prop :=
  length es = cap
  /\ Forall entry_ok es
  /\ (forall j v, holds es j v ->
        exists k, (k < cap)%nat /\ probe cap (home_slot cap v) k = j
                  /\ forall k', (k' < k)%nat ->
                       ~ unused es (probe cap (home_slot cap v) k'))
  /\ (forall j1 j2 v, holds es j1 v -> holds es j2 v -> j1 = j2).

(** What every operation of set.h keeps. *)
Definition set_inv (s : StrSet) : Prop :=
  table_inv (entries s) (capacity s)
  /\ (0 < capacity s)%nat
  /\ size s = length (set_iterate s)
  /\ (used_slots (entries s) <= size s + tombstones s)%nat
  /\ (size s + tombstones s <= load_limit (capacity s))%nat.

(** The sets a program can hold: what [set_create] returns and what the
    operations of set.h make of them. *)
Inductive set_built : StrSet -> Prop :=
  | built_create initial_capacity :
      set_built (set_create initial_capacity)
  | built_add s v :
      set_built s -> set_built (snd (set_add s v))
  | built_remove s v :
      set_built s -> set_built (snd (set_remove s v))
  | built_clear s :
      set_built s -> set_built (set_clear s)
  | built_union s other :
      set_built s -> set_built other -> set_built (snd (set_union s other))
  | built_copy s copy :
      set_built s -> set_copy s = Some copy -> set_built copy.

(** A set that has seen additions and removals. *)
Definition sample_set : StrSet :=
  snd (set_remove
         (fold_left (fun s v => snd (set_add s v))
                    ["main.c"; "util.c"; "util.h"; "b.h"; "gen.h"] (set_create 4))
         "b.h").

(** The key and the flag of a map entry, as an entry of a set of keys. *)
Definition key_entry {V : Type} (e : Map.MapEntry V) : SetEntry :=
  mkEntry (Map.key e) (Map.occupied e).

(** The set of keys a map holds, slot by slot. *)
Definition map_keys {V : Type} (m : Map.Map V) : StrSet :=
  mkSet (key_entry <$> Map.entries m) (Map.capacity m) (Map.size m) (Map.tombstones m).

(** The finite map a [Map] stands for. *)
Definition map_contents {V : Type} (m : Map.Map V) : gmap string (option V) :=
  list_to_map (Map.map_iterate m).

(** The maps a program can hold: what [map_create] returns and what the
    operations of map.h make of them. *)
Inductive map_built {V : Type} : Map.Map V -> Prop :=
  | map_built_create initial_capacity :
      map_built (Map.map_create initial_capacity)
  | map_built_set m k v :
      map_built m -> map_built (snd (Map.map_set m k v))
  | map_built_remove m k :
      map_built m -> map_built (snd (Map.map_remove m k))
  | map_built_clear m :
      map_built m -> map_built (Map.map_clear m).

(** The pair [list_to_map] files first wins; the pairs of a map have
    distinct keys. *)
Definition put {V : Type} (b : option (string * option V))
    (M : gmap string (option V))
  : gmap string (option V) :=
  match b with
  | Some (k, v) => <[k := v]> M
  | None => M
  end.

(** The registry after [rebuild_register_target] was called for each pair
    of a name and a function name, in order. *)
Definition register_targets (pairs : list (string * string)) : Registry.TargetRegistry :=
  fold_left (fun registry p => snd (Registry.target_registry_register registry p.1 p.2))
            pairs Registry.target_registry_create.

(** The registry of the scheduler model a registry of target.c stands for. *)
Definition registry_view (registry : Registry.TargetRegistry) : TargetRegistry :=
  omap id (map_contents (Registry.targets registry)).

(** A map that has seen additions, a replacement and a removal. *)
Definition sample_map : Map.Map nat :=
  snd (Map.map_remove
         (fold_left (fun m p => snd (Map.map_set m p.1 p.2))
                    [("lib", Some 1%nat); ("app", Some 2%nat); ("gen", None);
                     ("lib", Some 3%nat); ("test", Some 4%nat)]
                    (Map.map_create 2))
         "app").

(** What holds of a registry filled by [target_registry_register]: its map
    is one a program can hold, and no name is filed with a NULL target. *)
Definition registry_ok (registry : Registry.TargetRegistry) : Prop :=
  map_built (Registry.targets registry)
  /\ forall n t, map_contents (Registry.targets registry) !! n = Some t -> is_Some t.

(** A letter from A to F in lower case, any other byte as it is. *)
Definition hex_lower (c : byte) : byte :=
  let n := Z_of_byte c in
  if (65 <=? n) && (n <=? 70) then byte_of_Z (n + 32) else c.

(** The bytes the pairs of digits stand for. *)
Fixpoint hex_pairs (digits : list byte) : list byte :=
  match digits with
  | high :: low :: rest => byte_of_Z (hex_value high * 16 + hex_value low) :: hex_pairs rest
  | _ => []
  end.

(** Sixty-four characters, the ninth and the tenth of which are no
    hexadecimal digits. *)
Definition bad_fifth_pair : string :=
  "01234567zz000000000000000000000000000000000000000000000000000000".

(** All the hashes of a list combined, from a first one on. *)
Definition combine_all (acc : Hash) (hs : list Hash) : Hash :=
  fold_left hash_combine hs acc.

(** What an entry brings to the hash of its directory: the hash of its
    name, and its own hash when it has one. *)
Definition entry_terms `{Platform} (e : string * option Hash) : list Hash :=
  hash_data (str_bytes (fst e)) :: match snd e with Some h => [h] | None => [] end.

(** The store after the trace of the save-and-load test was saved. *)
Definition sample_storage : Storage := snd (trace_save sample_trace empty_storage).

(** Whether the recipe of [n] is Complete. *)
Definition is_complete (s : Scheduler) (n : string) : bool :=
  match state <$> recipes s !! n with
  | Some RECIPE_COMPLETE => true
  | _ => false
  end.

(** What [scheduler_resume_recipe] does to the state of a recipe. *)
Definition resumed (recipe : Recipe) : Recipe :=
  match state recipe with
  | RECIPE_SUSPENDED => recipe_set_state recipe RECIPE_PENDING
  | _ => recipe
  end.

(** What the script of recipe [r] cannot change while it runs: the failure
    flag, the store, the script and its registry, and what is on the ready
    queue already; and of every recipe its name and request key, and of
    every other recipe that it is Complete. *)
Definition benign (r : string) (s s' : Scheduler) : Prop :=
  failed s' = failed s
  /\ storage s' = storage s
  /\ registry s' = registry s
  /\ umka s' = umka s
  /\ executed s' = executed s
  /\ (exists more, ready_queue s' = ready_queue s ++ more)
  /\ forall n d, recipes s !! n = Some d ->
       exists d', recipes s' !! n = Some d'
                  /\ request_key d' = request_key d
                  /\ target_name d' = target_name d
                  /\ (n <> r -> state d = RECIPE_COMPLETE -> state d' = RECIPE_COMPLETE).

(** No recipe was executed twice, and while nothing has failed every
    executed recipe is Complete. *)
Definition runs_once (s : Scheduler) : Prop :=
  NoDup (executed s)
  /\ (failed s = false -> forall n, n ∈ executed s -> is_complete s n = true).
(** A build file with two targets: "app" asks for "lib" and completes, "lib"
    completes. *)
Definition demo_script : Script :=
  fun fn =>
    if String.eqb fn "build_app"
    then Some (FiberDependOn "lib" (fun _ => FiberReturn UMKA_FIBER_COMPLETE))
    else if String.eqb fn "build_lib" then Some (FiberReturn UMKA_FIBER_COMPLETE)
    else None.

Definition demo_registry : TargetRegistry :=
  <["app" := mkTarget "app" "build_app"]>
    (<["lib" := mkTarget "lib" "build_lib"]> ∅).

(** The scheduler as main.c sets it up before it builds. *)
Definition fresh_scheduler (st : Storage) (script : Script) (reg : TargetRegistry)
  : Scheduler :=
  scheduler_load (scheduler_create st) script reg.

(** The scheduler after "app" was built from the demo build file on an
    empty store. *)
Definition demo_built : Scheduler :=
  match @scheduler_build test_platform empty_fs 10
          (fresh_scheduler empty_storage demo_script demo_registry) "app" with
  | Some (_, s) => s
  | None => scheduler_create empty_storage
  end.
(** The recipe of the target exists, and the build has failed, or the
    recipe is Complete, or it is still on the ready queue. *)
Definition target_in_progress (target : string) (s : Scheduler) : Prop :=
  is_Some (recipes s !! target)
  /\ (failed s = true \/ is_complete s target = true \/ target ∈ ready_queue s).

(* ================================================================== *)
(** * Part II: properties                                               *)
(* ================================================================== *)

(** ** Bytes and integers *)

Lemma Z_of_byte_range (b : byte) : 0 <= Z_of_byte b < 256.
Proof.
  unfold Z_of_byte. pose proof (Byte.to_N_bounded b). lia.
Qed.

Lemma byte_of_Z_of_byte (b : byte) : byte_of_Z (Z_of_byte b) = b.
Proof.
  unfold byte_of_Z. pose proof (Z_of_byte_range b) as Hr.
  rewrite Z.mod_small by lia. unfold Z_of_byte.
  rewrite N2Z.id, Byte.of_to_N. reflexivity.
Qed.

Lemma Z_of_byte_of_Z (z : Z) : Z_of_byte (byte_of_Z z) = z mod 256.
Proof.
  unfold byte_of_Z, Z_of_byte.
  pose proof (Z.mod_pos_bound z 256 ltac:(lia)) as Hr.
  destruct (Byte.of_N (Z.to_N (z mod 256))) as [b|] eqn:E.
  - apply Byte.to_of_N in E. rewrite E. lia.
  - apply Byte.of_N_None_iff in E. lia.
Qed.

Lemma length_le_encode (n : nat) (v : Z) : length (le_encode n v) = n.
Proof. revert v. induction n as [|n IH]; intros v; simpl; [reflexivity | now rewrite IH]. Qed.

Lemma le_decode_encode (n : nat) (v : Z) :
  le_decode (le_encode n v) = v mod 256 ^ Z.of_nat n.
Proof.
  revert v. induction n as [|n IH]; intros v.
  - simpl. now rewrite Z.mod_1_r.
  - cbn [le_encode le_decode]. rewrite IH, Z_of_byte_of_Z.
    rewrite Nat2Z.inj_succ, Z.pow_succ_r by lia.
    rewrite Z.rem_mul_r by lia. reflexivity.
Qed.

Lemma le_decode_encode_small (n : nat) (v : Z) :
  0 <= v < 256 ^ Z.of_nat n -> le_decode (le_encode n v) = v.
Proof. intros Hv. rewrite le_decode_encode. now apply Z.mod_small. Qed.

Lemma le_decode_range (bs : list byte) :
  0 <= le_decode bs < 256 ^ Z.of_nat (length bs).
Proof.
  induction bs as [|b bs IH].
  - simpl. lia.
  - cbn [le_decode length]. rewrite Nat2Z.inj_succ, Z.pow_succ_r by lia.
    pose proof (Z_of_byte_range b). lia.
Qed.

Lemma le_encode_decode (bs : list byte) :
  le_encode (length bs) (le_decode bs) = bs.
Proof.
  induction bs as [|b bs IH]; [reflexivity|].
  cbn [le_decode length le_encode].
  pose proof (Z_of_byte_range b) as Hb.
  replace (Z_of_byte b + 256 * le_decode bs)
    with (Z_of_byte b + le_decode bs * 256) by lia.
  f_equal.
  - unfold byte_of_Z. rewrite Z.mod_add, Z.mod_small by lia.
    unfold Z_of_byte. now rewrite N2Z.id, Byte.of_to_N.
  - rewrite Z.div_add, Z.div_small by lia. exact IH.
Qed.

Lemma le_encode_decode_n (n : nat) (bs : list byte) :
  length bs = n -> le_encode n (le_decode bs) = bs.
Proof. intros <-. apply le_encode_decode. Qed.

Lemma byte_xor_comm (a b : byte) : byte_xor a b = byte_xor b a.
Proof.
  unfold byte_xor.
  destruct (Byte.to_bits a) as (a0 & a1 & a2 & a3 & a4 & a5 & a6 & a7).
  destruct (Byte.to_bits b) as (b0 & b1 & b2 & b3 & b4 & b5 & b6 & b7).
  now rewrite (xorb_comm a0), (xorb_comm a1), (xorb_comm a2), (xorb_comm a3),
    (xorb_comm a4), (xorb_comm a5), (xorb_comm a6), (xorb_comm a7).
Qed.

Lemma byte_xor_assoc (a b c : byte) :
  byte_xor (byte_xor a b) c = byte_xor a (byte_xor b c).
Proof.
  unfold byte_xor.
  destruct (Byte.to_bits a) as (a0 & a1 & a2 & a3 & a4 & a5 & a6 & a7).
  destruct (Byte.to_bits b) as (b0 & b1 & b2 & b3 & b4 & b5 & b6 & b7).
  destruct (Byte.to_bits c) as (c0 & c1 & c2 & c3 & c4 & c5 & c6 & c7).
  rewrite !Byte.to_bits_of_bits.
  now rewrite !xorb_assoc.
Qed.

Lemma bytes_eqb_eq (a b : list byte) : bytes_eqb a b = true <-> a = b.
Proof.
  revert b. induction a as [|x a IH]; intros [|y b]; simpl; try easy.
  rewrite andb_true_iff, IH. split.
  - intros [Hxy ->]. apply Byte.byte_dec_bl in Hxy. now subst.
  - intros [= -> ->]. split; [now apply Byte.byte_dec_lb | reflexivity].
Qed.

Lemma length_xor_bytes (a b : list byte) :
  length (xor_bytes a b) = Nat.min (length a) (length b).
Proof.
  revert b. induction a as [|x a IH]; intros [|y b]; simpl; try reflexivity.
  now rewrite IH.
Qed.

Lemma xor_bytes_comm (a b : list byte) : xor_bytes a b = xor_bytes b a.
Proof.
  revert b. induction a as [|x a IH]; intros [|y b]; simpl; try reflexivity.
  now rewrite byte_xor_comm, IH.
Qed.

Lemma xor_bytes_assoc (a b c : list byte) :
  xor_bytes (xor_bytes a b) c = xor_bytes a (xor_bytes b c).
Proof.
  revert b c. induction a as [|x a IH]; intros [|y b] [|z c]; simpl; try reflexivity.
  now rewrite byte_xor_assoc, IH.
Qed.

(** ** Hashes *)

Lemma hash_ext (a b : Hash) : hash_bytes a = hash_bytes b -> a = b.
Proof.
  destruct a as [xa Ha], b as [xb Hb]. simpl. intros ->.
  f_equal. apply UIP_dec. apply Bool.bool_dec.
Qed.

Lemma length_hash_bytes (h : Hash) : length (hash_bytes h) = 32%nat.
Proof. destruct h as [bs Hbs]. simpl. now apply Nat.eqb_eq. Qed.

Lemma hash_bytes_of_bytes (bs : list byte) :
  length bs = 32%nat -> hash_bytes (hash_of_bytes bs) = bs.
Proof.
  intros Hlen. unfold hash_of_bytes.
  generalize (eq_refl (Nat.eqb (length bs) 32)).
  generalize (Nat.eqb (length bs) 32) at 2 3.
  intros [|] E; [reflexivity|].
  apply Nat.eqb_neq in E. contradiction.
Qed.

Lemma hash_of_bytes_hash_bytes (h : Hash) : hash_of_bytes (hash_bytes h) = h.
Proof. apply hash_ext, hash_bytes_of_bytes, length_hash_bytes. Qed.

Lemma hash_equal_eq (a b : Hash) : hash_equal a b = true <-> a = b.
Proof.
  unfold hash_equal. rewrite bytes_eqb_eq. split; [apply hash_ext | now intros ->].
Qed.

Lemma hash_equal_refl (a : Hash) : hash_equal a a = true.
Proof. now apply hash_equal_eq. Qed.

Lemma hash_bytes_combine (a b : Hash) :
  hash_bytes (hash_combine a b) = xor_bytes (hash_bytes a) (hash_bytes b).
Proof.
  unfold hash_combine. apply hash_bytes_of_bytes.
  now rewrite length_xor_bytes, !length_hash_bytes.
Qed.

Lemma hash_combine_comm (a b : Hash) : hash_combine a b = hash_combine b a.
Proof. apply hash_ext. rewrite !hash_bytes_combine. apply xor_bytes_comm. Qed.

Lemma hash_combine_assoc (a b c : Hash) :
  hash_combine (hash_combine a b) c = hash_combine a (hash_combine b c).
Proof. apply hash_ext. rewrite !hash_bytes_combine. apply xor_bytes_assoc. Qed.

(** Mixing two hashes into a key gives the same key in either order. *)
Lemma hash_combine_swap (k a b : Hash) :
  hash_combine (hash_combine k a) b = hash_combine (hash_combine k b) a.
Proof.
  rewrite !hash_combine_assoc. f_equal. apply hash_combine_comm.
Qed.

(** ** Trace validation *)

Section ValidateFacts.
Context `{Platform}.
Variable fs : FileSystem.

Lemma validate_dep_hashed (d : string * Hash) :
  snd (validate_dep fs d) = if hashable fs (fst d) then [fst d] else [].
Proof.
  unfold validate_dep, hashable.
  destruct (stat fs (fst d)) as [[| |]|]; simpl; try reflexivity.
  - now destruct (hash_file fs (fst d)).
  - now destruct (hash_tree fs (fst d)).
Qed.

Lemma validate_dep_ok (d : string * Hash) :
  fst (validate_dep fs d) = true <-> dep_matches fs d.
Proof.
  unfold validate_dep, dep_matches, current_hash.
  destruct (stat fs (fst d)) as [[| |]|]; simpl; try easy.
  - destruct (hash_file fs (fst d)) as [h|]; simpl; [|easy].
    rewrite hash_equal_eq. split; [now intros -> | now intros [= ->]].
  - destruct (hash_tree fs (fst d)) as [h|]; simpl; [|easy].
    rewrite hash_equal_eq. split; [now intros -> | now intros [= ->]].
Qed.

Lemma dep_matches_hashable (d : string * Hash) :
  dep_matches fs d -> hashable fs (fst d) = true.
Proof.
  unfold dep_matches, current_hash, hashable.
  now destruct (stat fs (fst d)) as [[| |]|].
Qed.

Lemma validate_loop_all (ds : list (string * Hash)) :
  Forall (dep_matches fs) ds -> validate_loop fs ds = (true, map fst ds).
Proof.
  induction 1 as [|d ds Hd _ IH]; [reflexivity|].
  cbn [validate_loop map].
  pose proof (validate_dep_hashed d) as Hh.
  rewrite (dep_matches_hashable d Hd) in Hh.
  apply validate_dep_ok in Hd.
  destruct (validate_dep fs d) as [ok hashed]. simpl in *. subst.
  now rewrite IH.
Qed.

Lemma validate_loop_cutoff (pre post : list (string * Hash)) (d : string * Hash) :
  Forall (dep_matches fs) pre -> ~ dep_matches fs d ->
  validate_loop fs (pre ++ d :: post)
  = (false, map fst pre ++ (if hashable fs (fst d) then [fst d] else [])).
Proof.
  intros Hpre Hd. induction Hpre as [|p pre Hp _ IH].
  - cbn [validate_loop app map].
    pose proof (validate_dep_hashed d) as Hh.
    rewrite <- validate_dep_ok in Hd.
    destruct (validate_dep fs d) as [[|] hashed]; simpl in *; [easy|].
    now subst.
  - cbn [validate_loop app map].
    pose proof (validate_dep_hashed p) as Hh.
    rewrite (dep_matches_hashable p Hp) in Hh.
    apply validate_dep_ok in Hp.
    destruct (validate_dep fs p) as [ok hashed]. simpl in *. subst.
    now rewrite IH.
Qed.

Lemma validate_loop_true (ds : list (string * Hash)) :
  fst (validate_loop fs ds) = true -> Forall (dep_matches fs) ds.
Proof.
  induction ds as [|d ds IH]; intros Hv; [constructor|].
  cbn [validate_loop] in Hv.
  pose proof (validate_dep_ok d) as Hok.
  destruct (validate_dep fs d) as [[|] hashed]; simpl in *; [|easy].
  destruct (validate_loop fs ds) as [result later]. simpl in *.
  constructor; [now apply Hok | now apply IH].
Qed.
End ValidateFacts.

(** C3. [trace_validate] walks the dependencies in recorded order and is
    true exactly when every recorded dependency matches its current hash
    ([hash_file] for a regular file, [hash_tree] for a directory, no hash
    for a missing path). At the first dependency that does not match it
    returns false, and the paths it has hashed by then are those of the
    dependencies before it, followed by the failing one when it is a file or
    a directory: nothing later is hashed. When the first dependency exists
    and hashes to another value, the one path hashed is its own. *)
Theorem trace_validate_early_cutoff `{Platform} (fs : FileSystem) (t : Trace) :
  (trace_validate fs t = true <-> Forall (dep_matches fs) (deps t))
  /\ (forall pre d post,
        deps t = pre ++ d :: post ->
        Forall (dep_matches fs) pre -> ~ dep_matches fs d ->
        trace_validate_hashed fs t
        = (false, map fst pre ++ (if hashable fs (fst d) then [fst d] else [])))
  /\ (forall d post actual,
        deps t = d :: post ->
        current_hash fs (fst d) = Some actual -> actual <> snd d ->
        trace_validate_hashed fs t = (false, [fst d])).
Proof.
  unfold trace_validate, trace_validate_hashed. split; [|split].
  - split.
    + apply validate_loop_true.
    + intros Hall. now rewrite validate_loop_all.
  - intros pre d post -> Hpre Hd. now apply validate_loop_cutoff.
  - intros d post actual -> Hcur Hne.
    assert (Hd : ~ dep_matches fs d).
    { unfold dep_matches. rewrite Hcur. now intros [= ->]. }
    pose proof (validate_loop_cutoff fs [] post d (List.Forall_nil _) Hd) as Hcut.
    cbn [app map] in Hcut. rewrite Hcut.
    replace (hashable fs (fst d)) with true; [reflexivity|].
    unfold current_hash in Hcur. unfold hashable.
    now destruct (stat fs (fst d)) as [[| |]|].
Qed.

(** ** Trace files *)

Lemma c_str_id (bs : list byte) : Forall (fun b => b <> x00) bs -> c_str bs = bs.
Proof.
  induction 1 as [|b bs Hb _ IH]; [reflexivity|]. simpl.
  destruct (Byte.eqb b x00) eqn:E.
  - apply Byte.byte_dec_bl in E. contradiction.
  - now rewrite IH.
Qed.

Lemma str_bytes_c_string (s : string) :
  is_c_string s -> str_bytes s = list_byte_of_string s.
Proof. apply c_str_id. Qed.

Lemma rebuild_strdup_str_bytes (s : string) :
  is_c_string s -> rebuild_strdup (str_bytes s) = s.
Proof.
  intros Hs. unfold rebuild_strdup. rewrite (str_bytes_c_string s Hs).
  rewrite (c_str_id _ Hs). apply string_of_list_byte_of_string.
Qed.

Lemma read_all_app (a rest : list byte) (n : nat) :
  length a = n -> read_all n (a ++ rest) = Some (a, rest).
Proof.
  intros <-. unfold read_all.
  rewrite length_app.
  destruct (Nat.leb_spec (length a) (length a + length rest)) as [_|Hlt]; [|lia].
  now rewrite take_app_length, drop_app_length.
Qed.

Lemma read_all_inv (n : nat) (f a rest : list byte) :
  read_all n f = Some (a, rest) -> f = a ++ rest /\ length a = n.
Proof.
  unfold read_all.
  destruct (Nat.leb_spec n (length f)) as [Hle|Hlt]; [|easy].
  intros [= <- <-]. split; [now rewrite take_drop | rewrite length_take; lia].
Qed.

Lemma encode_dep_ok (d : string * Hash) :
  is_c_string (fst d) -> strlen (fst d) <= MAX_PATH_LEN ->
  encode_dep d
  = le_encode 4 (strlen (fst d)) ++ str_bytes (fst d) ++ hash_bytes (snd d).
Proof.
  intros Hc Hlen. unfold encode_dep, to_uint32, MAX_PATH_LEN, strlen in *.
  rewrite Z.mod_small by lia.
  now rewrite Nat2Z.id, firstn_all.
Qed.

Lemma read_deps_encoded (ds : list (string * Hash)) (t : Trace) (rest : list byte) :
  Forall (fun d => is_c_string (fst d)) ds ->
  Forall (fun d => strlen (fst d) <= MAX_PATH_LEN) ds ->
  read_deps (length ds) t (flat_map encode_dep ds ++ rest)
  = Some (mkTrace (trace_request_key t) (deps t ++ ds) (output_tree_hash t)
                  (cpu_time_ms t) (wall_time_ms t), rest).
Proof.
  intros Hc. revert t. induction Hc as [|d ds Hd _ IH]; intros t Hlen.
  - simpl. rewrite app_nil_r. now destruct t.
  - apply Forall_cons in Hlen as [Hdlen Hlen].
    cbn [length read_deps flat_map].
    rewrite (encode_dep_ok d Hd Hdlen), <- !app_assoc.
    rewrite (read_all_app _ _ 4) by apply length_le_encode. cbn [mbind option_bind].
    assert (Hs : 0 <= strlen (fst d)) by (unfold strlen; lia).
    unfold MAX_PATH_LEN in *.
    rewrite le_decode_encode_small by (simpl; lia).
    destruct (Z.ltb_spec 4096 (strlen (fst d))) as [Hgt|_]; [lia|].
    rewrite (read_all_app (str_bytes (fst d))) by (unfold strlen; now rewrite Nat2Z.id).
    cbn [mbind option_bind].
    rewrite (read_all_app _ _ 32) by apply length_hash_bytes.
    cbn [mbind option_bind].
    rewrite IH by assumption. unfold trace_add_dependency. cbn.
    rewrite hash_of_bytes_hash_bytes, (rebuild_strdup_str_bytes _ Hd), <- app_assoc.
    now destruct d.
Qed.

Lemma parse_trace_file (t : Trace) :
  trace_representable t -> paths_within_limit t ->
  parse_trace (trace_request_key t) (trace_file t) = Some t.
Proof.
  intros (Hc & Hn & Hcpu & Hwall) Hlen.
  unfold parse_trace, trace_file, is_uint64, UINT64_MAX, dep_count in *.
  rewrite (read_all_app TRACE_MAGIC) by reflexivity. cbn [mbind option_bind].
  replace (bytes_eqb TRACE_MAGIC TRACE_MAGIC) with true by reflexivity. cbn [negb].
  rewrite (read_all_app (le_encode 4 TRACE_VERSION)) by reflexivity.
  cbn [mbind option_bind].
  replace (le_decode (le_encode 4 TRACE_VERSION) =? TRACE_VERSION) with true
    by reflexivity.
  cbn [negb].
  rewrite (read_all_app _ _ 32) by apply length_hash_bytes. cbn [mbind option_bind].
  rewrite hash_of_bytes_hash_bytes, hash_equal_refl. cbn [negb].
  rewrite (read_all_app _ _ 8) by apply length_le_encode. cbn [mbind option_bind].
  rewrite le_decode_encode_small by (simpl; lia).
  rewrite Nat2Z.id.
  rewrite (read_deps_encoded (deps t) (trace_create (trace_request_key t))) by assumption.
  cbn [mbind option_bind].
  rewrite (read_all_app _ _ 32) by apply length_hash_bytes. cbn [mbind option_bind].
  rewrite (read_all_app _ _ 8) by apply length_le_encode. cbn [mbind option_bind].
  rewrite <- (app_nil_r (le_encode 8 (wall_time_ms t))).
  rewrite (read_all_app _ _ 8) by apply length_le_encode. cbn [mbind option_bind].
  rewrite hash_of_bytes_hash_bytes, !le_decode_encode_small by (simpl; lia).
  now destruct t.
Qed.

Lemma trace_load_written (key : Hash) (storage : Storage) (f : list byte) :
  trace_load key (storage_write storage (storage_get_trace_path storage key) f)
  = parse_trace key f.
Proof.
  unfold trace_load, storage_trace_exists, storage_write, storage_get_trace_path.
  cbn [disk traces_dir]. rewrite lookup_insert_eq.
  rewrite bool_decide_eq_true_2 by eauto. reflexivity.
Qed.

Lemma trace_save_load_round_trip_lemma (t : Trace) (storage : Storage) :
  trace_representable t -> paths_within_limit t ->
  trace_load (trace_request_key t) (snd (trace_save t storage)) = Some t.
Proof.
  intros Hrep Hlim. unfold trace_save. cbn [snd].
  rewrite trace_load_written. now apply parse_trace_file.
Qed.

(** C4, amended. A trace whose dependency paths are at most 4096 bytes long
    round-trips: [trace_save] succeeds, and [trace_load] with the trace's
    request key then returns a trace equal to it, so with the same request
    key, dependency count, paths and hashes in the same order, output tree
    hash, and cpu and wall timings. *)
Theorem trace_save_load_round_trip (t : Trace) (storage : Storage) :
  trace_representable t -> paths_within_limit t ->
  fst (trace_save t storage) = true
  /\ trace_load (trace_request_key t) (snd (trace_save t storage)) = Some t.
Proof.
  intros Hrep Hlim. split; [reflexivity|].
  now apply trace_save_load_round_trip_lemma.
Qed.

Lemma is_c_string_check (s : string) :
  forallb (fun b => negb (Byte.eqb b x00)) (list_byte_of_string s) = true ->
  is_c_string s.
Proof.
  unfold is_c_string. rewrite forallb_forall, List.Forall_forall.
  intros Hall b Hb Heq. specialize (Hall b Hb). subst b. discriminate.
Qed.

(** Proves [Forall P l] for an explicit list [l], each element with [tac]. *)
Ltac forall_elements tac :=
  repeat first [ apply List.Forall_nil | apply List.Forall_cons; [ tac | ] ].

Lemma trace_save_load_round_trip_witness :
  fst (trace_save sample_trace empty_storage) = true
  /\ trace_load (trace_request_key sample_trace)
                (snd (trace_save sample_trace empty_storage)) = Some sample_trace.
Proof.
  apply trace_save_load_round_trip.
  - split; [|split; [|split]].
    + forall_elements ltac:(apply is_c_string_check; reflexivity).
    + vm_compute. discriminate.
    + split; vm_compute; discriminate.
    + split; vm_compute; discriminate.
  - forall_elements ltac:(vm_compute; discriminate).
Defined.

(** C4 as stated fails: a trace with a dependency path of 4097 bytes is
    saved, and loading it back returns no trace. *)
Lemma trace_round_trip_fails_on_long_path :
  trace_representable long_path_trace
  /\ fst (trace_save long_path_trace empty_storage) = true
  /\ trace_load (trace_request_key long_path_trace)
                (snd (trace_save long_path_trace empty_storage)) = None.
Proof.
  split; [|split].
  - split; [|split; [|split]].
    + forall_elements ltac:(apply is_c_string_check; vm_compute; reflexivity).
    + vm_compute. discriminate.
    + split; vm_compute; discriminate.
    + split; vm_compute; discriminate.
  - reflexivity.
  - unfold trace_save. cbn [snd]. rewrite trace_load_written.
    vm_compute. reflexivity.
Qed.

(** Case analysis on the next [read_all] of a parse that succeeded. *)
Ltac read_next H :=
  match type of H with
  | context [read_all ?n ?f] =>
      let E := fresh "E" in
      destruct (read_all n f) as [[? ?]|] eqn:E;
      cbn [mbind option_bind] in H;
      [ apply read_all_inv in E as [-> E] | discriminate H ]
  end.

Lemma read_deps_inv (n : nat) (t t' : Trace) (f rest : list byte) :
  read_deps n t f = Some (t', rest) ->
  exists entries,
    length entries = n
    /\ f = flat_map encode_entry entries ++ rest
    /\ Forall (fun e => Z.of_nat (length (fst e)) <= MAX_PATH_LEN) entries
    /\ t' = mkTrace (trace_request_key t) (deps t ++ map load_entry entries)
                    (output_tree_hash t) (cpu_time_ms t) (wall_time_ms t).
Proof.
  revert t f. induction n as [|n IH]; intros t f Hread.
  - simpl in Hread. injection Hread as <- <-. exists []. simpl.
    rewrite app_nil_r. repeat split; [constructor | now destruct t].
  - cbn [read_deps] in Hread.
    read_next Hread. rename l into len_bytes.
    destruct (Z.ltb_spec MAX_PATH_LEN (le_decode len_bytes)) as [|Hlen];
      [discriminate Hread|].
    read_next Hread. rename l into path.
    read_next Hread. rename l into hash.
    apply IH in Hread as (entries & Hn & -> & Hall & ->).
    pose proof (le_decode_range len_bytes) as Hrange.
    exists ((path, hash_of_bytes hash) :: entries). cbn [length map flat_map].
    repeat split.
    + now rewrite Hn.
    + unfold encode_entry. cbn [fst snd].
      rewrite hash_bytes_of_bytes by assumption.
      rewrite E0, Z2Nat.id, <- E, le_encode_decode, <- !app_assoc by lia.
      reflexivity.
    + constructor; [|assumption]. cbn [fst]. rewrite E0. lia.
    + unfold trace_add_dependency, load_entry. cbn. now rewrite <- app_assoc.
Qed.

Lemma read_deps_too_long (entries : list (list byte * Hash)) (n : nat) (t : Trace)
    (path_len : Z) (rest : list byte) :
  Forall (fun e => Z.of_nat (length (fst e)) <= UINT32_MAX) entries ->
  (length entries < n)%nat ->
  MAX_PATH_LEN < path_len <= UINT32_MAX ->
  read_deps n t (flat_map encode_entry entries ++ le_encode 4 path_len ++ rest) = None.
Proof.
  unfold UINT32_MAX, MAX_PATH_LEN. intros Hall. revert n t.
  induction Hall as [|e entries He _ IH]; intros [|n] t Hn Hlen;
    cbn [length] in Hn; try lia.
  - cbn [flat_map app read_deps].
    rewrite (read_all_app _ _ 4) by apply length_le_encode. cbn [mbind option_bind].
    rewrite le_decode_encode_small by (simpl; lia).
    destruct (Z.ltb_spec MAX_PATH_LEN path_len) as [|Hle]; [reflexivity|].
    unfold MAX_PATH_LEN in Hle. lia.
  - cbn [flat_map read_deps]. unfold encode_entry at 1. rewrite <- !app_assoc.
    rewrite (read_all_app _ _ 4) by apply length_le_encode. cbn [mbind option_bind].
    rewrite le_decode_encode_small by (simpl; lia).
    destruct (Z.ltb_spec MAX_PATH_LEN (Z.of_nat (length (fst e)))) as [|_];
      [reflexivity|].
    rewrite (read_all_app (fst e)) by lia. cbn [mbind option_bind].
    rewrite (read_all_app _ _ 32) by apply length_hash_bytes. cbn [mbind option_bind].
    apply IH; [lia | assumption].
Qed.

(** C5. [trace_load] returns no trace when the file of the request key
    starts with other bytes than "RBTR", when its version field is not 1,
    when the request key it stores is not the lookup key, and when one of its
    [dep_count] dependencies carries a path length above 4096. A trace is
    returned only for a file that starts with "RBTR", version 1 and the
    lookup key, followed by its dependencies, each with a path of at most
    4096 bytes, and the output hash and the two timings. *)
Theorem trace_load_rejects (request_key : Hash) (storage : Storage) (f : list byte) :
  disk storage !! storage_get_trace_path storage request_key = Some f ->
  (take 4 f <> TRACE_MAGIC -> trace_load request_key storage = None)
  /\ (le_decode (take 4 (drop 4 f)) <> TRACE_VERSION ->
      trace_load request_key storage = None)
  /\ (take 32 (drop 8 f) <> hash_bytes request_key ->
      trace_load request_key storage = None)
  /\ (forall entries count path_len rest,
        f = TRACE_MAGIC ++ le_encode 4 TRACE_VERSION ++ hash_bytes request_key
              ++ le_encode 8 count ++ flat_map encode_entry entries
              ++ le_encode 4 path_len ++ rest ->
        Forall (fun e => Z.of_nat (length (fst e)) <= UINT32_MAX) entries ->
        Z.of_nat (length entries) < count <= UINT64_MAX ->
        MAX_PATH_LEN < path_len <= UINT32_MAX ->
        trace_load request_key storage = None)
  /\ (forall t,
        trace_load request_key storage = Some t ->
        exists entries rest,
          f = TRACE_MAGIC ++ le_encode 4 TRACE_VERSION ++ hash_bytes request_key
                ++ le_encode 8 (Z.of_nat (length entries))
                ++ flat_map encode_entry entries
                ++ hash_bytes (output_tree_hash t)
                ++ le_encode 8 (cpu_time_ms t) ++ le_encode 8 (wall_time_ms t)
                ++ rest
          /\ Forall (fun e => Z.of_nat (length (fst e)) <= MAX_PATH_LEN) entries
          /\ trace_request_key t = request_key
          /\ deps t = map load_entry entries).
Proof.
  intros Hfile.
  assert (Hload : trace_load request_key storage = parse_trace request_key f).
  { unfold trace_load, storage_trace_exists. rewrite Hfile.
    rewrite bool_decide_eq_true_2 by eauto. reflexivity. }
  rewrite Hload. clear Hload Hfile. unfold parse_trace.
  split; [|split; [|split; [|split]]].
  - intros Hmagic.
    destruct (read_all 4 f) as [[magic f1]|] eqn:E; [|reflexivity].
    cbn [mbind option_bind].
    destruct (bytes_eqb magic TRACE_MAGIC) eqn:Heq; [|reflexivity].
    apply bytes_eqb_eq in Heq. apply read_all_inv in E as [-> E]. subst magic.
    now rewrite (take_app_length' TRACE_MAGIC _ 4 (eq_sym E)) in Hmagic.
  - intros Hversion.
    destruct (read_all 4 f) as [[magic f1]|] eqn:E; [|reflexivity].
    cbn [mbind option_bind].
    destruct (negb (bytes_eqb magic TRACE_MAGIC)); [reflexivity|].
    destruct (read_all 4 f1) as [[version f2]|] eqn:E1; [|reflexivity].
    cbn [mbind option_bind].
    destruct (Z.eqb_spec (le_decode version) TRACE_VERSION) as [Heq|]; [|reflexivity].
    apply read_all_inv in E as [-> E]. apply read_all_inv in E1 as [-> E1].
    rewrite (drop_app_length' magic _ 4 (eq_sym E)),
      (take_app_length' version _ 4 (eq_sym E1)) in Hversion.
    contradiction.
  - intros Hkey.
    destruct (read_all 4 f) as [[magic f1]|] eqn:E; [|reflexivity].
    cbn [mbind option_bind].
    destruct (negb (bytes_eqb magic TRACE_MAGIC)); [reflexivity|].
    destruct (read_all 4 f1) as [[version f2]|] eqn:E1; [|reflexivity].
    cbn [mbind option_bind].
    destruct (negb (le_decode version =? TRACE_VERSION)); [reflexivity|].
    destruct (read_all 32 f2) as [[stored_key f3]|] eqn:E2; [|reflexivity].
    cbn [mbind option_bind].
    destruct (hash_equal (hash_of_bytes stored_key) request_key) eqn:Heq; [|reflexivity].
    apply hash_equal_eq in Heq.
    apply read_all_inv in E as [-> E]. apply read_all_inv in E1 as [-> E1].
    apply read_all_inv in E2 as [-> E2].
    rewrite app_assoc, (drop_app_length' (magic ++ version) _ 8) in Hkey
      by (rewrite length_app; lia).
    rewrite (take_app_length' stored_key _ 32 (eq_sym E2)) in Hkey.
    rewrite <- Heq, hash_bytes_of_bytes in Hkey by assumption. contradiction.
  - intros entries count path_len rest -> Hentries Hcount Hlen.
    rewrite (read_all_app TRACE_MAGIC) by reflexivity. cbn [mbind option_bind].
    replace (bytes_eqb TRACE_MAGIC TRACE_MAGIC) with true by reflexivity. cbn [negb].
    rewrite (read_all_app (le_encode 4 TRACE_VERSION)) by reflexivity.
    cbn [mbind option_bind].
    replace (le_decode (le_encode 4 TRACE_VERSION) =? TRACE_VERSION) with true
      by reflexivity.
    cbn [negb].
    rewrite (read_all_app _ _ 32) by apply length_hash_bytes. cbn [mbind option_bind].
    rewrite hash_of_bytes_hash_bytes, hash_equal_refl. cbn [negb].
    rewrite (read_all_app _ _ 8) by apply length_le_encode. cbn [mbind option_bind].
    unfold UINT64_MAX in Hcount.
    rewrite le_decode_encode_small by (simpl; lia).
    rewrite read_deps_too_long; [reflexivity | assumption | lia | assumption].
  - intros t Hparse.
    read_next Hparse. rename l into magic.
    destruct (bytes_eqb magic TRACE_MAGIC) eqn:Hmagic; [|discriminate Hparse].
    apply bytes_eqb_eq in Hmagic. subst magic. cbn [negb] in Hparse.
    read_next Hparse. rename l into version.
    destruct (Z.eqb_spec (le_decode version) TRACE_VERSION) as [Hversion|];
      [|discriminate Hparse].
    cbn [negb] in Hparse.
    read_next Hparse. rename l into stored_key.
    destruct (hash_equal (hash_of_bytes stored_key) request_key) eqn:Hkey;
      [|discriminate Hparse].
    apply hash_equal_eq in Hkey. cbn [negb] in Hparse.
    read_next Hparse. rename l into count.
    destruct (read_deps _ _ _) as [[t1 f5]|] eqn:Hdeps;
      cbn [mbind option_bind] in Hparse; [|discriminate Hparse].
    read_next Hparse. rename l into out.
    read_next Hparse. rename l into cpu.
    read_next Hparse. rename l into wall.
    injection Hparse as <-.
    apply read_deps_inv in Hdeps as (entries & Hn & -> & Hall & ->).
    exists entries, l0.
    cbn [output_tree_hash cpu_time_ms wall_time_ms trace_request_key deps
         trace_create app].
    pose proof (le_decode_range count) as Hrange.
    rewrite Hn, Z2Nat.id by lia.
    rewrite !le_encode_decode_n by assumption.
    rewrite hash_bytes_of_bytes by assumption.
    rewrite <- Hkey, hash_bytes_of_bytes by assumption.
    rewrite <- Hversion, le_encode_decode_n by assumption.
    rewrite <- ?app_assoc. repeat split; assumption.
Qed.

Lemma trace_load_rejects_witness : trace_load hash_zero bad_magic_storage = None.
Proof.
  apply (proj1 (trace_load_rejects hash_zero bad_magic_storage
           ([x52; x42; x54; x58] ++ drop 4 (trace_file (trace_create hash_zero)))
           ltac:(apply lookup_insert_eq))).
  vm_compute. discriminate.
Defined.

(** ** The hash set *)

Lemma probe_case (cap h k : nat) :
  (h < cap)%nat -> (k < cap)%nat ->
  probe cap h k = if (h + k <? cap)%nat then (h + k)%nat else (h + k - cap)%nat.
Proof.
  intros Hh Hk. unfold probe.
  destruct (Nat.ltb_spec (h + k) cap) as [Hlt|Hge].
  - now apply Nat.mod_small.
  - assert (E : ((h + k) mod cap = (h + k - cap) mod cap)%nat).
    { rewrite <- (Nat.Div0.mod_add (h + k - cap) 1 cap). f_equal. lia. }
    rewrite E. apply Nat.mod_small. lia.
Qed.

Lemma probe_lt (cap h k : nat) : (0 < cap)%nat -> (probe cap h k < cap)%nat.
Proof. intros Hcap. unfold probe. apply Nat.mod_upper_bound. lia. Qed.

Lemma probe_inj (cap h k1 k2 : nat) :
  (h < cap)%nat -> (k1 < cap)%nat -> (k2 < cap)%nat ->
  probe cap h k1 = probe cap h k2 -> k1 = k2.
Proof.
  intros Hh H1 H2. rewrite !probe_case by assumption.
  destruct (Nat.ltb_spec (h + k1) cap), (Nat.ltb_spec (h + k2) cap); lia.
Qed.

Lemma probe_surj (cap h j : nat) :
  (h < cap)%nat -> (j < cap)%nat -> exists k, (k < cap)%nat /\ probe cap h k = j.
Proof.
  intros Hh Hj. destruct (Nat.le_gt_cases h j) as [Hle|Hgt].
  - exists (j - h)%nat. split; [lia|]. rewrite probe_case by lia.
    destruct (Nat.ltb_spec (h + (j - h)) cap); lia.
  - exists (cap + j - h)%nat. split; [lia|]. rewrite probe_case by lia.
    destruct (Nat.ltb_spec (h + (cap + j - h)) cap); lia.
Qed.

Lemma home_slot_lt (cap : nat) (v : string) : (0 < cap)%nat -> (home_slot cap v < cap)%nat.
Proof.
  intros Hcap. unfold home_slot.
  pose proof (Z.mod_pos_bound (hash_string v) (Z.of_nat cap) ltac:(lia)). lia.
Qed.

Lemma holds_value_entry (es : list SetEntry) (j : nat) (v w : string) :
  es !! j = Some (value_entry w) -> holds es j v <-> w = v.
Proof. intros Hj. unfold holds. rewrite Hj. cbn. split; congruence. Qed.

Lemma holds_unused (es : list SetEntry) (j : nat) (v : string) :
  unused es j -> ~ holds es j v.
Proof. unfold unused, holds. intros ->. discriminate. Qed.

Lemma holds_lt (es : list SetEntry) (j : nat) (v : string) :
  holds es j v -> (j < length es)%nat.
Proof.
  unfold holds. intros Hj. apply lookup_lt_is_Some.
  destruct (es !! j); [eauto | discriminate].
Qed.

Lemma elem_of_iterate (es : list SetEntry) (v : string) :
  v ∈ iterate_entries es <-> exists j, holds es j v.
Proof.
  unfold iterate_entries, holds. rewrite list_elem_of_omap. split.
  - intros (e & He & Hv). apply list_elem_of_lookup in He as [j Hj].
    exists j. now rewrite Hj.
  - intros (j & Hj). destruct (es !! j) as [e|] eqn:E; [|discriminate].
    exists e. split; [|exact Hj]. apply list_elem_of_lookup. eauto.
Qed.

(** Writing a value into an unused slot adds that value, and nothing else
    moves. *)
Lemma iterate_insert (es : list SetEntry) (j : nat) (v : string) :
  unused es j -> iterate_entries (<[j := value_entry v]> es) ≡ₚ v :: iterate_entries es.
Proof.
  intros Hj. unfold unused in Hj.
  assert (Hlt : (j < length es)%nat) by (apply lookup_lt_is_Some; eauto).
  rewrite insert_take_drop by assumption.
  rewrite <- (take_drop_middle es j empty_entry Hj) at 3.
  unfold iterate_entries. rewrite !omap_app. cbn.
  now rewrite Permutation_middle.
Qed.

Lemma holds_insert (es : list SetEntry) (j j' : nat) (v w : string) :
  (j < length es)%nat ->
  holds (<[j := value_entry v]> es) j' w
  <-> (j' = j /\ w = v) \/ (j' <> j /\ holds es j' w).
Proof.
  intros Hlt. unfold holds. destruct (decide (j = j')) as [<-|Hne].
  - rewrite list_lookup_insert_eq by assumption. cbn. split.
    + intros [= ->]. now left.
    + intros [[_ ->]|[Hne _]]; [reflexivity | contradiction].
  - rewrite list_lookup_insert_ne by assumption. split.
    + intros Hh. right. split; [congruence | assumption].
    + intros [[-> _]|[_ Hh]]; [contradiction | assumption].
Qed.

(** The values of a table whose values sit in one slot each are distinct. *)
Lemma iterate_NoDup (es : list SetEntry) :
  (forall j1 j2 v, holds es j1 v -> holds es j2 v -> j1 = j2) ->
  NoDup (iterate_entries es).
Proof.
  induction es as [|e es IH]; intros Huniq; [constructor|].
  assert (Htail : NoDup (iterate_entries es)).
  { apply IH. intros j1 j2 v H1 H2.
    specialize (Huniq (S j1) (S j2) v H1 H2). lia. }
  unfold iterate_entries in *. cbn. destruct (slot_value e) as [v|] eqn:E; [|exact Htail].
  constructor; [|exact Htail].
  intros Hin. apply elem_of_iterate in Hin as [j Hj].
  assert (H0 : holds (e :: es) 0 v) by exact E.
  specialize (Huniq 0%nat (S j) v H0 Hj). lia.
Qed.

(** The search of [set_find_entry] in a table without tombstones: it stops
    at the first probed slot that is unused or holds the value. *)
Lemma find_loop_spec (es : list SetEntry) (cap h : nat) (v : string) (fuel i : nat) :
  Forall (fun e => e = empty_entry \/ exists w, e = value_entry w) es ->
  length es = cap -> (0 < cap)%nat -> (i + fuel = cap)%nat ->
  match find_loop es cap h v None i fuel with
  | Some j =>
      exists k, (i <= k < cap)%nat /\ j = probe cap h k
                /\ (unused es j \/ holds es j v)
                /\ forall k', (i <= k' < k)%nat ->
                     exists w, w <> v /\ holds es (probe cap h k') w
  | None =>
      forall k', (i <= k' < cap)%nat -> exists w, w <> v /\ holds es (probe cap h k') w
  end.
Proof.
  intros Hclean Hlen Hcap. revert i.
  induction fuel as [|fuel IH]; intros i Hfuel; cbn [find_loop].
  - intros k' Hk'. lia.
  - fold (probe cap h i).
    assert (Hp : (probe cap h i < length es)%nat) by (rewrite Hlen; now apply probe_lt).
    apply lookup_lt_is_Some in Hp as [e He]. rewrite He.
    assert (Hshape : e = empty_entry \/ exists w, e = value_entry w).
    { rewrite List.Forall_forall in Hclean. apply Hclean.
      apply list_elem_of_In, list_elem_of_lookup. eauto. }
    destruct Hshape as [->|[w ->]]; cbn.
    + exists i. repeat split; [lia.. | now left | intros k' Hk'; lia].
    + destruct (decide (w = v)) as [->|Hne].
      * rewrite bool_decide_eq_true_2 by reflexivity.
        exists i. repeat split; [lia.. | | intros k' Hk'; lia].
        right. now apply (holds_value_entry es _ v v).
      * rewrite bool_decide_eq_false_2 by congruence.
        specialize (IH (S i) ltac:(lia)).
        assert (Hi : exists w', w' <> v /\ holds es (probe cap h i) w').
        { exists w. split; [assumption|]. now apply (holds_value_entry es _ w w). }
        destruct (find_loop es cap h v None (S i) fuel) as [j|].
        -- destruct IH as (k & Hk & -> & Hj & Hrun).
           exists k. repeat split; [lia.. | assumption |].
           intros k' Hk'. destruct (decide (k' = i)) as [->|]; [exact Hi|].
           apply Hrun. lia.
        -- intros k' Hk'. destruct (decide (k' = i)) as [->|]; [exact Hi|].
           apply IH. lia.
Qed.

(** A value of the table is found in its slot. *)
Lemma find_present (es : list SetEntry) (cap j : nat) (v : string) :
  table_ok es cap -> (0 < cap)%nat -> holds es j v ->
  set_find_entry es cap v = Some j.
Proof.
  intros (Hlen & Hclean & Hpath & Huniq) Hcap Hj.
  pose proof (home_slot_lt cap v Hcap) as Hh.
  destruct (Hpath j v Hj) as (k0 & Hk0 & Hp0 & Hrun0).
  pose proof (find_loop_spec es cap (home_slot cap v) v cap 0 Hclean Hlen Hcap eq_refl)
    as Hspec.
  unfold set_find_entry. destruct (find_loop _ _ _ _ _ _ _) as [j'|].
  - destruct Hspec as (k & Hk & -> & Hslot & Hrun).
    f_equal. rewrite <- Hp0. f_equal.
    destruct (Nat.lt_trichotomy k k0) as [Hlt|[->|Hgt]]; [|reflexivity|].
    + destruct (Hrun0 k Hlt) as [w Hw].
      destruct Hslot as [Hun|Hv]; [now apply holds_unused in Hw|].
      rewrite <- Hp0 in Hj. specialize (Huniq _ _ v Hv Hj).
      apply probe_inj in Huniq; lia.
    + destruct (Hrun k0 ltac:(lia)) as (w & Hne & Hw).
      rewrite Hp0 in Hw. unfold holds in *. congruence.
  - destruct (Hspec k0 ltac:(lia)) as (w & Hne & Hw).
    rewrite Hp0 in Hw. unfold holds in *. congruence.
Qed.

Lemma iterate_length_full (es : list SetEntry) :
  (forall j, (j < length es)%nat -> exists w, holds es j w) ->
  length (iterate_entries es) = length es.
Proof.
  induction es as [|e es IH]; intros Hfull; [reflexivity|].
  destruct (Hfull 0%nat ltac:(cbn; lia)) as [w Hw]. unfold holds in Hw. cbn in Hw.
  unfold iterate_entries in *. cbn. rewrite Hw. cbn. f_equal. apply IH.
  intros j Hj. apply (Hfull (S j)). cbn. lia.
Qed.

(** A value that is not in a table with room left is sent to an unused slot
    at the end of a run of full slots from its home slot. *)
Lemma find_absent (es : list SetEntry) (cap : nat) (v : string) :
  table_ok es cap -> (0 < cap)%nat ->
  (length (iterate_entries es) < cap)%nat ->
  (forall j, ~ holds es j v) ->
  exists j k, set_find_entry es cap v = Some j
              /\ unused es j /\ (k < cap)%nat
              /\ probe cap (home_slot cap v) k = j
              /\ run_full es cap (home_slot cap v) k.
Proof.
  intros (Hlen & Hclean & Hpath & Huniq) Hcap Hroom Habsent.
  pose proof (home_slot_lt cap v Hcap) as Hh.
  pose proof (find_loop_spec es cap (home_slot cap v) v cap 0 Hclean Hlen Hcap eq_refl)
    as Hspec.
  unfold set_find_entry. destruct (find_loop _ _ _ _ _ _ _) as [j|].
  - destruct Hspec as (k & Hk & -> & Hslot & Hrun).
    exists (probe cap (home_slot cap v) k), k.
    destruct Hslot as [Hun|Hv]; [|now apply Habsent in Hv].
    repeat split; [assumption | lia |].
    intros k' Hk'. destruct (Hrun k' ltac:(lia)) as (w & _ & Hw). eauto.
  - exfalso. assert (Hfull : length (iterate_entries es) = length es).
    { apply iterate_length_full. intros j Hj. rewrite Hlen in Hj.
      destruct (probe_surj cap (home_slot cap v) j Hh Hj) as (k & Hk & <-).
      destruct (Hspec k ltac:(lia)) as (w & _ & Hw). eauto. }
    lia.
Qed.

(** Filling that slot keeps the table in order. *)
Lemma table_ok_insert (es : list SetEntry) (cap j k : nat) (v : string) :
  table_ok es cap -> (forall j', ~ holds es j' v) -> unused es j ->
  (k < cap)%nat -> probe cap (home_slot cap v) k = j ->
  run_full es cap (home_slot cap v) k ->
  table_ok (<[j := value_entry v]> es) cap.
Proof.
  intros (Hlen & Hclean & Hpath & Huniq) Habsent Hj Hk Hp Hrun.
  assert (Hlt : (j < length es)%nat) by (apply lookup_lt_is_Some; unfold unused in Hj; eauto).
  assert (Hmono : forall j' w, holds es j' w -> holds (<[j := value_entry v]> es) j' w).
  { intros j' w Hw. apply (holds_insert es j j' v w Hlt). right. split; [|assumption].
    intros ->. now apply (holds_unused es j w). }
  repeat split.
  - now rewrite length_insert.
  - apply Forall_insert; [assumption|]. right. eauto.
  - intros j' w Hw.
    apply (proj1 (holds_insert es j j' v w Hlt)) in Hw as [[-> ->]|[Hne Hw]].
    + exists k. repeat split; [assumption..|].
      intros k' Hk'. destruct (Hrun k' Hk') as [w Hw]. eauto.
    + destruct (Hpath j' w Hw) as (k1 & Hk1 & Hp1 & Hrun1).
      exists k1. repeat split; [assumption..|].
      intros k' Hk'. destruct (Hrun1 k' Hk') as [w' Hw']. eauto.
  - intros j1 j2 w H1 H2.
    apply (proj1 (holds_insert es j j1 v w Hlt)) in H1.
    apply (proj1 (holds_insert es j j2 v w Hlt)) in H2.
    destruct H1 as [[E1 W1]|[Hne1 H1]], H2 as [[E2 W2]|[Hne2 H2]]; subst;
      try reflexivity; try (now apply Habsent in H1); try (now apply Habsent in H2).
    now apply (Huniq j1 j2 w).
Qed.

Lemma table_ok_empty (cap : nat) : table_ok (replicate cap empty_entry) cap.
Proof.
  assert (Hnone : forall j v, ~ holds (replicate cap empty_entry) j v).
  { intros j v. unfold holds. destruct (replicate cap empty_entry !! j) as [e|] eqn:E;
      [|discriminate].
    apply lookup_replicate in E as [-> _]. discriminate. }
  repeat split.
  - apply length_replicate.
  - apply Forall_replicate. now left.
  - intros j v Hj. now apply Hnone in Hj.
  - intros j1 j2 v Hj. now apply Hnone in Hj.
Qed.

Lemma iterate_empty (cap : nat) : iterate_entries (replicate cap empty_entry) = [].
Proof. induction cap as [|cap IH]; [reflexivity | exact IH]. Qed.

(** The rehash loop of [set_grow] moves every value of the old entries into
    the new table. *)
Lemma rehash_ok (cap : nat) (old new : list SetEntry) :
  (0 < cap)%nat ->
  Forall (fun e => e = empty_entry \/ exists w, e = value_entry w) old ->
  NoDup (iterate_entries old) ->
  table_ok new cap ->
  (forall v, v ∈ iterate_entries old -> v ∉ iterate_entries new) ->
  (length (iterate_entries new) + length (iterate_entries old) < cap)%nat ->
  table_ok (fold_left (rehash_entry cap) old new) cap
  /\ iterate_entries (fold_left (rehash_entry cap) old new)
     ≡ₚ iterate_entries old ++ iterate_entries new.
Proof.
  intros Hcap Hclean. revert new.
  induction Hclean as [|e old He _ IH]; intros new Hnodup Hnew Hfresh Hroom;
    cbn [fold_left].
  - split; [assumption | reflexivity].
  - destruct He as [->|[v ->]].
    + apply IH; assumption.
    + unfold iterate_entries in Hnodup, Hfresh, Hroom. cbn in Hnodup, Hfresh, Hroom.
      fold (iterate_entries old) in *. fold (iterate_entries new) in *.
      apply NoDup_cons in Hnodup as [Hv Hnodup].
      assert (Habsent : forall j, ~ holds new j v).
      { intros j Hj. apply (Hfresh v); [left | apply elem_of_iterate; eauto]. }
      destruct (find_absent new cap v Hnew Hcap ltac:(lia) Habsent)
        as (j & k & Hfind & Hun & Hk & Hp & Hrun).
      assert (Hstep : rehash_entry cap new (value_entry v) = <[j := value_entry v]> new).
      { unfold rehash_entry. cbn [occupied value value_entry]. now rewrite Hfind. }
      rewrite Hstep.
      pose proof (iterate_insert new j v Hun) as Hperm.
      destruct (IH (<[j := value_entry v]> new)) as [Hok Hall].
      * assumption.
      * now apply (table_ok_insert new cap j k v).
      * intros w Hw. rewrite Hperm. intros [->|Hin]%elem_of_cons; [contradiction|].
        apply (Hfresh w); [now right | assumption].
      * rewrite Hperm. cbn. lia.
      * split; [assumption|]. rewrite Hall, Hperm.
        unfold iterate_entries at 3. cbn. fold (iterate_entries old).
        now rewrite Permutation_middle.
Qed.

Lemma load_limit_le (cap : nat) : (load_limit cap <= cap)%nat.
Proof. unfold load_limit. apply Nat.Div0.div_le_upper_bound. lia. Qed.

Lemma load_limit_double (cap : nat) :
  (0 < cap)%nat -> (load_limit cap + 1 <= load_limit (cap * 2))%nat.
Proof.
  intros Hcap. unfold load_limit.
  replace (cap * 2 * 3)%nat with (cap * 3 + cap * 3)%nat by lia.
  pose proof (Nat.div_mod_eq (cap * 3) 4) as E1.
  pose proof (Nat.div_mod_eq (cap * 3 + cap * 3) 4) as E2.
  pose proof (Nat.mod_upper_bound (cap * 3) 4 ltac:(lia)).
  pose proof (Nat.mod_upper_bound (cap * 3 + cap * 3) 4 ltac:(lia)).
  lia.
Qed.

Lemma round_up_pos (fuel cap initial : nat) :
  (0 < cap)%nat -> (0 < round_up fuel cap initial)%nat.
Proof.
  revert cap. induction fuel as [|fuel IH]; intros cap Hcap; cbn [round_up]; [assumption|].
  destruct (cap <? initial)%nat; [apply IH; lia | assumption].
Qed.

Lemma set_create_wf (initial_capacity : nat) : set_wf (set_create initial_capacity).
Proof.
  unfold set_create, set_wf, set_iterate. cbn [entries capacity size tombstones].
  split; [apply table_ok_empty|]. split; [apply round_up_pos; lia|].
  split; [reflexivity|]. split; [now rewrite iterate_empty | lia].
Qed.

Lemma set_iterate_NoDup (s : StrSet) : set_wf s -> NoDup (set_iterate s).
Proof. intros ((_ & _ & _ & Huniq) & _). now apply iterate_NoDup. Qed.

Lemma set_grow_spec (s : StrSet) :
  set_wf s ->
  table_ok (entries (set_grow s)) (capacity (set_grow s))
  /\ capacity (set_grow s) = (capacity s * 2)%nat
  /\ tombstones (set_grow s) = 0%nat
  /\ size (set_grow s) = size s
  /\ set_iterate (set_grow s) ≡ₚ set_iterate s.
Proof.
  intros Hwf. pose proof (set_iterate_NoDup s Hwf) as Hnodup.
  destruct Hwf as ((Hlen & Hclean & Hpath & Huniq) & Hcap & Htomb & Hsize & Hload).
  unfold set_grow, set_iterate in *. cbn [entries capacity tombstones size].
  destruct (Nat.eqb_spec (capacity s) 0) as [|_]; [lia|].
  destruct (rehash_ok (capacity s * 2) (entries s)
              (replicate (capacity s * 2) empty_entry)) as [Hok Hperm].
  - lia.
  - assumption.
  - assumption.
  - apply table_ok_empty.
  - intros v _. rewrite iterate_empty. apply not_elem_of_nil.
  - rewrite iterate_empty. cbn. pose proof (load_limit_le (capacity s)). lia.
  - rewrite iterate_empty, app_nil_r in Hperm.
    split; [exact Hok|]. split; [reflexivity|]. split; [reflexivity|].
    split; [congruence | assumption].
Qed.

(** [set_add] on a well-formed set succeeds, keeps it well formed, and adds
    the value unless it is there already. *)
Lemma set_add_spec (s : StrSet) (v : string) :
  set_wf s ->
  fst (set_add s v) = REBUILD_OK
  /\ set_wf (snd (set_add s v))
  /\ forall x, x ∈ set_iterate (snd (set_add s v)) <-> x = v \/ x ∈ set_iterate s.
Proof.
  intros Hwf. unfold set_add.
  set (s1 := if (load_limit (capacity s) <? size s + tombstones s + 1)%nat
             then set_grow s else s).
  assert (H1 : table_ok (entries s1) (capacity s1)
               /\ (0 < capacity s1)%nat /\ tombstones s1 = 0%nat
               /\ size s1 = length (set_iterate s1)
               /\ (size s1 + 1 <= load_limit (capacity s1))%nat
               /\ set_iterate s1 ≡ₚ set_iterate s).
  { subst s1. destruct (Nat.ltb_spec (load_limit (capacity s)) (size s + tombstones s + 1))
      as [Hgrow|Hroom].
    - destruct (set_grow_spec s Hwf) as (Hok & Hcap' & Htomb' & Hsize' & Hperm).
      destruct Hwf as (_ & Hcap & Htomb & Hsize & Hload).
      split; [exact Hok|]. split; [lia|]. split; [assumption|].
      split; [|split; [|assumption]].
      + rewrite Hsize', Hsize. now rewrite Hperm.
      + rewrite Hcap', Hsize'. pose proof (load_limit_double (capacity s) Hcap). lia.
    - destruct Hwf as (Hok & Hcap & Htomb & Hsize & Hload).
      split; [exact Hok|]. split; [assumption|]. split; [assumption|].
      split; [assumption|]. split; [lia | reflexivity]. }
  clearbody s1. destruct H1 as (Hok & Hcap & Htomb & Hsize & Hload & Hperm).
  pose proof (load_limit_le (capacity s1)) as Hle.
  destruct (decide (v ∈ set_iterate s1)) as [Hin|Hnotin].
  - apply elem_of_iterate in Hin as [j Hj].
    rewrite (find_present _ _ j v Hok Hcap Hj).
    unfold holds in Hj. destruct (entries s1 !! j) as [e|] eqn:E; [|discriminate].
    cbn in Hj. unfold slot_value in Hj. destruct (occupied e) eqn:Hocc; [|discriminate].
    cbn [fst snd]. split; [reflexivity|]. split.
    { split; [exact Hok|]. split; [assumption|]. split; [assumption|].
      split; [assumption | lia]. }
    intros x. split.
    + intros Hx. right. now rewrite <- Hperm.
    + intros [->|Hx]; [|now rewrite Hperm].
      apply elem_of_iterate. exists j. unfold holds. rewrite E. cbn.
      unfold slot_value. now rewrite Hocc.
  - assert (Habsent : forall j, ~ holds (entries s1) j v).
    { intros j Hj. apply Hnotin, elem_of_iterate. eauto. }
    destruct (find_absent (entries s1) (capacity s1) v Hok Hcap
                ltac:(unfold set_iterate in Hsize; lia) Habsent)
      as (j & k & Hfind & Hun & Hk & Hp & Hrun).
    rewrite Hfind. unfold unused in Hun. rewrite Hun. cbn [occupied empty_entry fst snd].
    pose proof (iterate_insert (entries s1) j v Hun) as Hins.
    split; [reflexivity|]. split.
    { split; [|split; [|split; [|split]]]; cbn [entries capacity size tombstones].
      - apply (table_ok_insert _ _ j k v Hok); assumption.
      - assumption.
      - assumption.
      - unfold set_iterate in *. cbn [entries]. rewrite Hins. cbn. lia.
      - lia. }
    intros x. unfold set_iterate in *. cbn [entries].
    rewrite Hins, elem_of_cons, Hperm. tauto.
Qed.

Lemma set_has_spec (s : StrSet) (v : string) :
  set_wf s -> set_has s v = true <-> v ∈ set_iterate s.
Proof.
  intros (Hok & Hcap & Htomb & Hsize & Hload). unfold set_has.
  destruct (Nat.eqb_spec (size s) 0) as [Hzero|Hpos].
  - rewrite Hzero in Hsize. symmetry in Hsize. apply nil_length_inv in Hsize.
    rewrite Hsize. split; [discriminate | intros Hin; now apply elem_of_nil in Hin].
  - destruct (decide (v ∈ set_iterate s)) as [Hin|Hnotin].
    + split; [tauto|]. intros _. apply elem_of_iterate in Hin as [j Hj].
      rewrite (find_present _ _ j v Hok Hcap Hj).
      unfold holds in Hj. destruct (entries s !! j) as [e|]; [|discriminate].
      cbn in Hj. unfold slot_value in Hj. now destruct (occupied e).
    + split; [|tauto]. intros Hhas. exfalso.
      assert (Habsent : forall j, ~ holds (entries s) j v).
      { intros j Hj. apply Hnotin, elem_of_iterate. eauto. }
      pose proof (load_limit_le (capacity s)) as Hle.
      assert (Hlt : (load_limit (capacity s) < capacity s)%nat).
      { unfold load_limit. apply Nat.Div0.div_lt_upper_bound. lia. }
      destruct (find_absent (entries s) (capacity s) v Hok Hcap
                  ltac:(unfold set_iterate in Hsize; lia) Habsent)
        as (j & k & Hfind & Hun & _).
      rewrite Hfind in Hhas. unfold unused in Hun. rewrite Hun in Hhas. discriminate.
Qed.

(** ** Sets and the request key *)

Lemma add_all_spec (paths : list string) (s : StrSet) :
  set_wf s ->
  set_wf (fold_left (fun s v => snd (set_add s v)) paths s)
  /\ forall x, x ∈ set_iterate (fold_left (fun s v => snd (set_add s v)) paths s)
               <-> x ∈ set_iterate s \/ x ∈ paths.
Proof.
  revert s. induction paths as [|p paths IH]; intros s Hs; cbn [fold_left].
  - split; [assumption|]. intros x. rewrite elem_of_nil. tauto.
  - destruct (set_add_spec s p Hs) as (_ & Hwf & Helem).
    destruct (IH _ Hwf) as [Hwf' Helem']. split; [assumption|].
    intros x. rewrite Helem', Helem, elem_of_cons. tauto.
Qed.

Lemma declared_after_add (r : Recipe) (path : string) :
  declared_deps (recipe_add_dependency r path) = snd (set_add (declared_deps r) path).
Proof. unfold recipe_add_dependency. now destruct (set_add (declared_deps r) path). Qed.

Lemma target_name_after_add (r : Recipe) (path : string) :
  target_name (recipe_add_dependency r path) = target_name r.
Proof. unfold recipe_add_dependency. now destruct (set_add (declared_deps r) path). Qed.

Lemma state_after_add (r : Recipe) (path : string) :
  state (recipe_add_dependency r path) = state r.
Proof. unfold recipe_add_dependency. now destruct (set_add (declared_deps r) path). Qed.

(** With equal, well-formed sets, both sets take the dependency alike. *)
Lemma pending_after_add (r : Recipe) (path : string) :
  set_wf (declared_deps r) -> pending_deps r = declared_deps r ->
  pending_deps (recipe_add_dependency r path) = declared_deps (recipe_add_dependency r path).
Proof.
  intros Hwf Heq. unfold recipe_add_dependency.
  destruct (set_add_spec (declared_deps r) path Hwf) as (Hok & _).
  destruct (set_add (declared_deps r) path) as [err declared] eqn:E.
  cbn in Hok. subst err. cbn. now rewrite Heq, E.
Qed.

Lemma register_all_declared (paths : list string) (r : Recipe) :
  declared_deps (register_all r paths)
  = fold_left (fun s v => snd (set_add s v)) paths (declared_deps r).
Proof.
  unfold register_all. revert r.
  induction paths as [|p paths IH]; intros r; [reflexivity|].
  cbn [fold_left]. now rewrite IH, declared_after_add.
Qed.

Lemma register_all_target_name (paths : list string) (r : Recipe) :
  target_name (register_all r paths) = target_name r.
Proof.
  unfold register_all. revert r.
  induction paths as [|p paths IH]; intros r; [reflexivity|].
  cbn [fold_left]. now rewrite IH, target_name_after_add.
Qed.

Lemma sort_insert_perm {A : Type} (key : A -> string) (x : A) (l : list A) :
  Permutation (sort_insert key x l) (x :: l).
Proof.
  induction l as [|y l IH]; simpl; [reflexivity|].
  destruct (strcmp_le (key x) (key y)); [reflexivity|].
  rewrite IH. apply perm_swap.
Qed.

Lemma qsort_perm {A : Type} (key : A -> string) (l : list A) :
  Permutation (qsort key l) l.
Proof.
  induction l as [|x l IH]; simpl; [reflexivity|].
  rewrite sort_insert_perm. now constructor.
Qed.

Section RequestKeyFacts.
Context `{Platform}.

Lemma combine_deps_perm (l1 l2 : list string) :
  Permutation l1 l2 -> forall key, combine_deps key l1 = combine_deps key l2.
Proof.
  unfold combine_deps.
  induction 1 as [|x l1 l2 _ IH|x y l|l1 l2 l3 _ IH1 _ IH2]; intros key; simpl.
  - reflexivity.
  - apply IH.
  - now rewrite hash_combine_swap.
  - now rewrite IH1.
Qed.

(** The key depends on the set of declared dependencies only, whatever
    the order [set_iterate] visits them in. *)
Lemma request_key_of_set (r1 r2 : Recipe) (code : Hash) :
  target_name r1 = target_name r2 ->
  Permutation (set_iterate (declared_deps r1)) (set_iterate (declared_deps r2)) ->
  request_key (recipe_compute_request_key r1 code)
  = request_key (recipe_compute_request_key r2 code).
Proof.
  intros Hname Hperm. unfold recipe_compute_request_key. cbn [request_key recipe_set_request_key].
  rewrite Hname. rewrite (Permutation_length Hperm).
  destruct (0 <? length (set_iterate (declared_deps r2)))%nat; [|reflexivity].
  apply combine_deps_perm. now rewrite !qsort_perm.
Qed.
End RequestKeyFacts.

(** C9. The request key does not depend on the order the dependencies were
    registered in: for every code hash and target name, two sequences of
    registrations that name the same paths, in any order and with any
    repetitions, give the same request key. *)
Theorem request_key_order_invariant `{Platform}
    (code : Hash) (target : string) (paths1 paths2 : list string) :
  (forall p, In p paths1 <-> In p paths2) ->
  request_key (recipe_compute_request_key
                 (register_all (recipe_create target) paths1) code)
  = request_key (recipe_compute_request_key
                   (register_all (recipe_create target) paths2) code).
Proof.
  intros Hsame. apply request_key_of_set.
  - now rewrite !register_all_target_name.
  - rewrite !register_all_declared.
    destruct (add_all_spec paths1 (set_create 0) (set_create_wf 0)) as [Hwf1 Hin1].
    destruct (add_all_spec paths2 (set_create 0) (set_create_wf 0)) as [Hwf2 Hin2].
    apply NoDup_Permutation; [now apply set_iterate_NoDup.. |].
    intros x. cbn [declared_deps recipe_create].
    rewrite Hin1, Hin2, !list_elem_of_In. specialize (Hsame x). tauto.
Qed.

Lemma request_key_order_invariant_witness :
  request_key (@recipe_compute_request_key test_platform
                 (register_all (recipe_create "app") ["b.h"; "a.c"; "b.h"; "gen.h"; "zz"])
                 hash_zero)
  = request_key (@recipe_compute_request_key test_platform
                   (register_all (recipe_create "app") ["zz"; "a.c"; "gen.h"; "b.h"; "a.c"])
                   hash_zero).
Proof.
  apply (@request_key_order_invariant test_platform).
  intros p. simpl. tauto.
Defined.

(** The two registration orders of the witness leave the table in different
    iteration orders: "b.h" and "gen.h" have the same home slot. *)
Example register_all_order :
  set_iterate (declared_deps (register_all (recipe_create "app")
                                ["b.h"; "a.c"; "b.h"; "gen.h"; "zz"]))
  = ["zz"; "b.h"; "gen.h"; "a.c"]
  /\ set_iterate (declared_deps (register_all (recipe_create "app")
                                   ["zz"; "a.c"; "gen.h"; "b.h"; "a.c"]))
     = ["zz"; "gen.h"; "b.h"; "a.c"].
Proof. split; vm_compute; reflexivity. Qed.

(** ** The cache probe *)

Lemma lookup_update_recipe (s : Scheduler) (r : string) (f : Recipe -> Recipe) :
  recipes (update_recipe s r f) !! r = f <$> recipes s !! r.
Proof. unfold update_recipe. cbn [recipes set_recipes]. apply lookup_alter_eq. Qed.

Lemma lookup_update_recipe_ne (s : Scheduler) (r r' : string) (f : Recipe -> Recipe) :
  r <> r' -> recipes (update_recipe s r f) !! r' = recipes s !! r'.
Proof.
  intros Hne. unfold update_recipe. cbn [recipes set_recipes].
  now apply lookup_alter_ne.
Qed.

(** C10. A trace with no dependency validates on every file system, so the
    cache probe takes every trace it loads that records no dependency as a
    hit: it returns true, the recipe is Complete and its output path is
    published. *)
Theorem empty_trace_always_valid `{Platform} (fs : FileSystem) (t : Trace) :
  dep_count t = 0 ->
  trace_validate fs t = true
  /\ (forall s r recipe,
        recipes s !! r = Some recipe ->
        trace_load (hash_data (str_bytes (target_name recipe))) (storage s) = Some t ->
        fst (scheduler_check_cache fs s r) = true
        /\ state <$> recipes (snd (scheduler_check_cache fs s r)) !! r
           = Some RECIPE_COMPLETE
        /\ completed (snd (scheduler_check_cache fs s r)) !! target_name recipe
           = Some (default "outputs" (output_dir recipe))).
Proof.
  intros Hcount.
  assert (Hdeps : deps t = []).
  { unfold dep_count in Hcount. destruct (deps t); [reflexivity | simpl in Hcount; lia]. }
  assert (Hvalid : trace_validate fs t = true).
  { unfold trace_validate, trace_validate_hashed. now rewrite Hdeps. }
  split; [exact Hvalid|].
  intros s r recipe Hr Hload. unfold scheduler_check_cache. rewrite Hr.
  cbn [storage update_recipe set_recipes]. rewrite Hload, Hvalid. cbn [fst snd].
  split; [reflexivity|]. split.
  - unfold scheduler_mark_completed. cbn [recipes set_completed set_recipes].
    rewrite !lookup_update_recipe, Hr. reflexivity.
  - unfold scheduler_mark_completed. cbn [completed set_completed].
    apply lookup_insert_eq.
Qed.

Lemma empty_trace_always_valid_witness :
  @trace_validate test_platform empty_fs lib_trace = true
  /\ fst (@scheduler_check_cache test_platform empty_fs lib_scheduler "lib") = true
  /\ state <$> recipes (snd (@scheduler_check_cache test_platform empty_fs
                               lib_scheduler "lib")) !! "lib"
     = Some RECIPE_COMPLETE
  /\ completed (snd (@scheduler_check_cache test_platform empty_fs lib_scheduler "lib"))
       !! "lib"
     = Some "outputs".
Proof.
  destruct (@empty_trace_always_valid test_platform empty_fs lib_trace eq_refl)
    as [Hvalid Hprobe].
  split; [exact Hvalid|].
  apply (Hprobe lib_scheduler "lib" (recipe_create "lib")).
  - vm_compute. reflexivity.
  - vm_compute. reflexivity.
Defined.

(** ** Invariants of the scheduler *)

Lemma neutral_add_dependency (path : string) :
  neutral (fun recipe => recipe_add_dependency recipe path).
Proof.
  intros d. split; [apply target_name_after_add|]. split.
  - intros [Heq Hwf]. split; [now apply pending_after_add|].
    rewrite declared_after_add. now apply set_add_spec.
  - now rewrite state_after_add.
Qed.

Lemma neutral_set_state (st : RecipeState) :
  st <> RECIPE_COMPLETE -> neutral (fun recipe => recipe_set_state recipe st).
Proof.
  intros Hst d. cbn. split; [reflexivity|]. split; [tauto|]. intros ->. contradiction.
Qed.

Lemma neutral_resume :
  neutral (fun recipe =>
             match state recipe with
             | RECIPE_SUSPENDED => recipe_set_state recipe RECIPE_PENDING
             | _ => recipe
             end).
Proof.
  intros d. destruct (state d) eqn:E; cbn;
    (split; [reflexivity|]; split; [tauto | congruence]).
Qed.

Lemma neutral_set_request_key (key : Hash) :
  neutral (fun recipe => recipe_set_request_key recipe key).
Proof. intros d. cbn. split; [reflexivity|]. split; tauto. Qed.

Lemma neutral_set_start_time (t : Z) :
  neutral (fun recipe => recipe_set_start_time recipe t).
Proof. intros d. cbn. split; [reflexivity|]. split; tauto. Qed.

Lemma neutral_set_output_dir (dir : Recipe -> string) :
  neutral (fun recipe => recipe_set_output_dir recipe (dir recipe)).
Proof. intros d. cbn. split; [reflexivity|]. split; tauto. Qed.

Lemma neutral_set_temp_dir (dir : Recipe -> option string) :
  neutral (fun recipe => recipe_set_temp_dir recipe (dir recipe)).
Proof. intros d. cbn. split; [reflexivity|]. split; tauto. Qed.

Create HintDb sched.

#[local] Hint Resolve neutral_add_dependency neutral_set_state neutral_resume
  neutral_set_request_key neutral_set_start_time neutral_set_output_dir
  neutral_set_temp_dir : sched.

Lemma consistent_alter (rs : gmap string Recipe) (cs : gmap string string)
    (f : Recipe -> Recipe) (r : string) :
  neutral f -> recipes_consistent rs cs -> recipes_consistent (alter f r rs) cs.
Proof.
  intros Hf Hinv n d Hn. destruct (decide (r = n)) as [->|Hne].
  - rewrite lookup_alter_eq in Hn.
    destruct (rs !! n) as [d0|] eqn:E; [|discriminate]. injection Hn as <-.
    destruct (Hinv n d0 E) as (Hname & Hdeps & Hdone).
    destruct (Hf d0) as (Hf1 & Hf2 & Hf3).
    split; [congruence|]. split; auto.
  - rewrite lookup_alter_ne in Hn by assumption. now apply Hinv.
Qed.

Lemma consistent_create (rs : gmap string Recipe) (cs : gmap string string) (n : string) :
  recipes_consistent rs cs -> recipes_consistent (<[n := recipe_create n]> rs) cs.
Proof.
  intros Hinv m d Hm. destruct (decide (n = m)) as [->|Hne].
  - rewrite lookup_insert_eq in Hm. injection Hm as <-. cbn.
    split; [reflexivity|]. split; [|discriminate].
    split; [reflexivity | apply set_create_wf].
  - rewrite lookup_insert_ne in Hm by assumption. now apply Hinv.
Qed.

Lemma consistent_publish (rs : gmap string Recipe) (cs : gmap string string)
    (n path : string) :
  recipes_consistent rs cs -> recipes_consistent rs (<[n := path]> cs).
Proof.
  intros Hinv m d Hm. destruct (Hinv m d Hm) as (Hname & Hdeps & Hdone).
  split; [assumption|]. split; [assumption|]. intros Hst.
  destruct (decide (n = m)) as [->|Hne].
  - rewrite lookup_insert_eq. eauto.
  - rewrite lookup_insert_ne by assumption. auto.
Qed.

Lemma consistent_complete (rs : gmap string Recipe) (cs : gmap string string)
    (r path : string) :
  recipes_consistent rs cs ->
  recipes_consistent
    (alter (fun recipe => recipe_set_state recipe RECIPE_COMPLETE) r rs)
    (<[r := path]> cs).
Proof.
  intros Hinv n d Hn. destruct (decide (r = n)) as [->|Hne].
  - rewrite lookup_alter_eq in Hn.
    destruct (rs !! n) as [d0|] eqn:E; [|discriminate]. injection Hn as <-.
    destruct (Hinv n d0 E) as (Hname & Hdeps & Hdone). cbn.
    split; [assumption|]. split; [assumption|].
    intros _. rewrite lookup_insert_eq. eauto.
  - rewrite lookup_alter_ne in Hn by assumption.
    destruct (Hinv n d Hn) as (Hname & Hdeps & Hdone).
    split; [assumption|]. split; [assumption|]. intros Hst.
    rewrite lookup_insert_ne by assumption. auto.
Qed.

#[local] Hint Resolve consistent_alter consistent_create consistent_publish
  consistent_complete : sched.

Lemma consistent_update_recipe (s : Scheduler) (r : string) (f : Recipe -> Recipe) :
  neutral f -> scheduler_consistent s -> scheduler_consistent (update_recipe s r f).
Proof. intros Hf Hs. unfold scheduler_consistent in *. cbn. auto with sched. Qed.

Lemma consistent_get_recipe (s : Scheduler) (target : string) :
  scheduler_consistent s -> scheduler_consistent (scheduler_get_recipe s target).
Proof.
  intros Hs. unfold scheduler_get_recipe.
  destruct (recipes s !! target); [assumption|].
  unfold scheduler_consistent in *. cbn. auto with sched.
Qed.

Lemma consistent_resume (s : Scheduler) (r : string) :
  scheduler_consistent s -> scheduler_consistent (scheduler_resume_recipe s r).
Proof.
  intros Hs. unfold scheduler_resume_recipe, scheduler_consistent in *. cbn.
  auto with sched.
Qed.

Lemma consistent_notify_all (waiters : list string) (s : Scheduler) :
  scheduler_consistent s -> scheduler_consistent (waiter_list_notify_all waiters s).
Proof.
  unfold waiter_list_notify_all. revert s.
  induction waiters as [|w waiters IH]; intros s Hs; [assumption|].
  cbn [fold_left]. apply IH. now apply consistent_resume.
Qed.

Lemma consistent_depend (s : Scheduler) (r target : string) :
  scheduler_consistent s ->
  scheduler_consistent (snd (scheduler_on_depend_request s r target)).
Proof.
  intros Hs. unfold scheduler_on_depend_request.
  set (s1 := update_recipe s r _).
  assert (H1 : scheduler_consistent s1) by (apply consistent_update_recipe; auto with sched).
  destruct (scheduler_get_completed s1 target); [assumption|].
  set (s2 := scheduler_get_recipe s1 target).
  assert (H2 : scheduler_consistent s2) by now apply consistent_get_recipe.
  assert (H3 : scheduler_consistent
                 (update_recipe s2 r (fun recipe => recipe_set_state recipe RECIPE_SUSPENDED))).
  { apply consistent_update_recipe; [|assumption]. now apply neutral_set_state. }
  destruct (state <$> recipes s2 !! target) as [[| | | |]|]; cbn [snd]; assumption.
Qed.

Lemma consistent_run_fiber (f : Fiber) (r : string) (s : Scheduler) :
  scheduler_consistent s -> scheduler_consistent (snd (run_fiber f r s)).
Proof.
  revert s. induction f as [status|target k IH|path k IH]; intros s Hs; cbn [run_fiber].
  - assumption.
  - pose proof (consistent_depend s r target Hs) as Hd.
    destruct (scheduler_on_depend_request s r target) as [path s']. now apply IH.
  - apply IH. apply consistent_update_recipe; auto with sched.
Qed.

Section ConsistentOps.
Context `{Platform}.

Lemma consistent_on_recipe_complete (s : Scheduler) (r : string) (success : bool) :
  scheduler_consistent s ->
  scheduler_consistent (scheduler_on_recipe_complete s r success).
Proof.
  intros Hs. unfold scheduler_on_recipe_complete.
  destruct (recipes s !! r) as [recipe|] eqn:Hr; [|assumption].
  destruct (Hs r recipe Hr) as (Hname & _). rewrite Hname.
  cbn [now_ms]. destruct success.
  - set (s1 := scheduler_mark_completed _ _ _).
    assert (H1 : scheduler_consistent s1).
    { unfold scheduler_consistent in *. cbn. auto with sched. }
    destruct (waiting s1 !! r) as [waiters|]; [|assumption].
    apply (consistent_notify_all waiters) in H1.
    unfold scheduler_consistent in *. exact H1.
  - unfold scheduler_consistent in *. cbn.
    apply consistent_alter; [|assumption]. now apply neutral_set_state.
Qed.

Lemma consistent_check_cache (fs : FileSystem) (s : Scheduler) (r : string) :
  scheduler_consistent s -> scheduler_consistent (snd (scheduler_check_cache fs s r)).
Proof.
  intros Hs. unfold scheduler_check_cache.
  destruct (recipes s !! r) as [recipe|] eqn:Hr; [|assumption].
  destruct (Hs r recipe Hr) as (Hname & _). rewrite Hname.
  set (s1 := update_recipe s r _).
  assert (H1 : scheduler_consistent s1) by (apply consistent_update_recipe; auto with sched).
  destruct (trace_load _ (storage s1)) as [trace|]; [|assumption].
  destruct (trace_validate fs trace); [|assumption].
  unfold scheduler_consistent in *. cbn. auto with sched.
Qed.

Lemma consistent_execute (s : Scheduler) (r : string) :
  scheduler_consistent s -> scheduler_consistent (scheduler_execute_recipe s r).
Proof.
  intros Hs. unfold scheduler_execute_recipe.
  destruct (recipes s !! r) as [recipe|] eqn:Hr; [|assumption].
  cbn [now_ms].
  set (s1 := update_recipe (tick _) r _).
  assert (H1 : scheduler_consistent s1).
  { unfold scheduler_consistent in *. cbn.
    repeat (apply consistent_alter;
            [first [now apply neutral_set_state | auto with sched] |]).
    assumption. }
  set (s2 := match output_dir recipe with None => _ | Some _ => s1 end).
  assert (H2 : scheduler_consistent s2).
  { subst s2. destruct (output_dir recipe); [assumption|].
    apply consistent_update_recipe; [|assumption].
    apply (neutral_set_output_dir (fun d => default_output_dir (target_name d))). }
  set (s3 := match temp_dir recipe with None => _ | Some _ => s2 end).
  assert (H3 : scheduler_consistent s3).
  { subst s3. destruct (temp_dir recipe); [assumption|].
    apply consistent_update_recipe; [|assumption].
    apply (neutral_set_temp_dir
             (fun d => Some (storage_get_tmp_dir s2 (target_name d)))). }
  clearbody s3. clear s1 s2 H1 H2.
  destruct (umka s3) as [script|], (registry s3) as [reg|];
    try now apply consistent_on_recipe_complete.
  destruct (target_registry_get reg (target_name recipe)) as [target|];
    [|now apply consistent_on_recipe_complete].
  destruct (umka_create_fiber script (function_name target)) as [fiber|];
    [|now apply consistent_on_recipe_complete].
  pose proof (consistent_run_fiber fiber r s3 H3) as H4.
  destruct (run_fiber fiber r s3) as [status s4].
  now apply consistent_on_recipe_complete.
Qed.

(** [scheduler_execute_recipe] is [execute_recipe_setup], then the script
    of the recipe, then [scheduler_on_recipe_complete]. *)
Lemma execute_after_setup (s : Scheduler) (r : string) (recipe : Recipe) :
  recipes s !! r = Some recipe ->
  scheduler_execute_recipe s r
  = let s1 := execute_recipe_setup s r in
    match umka s1, registry s1 with
    | Some script, Some reg =>
        match target_registry_get reg (target_name recipe) with
        | None => scheduler_on_recipe_complete s1 r false
        | Some target =>
            match umka_create_fiber script (function_name target) with
            | None => scheduler_on_recipe_complete s1 r false
            | Some fiber =>
                let '(status, s2) := run_fiber fiber r s1 in
                scheduler_on_recipe_complete s2 r
                  match status with UMKA_FIBER_COMPLETE => true | _ => false end
            end
        end
    | _, _ => scheduler_on_recipe_complete s1 r false
    end.
Proof.
  intros Hr. unfold scheduler_execute_recipe, execute_recipe_setup.
  rewrite Hr. reflexivity.
Qed.

Lemma consistent_set_ready_queue (s : Scheduler) (queue : list string) :
  scheduler_consistent s -> scheduler_consistent (set_ready_queue s queue).
Proof. intros Hs. exact Hs. Qed.

Lemma consistent_setup (s : Scheduler) (r : string) :
  scheduler_consistent s -> scheduler_consistent (execute_recipe_setup s r).
Proof.
  intros Hs. unfold execute_recipe_setup.
  destruct (recipes s !! r) as [recipe|] eqn:Hr; [|assumption].
  cbn [now_ms].
  set (s1 := update_recipe (tick _) r _).
  assert (H1 : scheduler_consistent s1).
  { unfold scheduler_consistent in *. cbn.
    repeat (apply consistent_alter;
            [first [now apply neutral_set_state | auto with sched] |]).
    assumption. }
  set (s2 := match output_dir recipe with None => _ | Some _ => s1 end).
  assert (H2 : scheduler_consistent s2).
  { subst s2. destruct (output_dir recipe); [assumption|].
    apply consistent_update_recipe; [|assumption].
    apply (neutral_set_output_dir (fun d => default_output_dir (target_name d))). }
  destruct (temp_dir recipe); [assumption|].
  apply consistent_update_recipe; [|assumption].
  apply (neutral_set_temp_dir
           (fun d => Some (storage_get_tmp_dir s2 (target_name d)))).
Qed.

Lemma consistent_run (fuel : nat) (s s' : Scheduler) (e : RebuildError) :
  scheduler_consistent s -> scheduler_run fuel s = Some (e, s') ->
  scheduler_consistent s'.
Proof.
  revert s. induction fuel as [|fuel IH]; intros s Hs Hrun; cbn [scheduler_run] in Hrun.
  - destruct (negb (queue_is_empty s) && negb (failed s)); [discriminate|].
    destruct (failed s); injection Hrun as <- <-; assumption.
  - destruct (negb (queue_is_empty s) && negb (failed s)).
    + destruct (ready_queue s) as [|r rest]; [now apply (IH s)|].
      assert (Hpop : scheduler_consistent (set_ready_queue s rest)) by exact Hs.
      destruct (state <$> recipes (set_ready_queue s rest) !! r) as [[| | | |]|];
        first [ now apply (IH _ Hpop)
              | apply (IH (scheduler_execute_recipe (set_ready_queue s rest) r));
                [now apply consistent_execute | assumption] ].
    + destruct (failed s); injection Hrun as <- <-; assumption.
Qed.

Lemma consistent_build (fs : FileSystem) (fuel : nat) (s s' : Scheduler)
    (target : string) (e : RebuildError) :
  scheduler_consistent s -> scheduler_build fs fuel s target = Some (e, s') ->
  scheduler_consistent s'.
Proof.
  intros Hs. unfold scheduler_build.
  pose proof (consistent_get_recipe s target Hs) as H1.
  destruct (scheduler_get_completed _ target).
  - now intros [= <- <-].
  - pose proof (consistent_check_cache fs _ target H1) as H2.
    destruct (scheduler_check_cache fs _ target) as [[|] s2]; cbn [snd] in H2.
    + now intros [= <- <-].
    + apply consistent_run. exact H2.
Qed.

(** Every reachable state is consistent. *)
Lemma reachable_consistent (s : Scheduler) : reachable s -> scheduler_consistent s.
Proof.
  induction 1.
  - intros n d Hn. cbn in Hn. now rewrite lookup_empty in Hn.
  - assumption.
  - now apply consistent_get_recipe.
  - unfold scheduler_consistent in *. cbn. auto with sched.
  - now apply consistent_check_cache.
  - now apply consistent_execute.
  - now apply consistent_setup.
  - now apply consistent_on_recipe_complete.
  - now apply consistent_depend.
  - apply consistent_update_recipe; auto with sched.
  - now apply consistent_resume.
  - eapply consistent_build; eassumption.
  - eapply consistent_run; eassumption.
Qed.
End ConsistentOps.

(** ** Dependency requests *)

Lemma state_after_get_recipe (s : Scheduler) (r target : string) :
  state <$> recipes (scheduler_get_recipe
                       (update_recipe s r (fun recipe => recipe_add_dependency recipe target))
                       target) !! target
  = Some (dependency_state s target).
Proof.
  unfold scheduler_get_recipe, dependency_state.
  destruct (decide (r = target)) as [->|Hne].
  - rewrite lookup_update_recipe.
    destruct (recipes s !! target) as [d|] eqn:E; cbn [fmap option_fmap option_map].
    + rewrite lookup_update_recipe, E. cbn [fmap option_fmap option_map].
      now rewrite state_after_add.
    + cbn [recipes set_recipes]. now rewrite lookup_insert_eq.
  - rewrite lookup_update_recipe_ne by assumption.
    destruct (recipes s !! target) as [d|] eqn:E.
    + now rewrite lookup_update_recipe_ne, E by assumption.
    + cbn [recipes set_recipes]. now rewrite lookup_insert_eq.
Qed.

Lemma requester_after_get_recipe (s : Scheduler) (r target : string) (recipe : Recipe) :
  recipes s !! r = Some recipe ->
  recipes (scheduler_get_recipe
             (update_recipe s r (fun recipe => recipe_add_dependency recipe target))
             target) !! r
  = Some (recipe_add_dependency recipe target).
Proof.
  intros Hr. unfold scheduler_get_recipe.
  destruct (decide (r = target)) as [->|Hne].
  - rewrite lookup_update_recipe, Hr. cbn [fmap option_fmap option_map].
    now rewrite lookup_update_recipe, Hr.
  - rewrite lookup_update_recipe_ne by assumption.
    destruct (recipes s !! target) as [d|] eqn:E.
    + now rewrite lookup_update_recipe, Hr.
    + cbn [recipes set_recipes]. rewrite lookup_insert_ne by congruence.
      now rewrite lookup_update_recipe, Hr.
Qed.

(** C6. A dependency request by recipe [r] for [target], in a consistent
    state, as every reachable state is, those in which the script of [r]
    runs and [r] or [target] is Running among them: [target] is added to
    the declared dependencies of [r]. When [completed] has [target], its
    path is returned and neither the state of [r], nor the waiters, nor the
    ready queue change. Otherwise nothing is returned, [r] becomes
    Suspended and is added to the waiters of [target], and the recipe of
    [target] is pushed onto the ready queue when it is Pending and not
    otherwise: not when it is Running, Suspended or Failed. *)
Theorem depend_request_effect `{Platform}
    (s : Scheduler) (r target : string) (recipe : Recipe) :
  scheduler_consistent s ->
  recipes s !! r = Some recipe ->
  let result := scheduler_on_depend_request s r target in
  (declared_deps <$> recipes (snd result) !! r
     = Some (snd (set_add (declared_deps recipe) target))
   /\ set_has (snd (set_add (declared_deps recipe) target)) target = true)
  /\ (forall path,
        completed s !! target = Some path ->
        fst result = Some path
        /\ state <$> recipes (snd result) !! r = Some (state recipe)
        /\ waiting (snd result) = waiting s
        /\ ready_queue (snd result) = ready_queue s)
  /\ (completed s !! target = None ->
        fst result = None
        /\ state <$> recipes (snd result) !! r = Some RECIPE_SUSPENDED
        /\ waiting (snd result) !! target
           = Some (r :: default [] (waiting s !! target))
        /\ (dependency_state s target = RECIPE_PENDING ->
            ready_queue (snd result) = ready_queue s ++ [target])
        /\ (dependency_state s target <> RECIPE_PENDING ->
            ready_queue (snd result) = ready_queue s)).
Proof.
  intros Hreach Hr result.
  assert (Hhas : set_has (snd (set_add (declared_deps recipe) target)) target = true).
  { destruct (Hreach r recipe Hr) as (_ & (_ & Hwf) & _).
    destruct (set_add_spec (declared_deps recipe) target Hwf) as (_ & Hwf' & Helem).
    apply set_has_spec; [assumption|]. apply Helem. now left. }
  subst result. unfold scheduler_on_depend_request.
  replace (scheduler_get_completed
             (update_recipe s r (fun recipe => recipe_add_dependency recipe target))
             target)
    with (completed s !! target) by reflexivity.
  destruct (completed s !! target) as [path|] eqn:Hdone.
  - cbn [fst snd]. rewrite lookup_update_recipe, Hr. cbn [fmap option_fmap option_map].
    rewrite declared_after_add, state_after_add.
    split; [now split|]. split; [|discriminate].
    intros p [= <-]. repeat split; reflexivity.
  - rewrite state_after_get_recipe.
    pose proof (requester_after_get_recipe s r target recipe Hr) as Hreq.
    set (s2 := scheduler_get_recipe _ target) in *.
    assert (Hwait : waiting s2 = waiting s).
    { subst s2. unfold scheduler_get_recipe. now destruct (recipes _ !! target). }
    assert (Hqueue : ready_queue s2 = ready_queue s).
    { subst s2. unfold scheduler_get_recipe. now destruct (recipes _ !! target). }
    assert (Hnot : dependency_state s target <> RECIPE_COMPLETE).
    { unfold dependency_state. destruct (recipes s !! target) as [d|] eqn:E; [|discriminate].
      intros Hst. destruct (Hreach target d E) as (_ & _ & Hpub).
      destruct (Hpub Hst) as [p Hp]. unfold scheduler_consistent in *. congruence. }
    assert (Hfinal : forall s3,
              recipes s3 = recipes (update_recipe s2 r (fun recipe =>
                                      recipe_set_state recipe RECIPE_SUSPENDED)) ->
              declared_deps <$> recipes s3 !! r
              = Some (snd (set_add (declared_deps recipe) target))
              /\ state <$> recipes s3 !! r = Some RECIPE_SUSPENDED).
    { intros s3 ->. rewrite lookup_update_recipe, Hreq.
      cbn [fmap option_fmap option_map recipe_set_state declared_deps state].
      now rewrite declared_after_add. }
    destruct (dependency_state s target) eqn:Hdep; try contradiction; cbn [fst snd].
    + destruct (Hfinal (queue_push (add_waiter (update_recipe s2 r (fun recipe =>
                  recipe_set_state recipe RECIPE_SUSPENDED)) target r) target) eq_refl)
        as [Hdecl Hstate].
      split; [now split|]. split; [discriminate|]. intros _.
      split; [reflexivity|]. split; [assumption|].
      cbn [waiting ready_queue queue_push add_waiter set_waiting set_ready_queue
           update_recipe set_recipes].
      rewrite lookup_insert_eq, Hwait, Hqueue. repeat split; congruence.
    + destruct (Hfinal (add_waiter (update_recipe s2 r (fun recipe =>
                  recipe_set_state recipe RECIPE_SUSPENDED)) target r) eq_refl)
        as [Hdecl Hstate].
      split; [now split|]. split; [discriminate|]. intros _.
      split; [reflexivity|]. split; [assumption|].
      cbn [waiting ready_queue add_waiter set_waiting update_recipe set_recipes].
      rewrite lookup_insert_eq, Hwait, Hqueue. repeat split; congruence.
    + destruct (Hfinal (add_waiter (update_recipe s2 r (fun recipe =>
                  recipe_set_state recipe RECIPE_SUSPENDED)) target r) eq_refl)
        as [Hdecl Hstate].
      split; [now split|]. split; [discriminate|]. intros _.
      split; [reflexivity|]. split; [assumption|].
      cbn [waiting ready_queue add_waiter set_waiting update_recipe set_recipes].
      rewrite lookup_insert_eq, Hwait, Hqueue. repeat split; congruence.
    + destruct (Hfinal (add_waiter (update_recipe s2 r (fun recipe =>
                  recipe_set_state recipe RECIPE_SUSPENDED)) target r) eq_refl)
        as [Hdecl Hstate].
      split; [now split|]. split; [discriminate|]. intros _.
      split; [reflexivity|]. split; [assumption|].
      cbn [waiting ready_queue add_waiter set_waiting update_recipe set_recipes].
      rewrite lookup_insert_eq, Hwait, Hqueue. repeat split; congruence.
Qed.

Lemma depend_request_effect_witness :
  (scheduler_consistent running_scheduler
   /\ state <$> recipes running_scheduler !! "app" = Some RECIPE_RUNNING
   /\ completed running_scheduler !! "lib" = None
   /\ completed running_scheduler !! "app" = None)
  /\ (fst (scheduler_on_depend_request running_scheduler "app" "lib") = None
      /\ state <$> recipes (snd (scheduler_on_depend_request running_scheduler "app" "lib"))
                     !! "app"
         = Some RECIPE_SUSPENDED
      /\ waiting (snd (scheduler_on_depend_request running_scheduler "app" "lib")) !! "lib"
         = Some ["app"]
      /\ ready_queue (snd (scheduler_on_depend_request running_scheduler "app" "lib"))
         = ["lib"])
  /\ (fst (scheduler_on_depend_request running_scheduler "app" "app") = None
      /\ state <$> recipes (snd (scheduler_on_depend_request running_scheduler "app" "app"))
                     !! "app"
         = Some RECIPE_SUSPENDED
      /\ waiting (snd (scheduler_on_depend_request running_scheduler "app" "app")) !! "app"
         = Some ["app"]
      /\ ready_queue (snd (scheduler_on_depend_request running_scheduler "app" "app"))
         = []).
Proof.
  assert (Hcons : scheduler_consistent running_scheduler).
  { apply (@reachable_consistent test_platform).
    apply reach_setup, reach_get_recipe, reach_create. }
  pose (recipe := default (recipe_create "app") (recipes running_scheduler !! "app")).
  assert (Hrecipe : recipes running_scheduler !! "app" = Some recipe)
    by (vm_compute; reflexivity).
  assert (Hlib : completed running_scheduler !! "lib" = None) by (vm_compute; reflexivity).
  assert (Happ : completed running_scheduler !! "app" = None) by (vm_compute; reflexivity).
  split.
  { split; [exact Hcons|]. split; [vm_compute; reflexivity|]. split; assumption. }
  split.
  - destruct (@depend_request_effect test_platform running_scheduler "app" "lib"
                recipe Hcons Hrecipe)
      as (_ & _ & Hsuspend).
    destruct (Hsuspend Hlib) as (Hret & Hsusp & Hwait & Hpush & _).
    split; [exact Hret|]. split; [exact Hsusp|].
    split; [etrans; [exact Hwait | vm_compute; reflexivity]|].
    etrans; [apply Hpush; vm_compute; reflexivity | vm_compute; reflexivity].
  - destruct (@depend_request_effect test_platform running_scheduler "app" "app"
                recipe Hcons Hrecipe)
      as (_ & _ & Hsuspend).
    destruct (Hsuspend Happ) as (Hret & Hsusp & Hwait & _ & Hkeep).
    split; [exact Hret|]. split; [exact Hsusp|].
    split; [etrans; [exact Hwait | vm_compute; reflexivity]|].
    etrans; [apply Hkeep; vm_compute; discriminate | vm_compute; reflexivity].
Defined.

(** ** Failure *)

Lemma same_outcome_refl (s : Scheduler) : same_outcome s s.
Proof. repeat split. Qed.

Lemma same_outcome_trans (s1 s2 s3 : Scheduler) :
  same_outcome s1 s2 -> same_outcome s2 s3 -> same_outcome s1 s3.
Proof. unfold same_outcome. intuition congruence. Qed.

Lemma depend_request_outcome (s : Scheduler) (r target : string) :
  same_outcome s (snd (scheduler_on_depend_request s r target)).
Proof.
  unfold scheduler_on_depend_request.
  destruct (scheduler_get_completed _ target); [repeat split|].
  set (s2 := scheduler_get_recipe _ target).
  assert (H2 : same_outcome s s2).
  { subst s2. unfold scheduler_get_recipe. destruct (recipes _ !! target); repeat split. }
  destruct (state <$> recipes s2 !! target) as [[| | | |]|]; exact H2.
Qed.

Lemma depend_request_keeps (s : Scheduler) (r target n : string) :
  is_Some (recipes s !! n) ->
  is_Some (recipes (snd (scheduler_on_depend_request s r target)) !! n).
Proof.
  intros Hn. unfold scheduler_on_depend_request.
  set (s1 := update_recipe s r _).
  assert (H1 : is_Some (recipes s1 !! n)).
  { subst s1. cbn. now apply lookup_alter_is_Some. }
  destruct (scheduler_get_completed s1 target); [assumption|].
  set (s2 := scheduler_get_recipe s1 target).
  assert (H2 : is_Some (recipes s2 !! n)).
  { subst s2. unfold scheduler_get_recipe.
    destruct (recipes s1 !! target) eqn:E; [assumption|]. cbn.
    apply lookup_insert_is_Some'. now right. }
  destruct (state <$> recipes s2 !! target) as [[| | | |]|]; cbn;
    try assumption; now apply lookup_alter_is_Some.
Qed.

Lemma run_fiber_outcome (f : Fiber) (r : string) (s : Scheduler) :
  same_outcome s (snd (run_fiber f r s)).
Proof.
  revert s. induction f as [status|target k IH|path k IH]; intros s; cbn [run_fiber].
  - apply same_outcome_refl.
  - pose proof (depend_request_outcome s r target) as Hd.
    destruct (scheduler_on_depend_request s r target) as [path s'].
    eapply same_outcome_trans; [exact Hd | apply IH].
  - eapply same_outcome_trans; [|apply IH]. repeat split.
Qed.

Lemma run_fiber_keeps (f : Fiber) (r n : string) (s : Scheduler) :
  is_Some (recipes s !! n) -> is_Some (recipes (snd (run_fiber f r s)) !! n).
Proof.
  revert s. induction f as [status|target k IH|path k IH]; intros s Hn; cbn [run_fiber].
  - assumption.
  - pose proof (depend_request_keeps s r target n Hn) as Hd.
    destruct (scheduler_on_depend_request s r target) as [path s']. now apply IH.
  - apply IH. cbn. now apply lookup_alter_is_Some.
Qed.

Section FailureFacts.
Context `{Platform}.

Lemma notify_all_outcome (waiters : list string) (s : Scheduler) :
  same_outcome s (waiter_list_notify_all waiters s).
Proof.
  unfold waiter_list_notify_all. revert s.
  induction waiters as [|w waiters IH]; intros s; cbn [fold_left].
  - apply same_outcome_refl.
  - eapply same_outcome_trans; [|apply IH]. repeat split.
Qed.

Lemma complete_success_outcome (s : Scheduler) (r : string) :
  failed (scheduler_on_recipe_complete s r true) = failed s
  /\ target_error (scheduler_on_recipe_complete s r true) = target_error s
  /\ executed (scheduler_on_recipe_complete s r true) = executed s.
Proof.
  unfold scheduler_on_recipe_complete.
  destruct (recipes s !! r) as [recipe|]; [|repeat split].
  cbn [now_ms]. set (s1 := scheduler_mark_completed _ _ _).
  assert (H1 : same_outcome s s1) by repeat split.
  destruct (waiting s1 !! target_name recipe) as [waiters|]; [|exact H1].
  pose proof (notify_all_outcome waiters s1) as H2.
  destruct H1 as (? & ? & ?), H2 as (? & ? & ?). cbn. repeat split; congruence.
Qed.

Lemma complete_failure_effect (s : Scheduler) (r : string) (recipe : Recipe) :
  recipes s !! r = Some recipe ->
  scheduler_on_recipe_complete s r false
  = set_failure
      (update_recipe (tick (set_active_count s (active_count s - 1))) r
         (fun recipe => recipe_set_state recipe RECIPE_FAILED))
      (target_name recipe).
Proof. intros Hr. unfold scheduler_on_recipe_complete. now rewrite Hr. Qed.

(** What one execution does to the outcome of the build. *)
Lemma execute_outcome (s : Scheduler) (r : string) :
  (failed (scheduler_execute_recipe s r) = failed s
   /\ target_error (scheduler_execute_recipe s r) = target_error s
   /\ exists done, executed (scheduler_execute_recipe s r) = executed s ++ done)
  \/ (failed (scheduler_execute_recipe s r) = true
      /\ executed (scheduler_execute_recipe s r) = executed s ++ [r]
      /\ state <$> recipes (scheduler_execute_recipe s r) !! r = Some RECIPE_FAILED
      /\ target_error (scheduler_execute_recipe s r)
         = target_name <$> recipes (scheduler_execute_recipe s r) !! r).
Proof.
  unfold scheduler_execute_recipe.
  destruct (recipes s !! r) as [recipe|] eqn:Hr.
  2:{ left. repeat split. exists []. now rewrite app_nil_r. }
  cbn [now_ms].
  set (s1 := update_recipe (tick _) r _).
  set (s2 := match output_dir recipe with None => _ | Some _ => s1 end).
  set (s3 := match temp_dir recipe with None => _ | Some _ => s2 end).
  assert (H3 : failed s3 = failed s /\ target_error s3 = target_error s
               /\ executed s3 = executed s ++ [r]).
  { subst s3 s2 s1. destruct (temp_dir recipe), (output_dir recipe); repeat split. }
  assert (K3 : is_Some (recipes s3 !! r)).
  { subst s3 s2 s1. destruct (temp_dir recipe), (output_dir recipe); cbn;
      repeat apply lookup_alter_is_Some; eauto. }
  clearbody s3. clear s1 s2.
  assert (Hfail : forall s4, same_outcome s3 s4 -> is_Some (recipes s4 !! r) ->
            failed (scheduler_on_recipe_complete s4 r false) = true
            /\ executed (scheduler_on_recipe_complete s4 r false) = executed s ++ [r]
            /\ state <$> recipes (scheduler_on_recipe_complete s4 r false) !! r
               = Some RECIPE_FAILED
            /\ target_error (scheduler_on_recipe_complete s4 r false)
               = target_name <$> recipes (scheduler_on_recipe_complete s4 r false) !! r).
  { intros s4 (_ & _ & Hlog) [d Hd].
    rewrite (complete_failure_effect s4 r d Hd). cbn.
    rewrite lookup_alter_eq, Hd. cbn. repeat split. rewrite Hlog. apply H3. }
  assert (Hok : forall s4, same_outcome s3 s4 ->
            failed (scheduler_on_recipe_complete s4 r true) = failed s
            /\ target_error (scheduler_on_recipe_complete s4 r true) = target_error s
            /\ exists done,
                 executed (scheduler_on_recipe_complete s4 r true) = executed s ++ done).
  { intros s4 (Hf & Ht & Hlog).
    destruct (complete_success_outcome s4 r) as (Hf' & Ht' & Hlog').
    destruct H3 as (Hf3 & Ht3 & Hlog3).
    repeat split; [congruence | congruence |].
    exists [r]. congruence. }
  destruct (umka s3) as [script|], (registry s3) as [reg|];
    try (right; apply Hfail; [apply same_outcome_refl | assumption]).
  destruct (target_registry_get reg (target_name recipe)) as [target|];
    [|right; apply Hfail; [apply same_outcome_refl | assumption]].
  destruct (umka_create_fiber script (function_name target)) as [fiber|];
    [|right; apply Hfail; [apply same_outcome_refl | assumption]].
  pose proof (run_fiber_outcome fiber r s3) as H4.
  pose proof (run_fiber_keeps fiber r r s3 K3) as K4.
  destruct (run_fiber fiber r s3) as [status s4]. cbn [snd] in H4, K4.
  destruct status; first [ left; now apply Hok | right; now apply Hfail ].
Qed.

Lemma run_after_failure (fuel : nat) (s : Scheduler) :
  failed s = true -> scheduler_run fuel s = Some (REBUILD_ERROR_EXEC, s).
Proof.
  intros Hf. destruct fuel; cbn [scheduler_run]; now rewrite Hf, andb_false_r.
Qed.

(** A run that starts without a failure ends without one, or right after
    the execution that failed. *)
Lemma run_outcome (fuel : nat) (s0 s1 : Scheduler) (e : RebuildError) :
  failed s0 = false ->
  scheduler_run fuel s0 = Some (e, s1) ->
  (failed s1 = false /\ e = REBUILD_OK)
  \/ (failed s1 = true /\ e = REBUILD_ERROR_EXEC
      /\ exists earlier t,
           executed s1 = executed s0 ++ earlier ++ [t]
           /\ state <$> recipes s1 !! t = Some RECIPE_FAILED
           /\ target_error s1 = target_name <$> recipes s1 !! t).
Proof.
  revert s0. induction fuel as [|fuel IH]; intros s0 Hf Hrun; cbn [scheduler_run] in Hrun.
  - rewrite Hf in Hrun. destruct (negb (queue_is_empty s0)); cbn in Hrun; [discriminate|].
    injection Hrun as <- <-. now left.
  - rewrite Hf in Hrun. destruct (negb (queue_is_empty s0)); cbn [andb negb] in Hrun.
    2:{ injection Hrun as <- <-. now left. }
    destruct (ready_queue s0) as [|r rest]; [now apply (IH s0)|].
    set (s := set_ready_queue s0 rest) in *.
    assert (Hskip : scheduler_run fuel s = Some (e, s1) ->
              (failed s1 = false /\ e = REBUILD_OK)
              \/ (failed s1 = true /\ e = REBUILD_ERROR_EXEC
                  /\ exists earlier t,
                       executed s1 = executed s0 ++ earlier ++ [t]
                       /\ state <$> recipes s1 !! t = Some RECIPE_FAILED
                       /\ target_error s1 = target_name <$> recipes s1 !! t)).
    { intros Hrun'. apply (IH s); [exact Hf | exact Hrun']. }
    assert (Hexec : scheduler_run fuel (scheduler_execute_recipe s r) = Some (e, s1) ->
              (failed s1 = false /\ e = REBUILD_OK)
              \/ (failed s1 = true /\ e = REBUILD_ERROR_EXEC
                  /\ exists earlier t,
                       executed s1 = executed s0 ++ earlier ++ [t]
                       /\ state <$> recipes s1 !! t = Some RECIPE_FAILED
                       /\ target_error s1 = target_name <$> recipes s1 !! t)).
    { intros Hrun'.
      destruct (execute_outcome s r) as [(Hf' & _ & done & Hlog)|(Hf' & Hlog & Hst & Herr)].
      - destruct (IH _ (eq_trans Hf' Hf) Hrun') as [Hok|(Hf1 & He & earlier & t & Hl & Hs & Ht)];
          [now left|].
        right. repeat split; [assumption..|].
        exists (done ++ earlier), t. rewrite Hl, Hlog.
        repeat split; [now rewrite <- !app_assoc | assumption..].
      - rewrite (run_after_failure fuel _ Hf') in Hrun'. injection Hrun' as <- <-.
        right. repeat split; [assumption|].
        exists [], r. repeat split; assumption. }
    destruct (state <$> recipes s !! r) as [[| | | |]|]; auto.
Qed.
End FailureFacts.

(** C7. When a recipe fails, [scheduler_on_recipe_complete] marks it
    Failed, sets the failure flag and records its name, and resumes no
    waiter: the waiters, the ready queue and the other recipes are as
    before. From then on [scheduler_run] executes nothing: it leaves the
    state as it is and returns the build failure. And a run that starts
    without a failure and ends with one stopped right after the execution
    that failed: that recipe is the last one executed, and the failed target
    the scheduler names is its own. *)
Theorem failure_stops_the_build `{Platform}
    (s : Scheduler) (r : string) (recipe : Recipe) :
  recipes s !! r = Some recipe ->
  let s' := scheduler_on_recipe_complete s r false in
  (state <$> recipes s' !! r = Some RECIPE_FAILED
   /\ failed s' = true
   /\ target_error s' = Some (target_name recipe))
  /\ (waiting s' = waiting s
      /\ ready_queue s' = ready_queue s
      /\ executed s' = executed s
      /\ forall w, w <> r -> recipes s' !! w = recipes s !! w)
  /\ (forall fuel, scheduler_run fuel s' = Some (REBUILD_ERROR_EXEC, s'))
  /\ (forall s0 fuel e s1,
        failed s0 = false ->
        scheduler_run fuel s0 = Some (e, s1) ->
        (failed s1 = false /\ e = REBUILD_OK)
        \/ (failed s1 = true /\ e = REBUILD_ERROR_EXEC
            /\ exists earlier t,
                 executed s1 = executed s0 ++ earlier ++ [t]
                 /\ state <$> recipes s1 !! t = Some RECIPE_FAILED
                 /\ target_error s1 = target_name <$> recipes s1 !! t)).
Proof.
  intros Hr s'. subst s'. rewrite (complete_failure_effect s r recipe Hr).
  split; [|split; [|split]].
  - cbn. rewrite lookup_alter_eq, Hr. repeat split.
  - cbn. repeat split. intros w Hw. now apply lookup_alter_ne.
  - intros fuel. now apply run_after_failure.
  - intros s0 fuel e s1. apply run_outcome.
Qed.

Lemma failure_stops_the_build_witness :
  state <$> recipes (@scheduler_on_recipe_complete test_platform waiting_scheduler
                       "lib" false) !! "lib"
  = Some RECIPE_FAILED
  /\ target_error (@scheduler_on_recipe_complete test_platform waiting_scheduler
                     "lib" false) = Some "lib"
  /\ waiting (@scheduler_on_recipe_complete test_platform waiting_scheduler "lib" false)
       !! "lib" = Some ["app"]
  /\ @scheduler_run test_platform 5
       (@scheduler_on_recipe_complete test_platform waiting_scheduler "lib" false)
     = Some (REBUILD_ERROR_EXEC,
             @scheduler_on_recipe_complete test_platform waiting_scheduler "lib" false).
Proof.
  destruct (@failure_stops_the_build test_platform waiting_scheduler "lib"
              (recipe_create "lib") eq_refl)
    as ((Hstate & _ & Herror) & (Hwait & _) & Hrun & _).
  split; [exact Hstate|]. split; [exact Herror|]. split; [|exact (Hrun 5%nat)].
  rewrite Hwait. reflexivity.
Defined.

(** ** What a completed recipe leaves behind *)

Section CompletionFacts.
Context `{Platform}.

Lemma notify_all_frame (waiters : list string) (s : Scheduler) :
  storage (waiter_list_notify_all waiters s) = storage s
  /\ forall n, pending_deps <$> recipes (waiter_list_notify_all waiters s) !! n
               = pending_deps <$> recipes s !! n.
Proof.
  unfold waiter_list_notify_all. revert s.
  induction waiters as [|w waiters IH]; intros s; cbn [fold_left]; [now split|].
  destruct (IH (scheduler_resume_recipe s w)) as [Hst Hrec].
  split; [now rewrite Hst|].
  intros n. rewrite Hrec. unfold scheduler_resume_recipe. cbn.
  destruct (decide (w = n)) as [->|Hne].
  - rewrite lookup_alter_eq. destruct (recipes s !! n) as [d|]; [|reflexivity].
    cbn. now destruct (state d).
  - now rewrite lookup_alter_ne.
Qed.

Lemma to_uint64_range (v : Z) : is_uint64 (to_uint64 v).
Proof.
  unfold is_uint64, to_uint64, UINT64_MAX.
  pose proof (Z.mod_pos_bound v (2 ^ 64) ltac:(lia)). lia.
Qed.

Lemma completion_trace_round_trip (recipe : Recipe) (v : Z) (st : Storage) :
  trace_load (request_key recipe)
    (snd (trace_save (completion_trace recipe (to_uint64 v)) st))
  = Some (completion_trace recipe (to_uint64 v)).
Proof.
  apply (trace_save_load_round_trip_lemma (completion_trace recipe (to_uint64 v)) st).
  - split; [apply List.Forall_nil|].
    split; [unfold dep_count, UINT64_MAX; cbn; lia|].
    split; apply to_uint64_range.
  - apply List.Forall_nil.
Qed.
End CompletionFacts.

(** C1 (what the code does). Whatever dependencies a recipe has declared,
    the trace [scheduler_on_recipe_complete] saves for it on success records
    none, and its output tree hash is the hash of the empty byte sequence:
    a later [trace_load] of the recipe's request key returns exactly that
    trace. *)
Theorem completion_saves_trace_without_dependencies `{Platform}
    (s : Scheduler) (r : string) (recipe : Recipe) :
  recipes s !! r = Some recipe ->
  exists elapsed,
    trace_load (request_key recipe) (storage (scheduler_on_recipe_complete s r true))
    = Some (mkTrace (request_key recipe) [] (hash_data []) elapsed elapsed).
Proof.
  intros Hr. unfold scheduler_on_recipe_complete. rewrite Hr. cbn [now_ms].
  eexists.
  set (s1 := scheduler_mark_completed _ _ _).
  assert (H1 : trace_load (request_key recipe) (storage s1)
               = Some (completion_trace recipe
                         (to_uint64 (to_uint64 (uv_hrtime (clock_reads s)) / 1000000
                                     - start_time recipe)))).
  { subst s1. cbn [storage scheduler_mark_completed set_completed set_storage].
    apply completion_trace_round_trip. }
  destruct (waiting s1 !! target_name recipe) as [waiters|].
  - cbn [storage set_waiting].
    rewrite (proj1 (notify_all_frame waiters s1)). exact H1.
  - exact H1.
Qed.

Lemma completion_saves_trace_without_dependencies_witness :
  (set_iterate ∘ declared_deps) <$> recipes registered_scheduler !! "app"
  = Some ["gen.h"]
  /\ exists elapsed,
       trace_load hash_zero
         (storage (@scheduler_on_recipe_complete test_platform registered_scheduler
                     "app" true))
       = Some (mkTrace hash_zero [] (@hash_data test_platform []) elapsed elapsed).
Proof.
  split; [vm_compute; reflexivity|].
  apply (@completion_saves_trace_without_dependencies test_platform
           registered_scheduler "app"
           (recipe_add_dependency (recipe_create "app") "gen.h")).
  reflexivity.
Defined.

(** C2 (what the code does). The request key the cache probe computes and
    stores is the hash of the target name alone: neither the recipe code,
    nor the declared dependencies, nor any tool takes part in it. *)
Theorem probe_key_is_hash_of_target_name `{Platform}
    (fs : FileSystem) (s : Scheduler) (r : string) (recipe : Recipe) :
  recipes s !! r = Some recipe ->
  request_key <$> recipes (snd (scheduler_check_cache fs s r)) !! r
  = Some (hash_data (str_bytes (target_name recipe))).
Proof.
  intros Hr. unfold scheduler_check_cache. rewrite Hr.
  set (s1 := update_recipe s r _).
  assert (H1 : request_key <$> recipes s1 !! r
               = Some (hash_data (str_bytes (target_name recipe)))).
  { subst s1. now rewrite lookup_update_recipe, Hr. }
  destruct (trace_load _ (storage s1)) as [trace|]; [|exact H1].
  destruct (trace_validate fs trace); [|exact H1].
  cbn [snd scheduler_mark_completed recipes set_completed].
  rewrite lookup_update_recipe.
  destruct (recipes s1 !! r) as [d|]; [|discriminate]. cbn in *. exact H1.
Qed.

Lemma probe_key_is_hash_of_target_name_witness :
  request_key <$> recipes (snd (@scheduler_check_cache test_platform empty_fs
                                  registered_scheduler "app")) !! "app"
  = Some (@hash_data test_platform (str_bytes "app"))
  /\ @hash_data test_platform (str_bytes "app")
     <> request_key (@recipe_compute_request_key test_platform
                       (recipe_add_dependency (recipe_create "app") "gen.h") hash_zero).
Proof.
  split.
  - apply (@probe_key_is_hash_of_target_name test_platform empty_fs
             registered_scheduler "app"
             (recipe_add_dependency (recipe_create "app") "gen.h")).
    reflexivity.
  - intros Heq. apply (f_equal hash_bytes) in Heq. vm_compute in Heq. discriminate Heq.
Defined.

(** C8 (what the code does). In every reachable state the pending
    dependencies of a recipe are among its declared ones. But nothing removes
    a pending dependency: a recipe that registered "gen.h" and then completed
    is Complete with "gen.h" still pending. *)
Theorem complete_recipe_keeps_pending_deps `{Platform} :
  (forall s, reachable s ->
     forall n d, recipes s !! n = Some d ->
       forall x, x ∈ set_iterate (pending_deps d) -> x ∈ set_iterate (declared_deps d))
  /\ reachable (scheduler_on_recipe_complete registered_scheduler "app" true)
  /\ state <$> recipes (scheduler_on_recipe_complete registered_scheduler "app" true)
               !! "app"
     = Some RECIPE_COMPLETE
  /\ (set_iterate ∘ pending_deps)
       <$> recipes (scheduler_on_recipe_complete registered_scheduler "app" true) !! "app"
     = Some ["gen.h"].
Proof.
  split; [|split; [|split]].
  - intros s Hs n d Hn x Hx. apply reachable_consistent in Hs.
    destruct (Hs n d Hn) as (_ & (<- & _) & _). exact Hx.
  - apply reach_complete, reach_register_dep, reach_get_recipe, reach_create.
  - vm_compute. reflexivity.
  - vm_compute. reflexivity.
Qed.

(** ** The hash set with tombstones *)

Lemma entry_ok_lookup (es : list SetEntry) (j : nat) (e : SetEntry) :
  Forall entry_ok es -> es !! j = Some e -> entry_ok e.
Proof.
  intros Hall Hj. rewrite List.Forall_forall in Hall. apply Hall.
  apply list_elem_of_In, list_elem_of_lookup. eauto.
Qed.

(** The search of [set_find_entry] for a value of the table: tombstones on
    the way do not stop it. *)
Lemma find_loop_found (es : list SetEntry) (cap h : nat) (v : string) (k0 : nat) :
  Forall entry_ok es -> length es = cap -> (0 < cap)%nat -> (k0 < cap)%nat ->
  holds es (probe cap h k0) v ->
  forall fuel i tombstone,
    (i + fuel = cap)%nat -> (i <= k0)%nat ->
    (forall k', (i <= k' < k0)%nat ->
       ~ unused es (probe cap h k') /\ ~ holds es (probe cap h k') v) ->
    find_loop es cap h v tombstone i fuel = Some (probe cap h k0).
Proof.
  intros Hshape Hlen Hcap Hk0 Hv.
  induction fuel as [|fuel IH]; intros i tombstone Hfuel Hi Hrun; [lia|].
  cbn [find_loop]. fold (probe cap h i).
  assert (Hp : (probe cap h i < length es)%nat) by (rewrite Hlen; now apply probe_lt).
  apply lookup_lt_is_Some in Hp as [e He]. rewrite He.
  destruct (decide (i = k0)) as [->|Hne].
  - unfold holds in Hv. rewrite He in Hv. cbn in Hv. unfold slot_value in Hv.
    destruct (occupied e); [|discriminate]. cbn.
    now rewrite bool_decide_eq_true_2.
  - destruct (Hrun i ltac:(lia)) as [Hused Hother].
    assert (Hnext : forall t, find_loop es cap h v t (S i) fuel = Some (probe cap h k0)).
    { intros t. apply IH; [lia.. |]. intros k' Hk'. apply Hrun. lia. }
    destruct (entry_ok_lookup es _ e Hshape He) as [->|[[w ->]|[w ->]]]; cbn.
    + now contradict Hused.
    + rewrite bool_decide_eq_false_2; [apply Hnext|].
      intros [= ->]. apply Hother. unfold holds. now rewrite He.
    + apply Hnext.
Qed.

(** The search for a value that is not in the table: it ends at a slot
    that is not occupied, the first tombstone on the way or else the first
    slot never used, and no slot probed before that one was never used. *)
Lemma find_loop_absent (es : list SetEntry) (cap h : nat) (v : string) :
  Forall entry_ok es -> length es = cap -> (0 < cap)%nat ->
  (forall j, ~ holds es j v) ->
  forall fuel i,
    (i + fuel = cap)%nat ->
    (forall t, find_loop es cap h v (Some t) i fuel = Some t)
    /\ match find_loop es cap h v None i fuel with
       | Some j =>
           exists k e, (i <= k < cap)%nat /\ j = probe cap h k
                       /\ es !! j = Some e /\ occupied e = false
                       /\ forall k', (i <= k' < k)%nat -> ~ unused es (probe cap h k')
       | None =>
           forall k', (i <= k' < cap)%nat ->
             exists w, es !! probe cap h k' = Some (value_entry w)
       end.
Proof.
  intros Hshape Hlen Hcap Habsent.
  induction fuel as [|fuel IH]; intros i Hfuel; cbn [find_loop].
  - split; [reflexivity|]. intros k' Hk'. lia.
  - fold (probe cap h i).
    assert (Hp : (probe cap h i < length es)%nat) by (rewrite Hlen; now apply probe_lt).
    apply lookup_lt_is_Some in Hp as [e He]. rewrite He.
    destruct (IH (S i) ltac:(lia)) as [IHsome IHnone].
    destruct (entry_ok_lookup es _ e Hshape He) as [->|[[w ->]|[w ->]]]; cbn.
    + split; [reflexivity|].
      exists i, empty_entry. repeat split; [lia.. | assumption |]. intros k' Hk'. lia.
    + assert (Hne : w <> v).
      { intros ->. apply (Habsent (probe cap h i)). unfold holds. now rewrite He. }
      rewrite bool_decide_eq_false_2 by congruence.
      split; [exact IHsome|].
      destruct (find_loop es cap h v None (S i) fuel) as [j|].
      * destruct IHnone as (k & e & Hk & -> & Hj & Hocc & Hrun).
        exists k, e. repeat split; [lia.. | assumption | assumption |].
        intros k' Hk'. destruct (decide (k' = i)) as [->|]; [|apply Hrun; lia].
        unfold unused. rewrite He. discriminate.
      * intros k' Hk'. destruct (decide (k' = i)) as [->|]; [eauto | apply IHnone; lia].
    + split; [exact IHsome|]. rewrite IHsome.
      exists i, (tombstone_entry w). repeat split; [lia.. | assumption |].
      intros k' Hk'. lia.
Qed.

Lemma find_inv_present (es : list SetEntry) (cap j : nat) (v : string) :
  table_inv es cap -> (0 < cap)%nat -> holds es j v ->
  set_find_entry es cap v = Some j.
Proof.
  intros (Hlen & Hshape & Hpath & Huniq) Hcap Hj.
  pose proof (home_slot_lt cap v Hcap) as Hh.
  destruct (Hpath j v Hj) as (k0 & Hk0 & Hp0 & Hrun0).
  unfold set_find_entry. rewrite <- Hp0.
  apply find_loop_found; try assumption; try lia.
  - now rewrite Hp0.
  - intros k' Hk'. split; [apply Hrun0; lia|].
    intros Hv. rewrite <- Hp0 in Hj. specialize (Huniq _ _ v Hv Hj).
    apply probe_inj in Huniq; lia.
Qed.

Lemma slot_used_value (es : list SetEntry) (j : nat) (w : string) :
  es !! j = Some (value_entry w) -> exists e, es !! j = Some e /\ slot_used e = true.
Proof. intros Hj. exists (value_entry w). now split. Qed.

Lemma used_slots_le (es : list SetEntry) : (used_slots es <= length es)%nat.
Proof. unfold used_slots. apply List.filter_length_le. Qed.

Lemma used_slots_full (es : list SetEntry) :
  (forall j, (j < length es)%nat -> exists e, es !! j = Some e /\ slot_used e = true) ->
  used_slots es = length es.
Proof.
  unfold used_slots. induction es as [|e es IH]; intros Hfull; [reflexivity|].
  destruct (Hfull 0%nat ltac:(cbn; lia)) as (e' & [= <-] & Hused).
  cbn [List.filter]. rewrite Hused. cbn [length]. f_equal. apply IH.
  intros j Hj. apply (Hfull (S j)). cbn. lia.
Qed.

(** With a slot left that was never used, a value that is not in the table
    is sent to a slot that is free for it. *)
Lemma find_inv_absent (es : list SetEntry) (cap : nat) (v : string) :
  table_inv es cap -> (0 < cap)%nat -> (used_slots es < cap)%nat ->
  (forall j, ~ holds es j v) ->
  exists j k e, set_find_entry es cap v = Some j
                /\ es !! j = Some e /\ occupied e = false
                /\ (k < cap)%nat /\ probe cap (home_slot cap v) k = j
                /\ forall k', (k' < k)%nat ->
                     ~ unused es (probe cap (home_slot cap v) k').
Proof.
  intros (Hlen & Hshape & Hpath & Huniq) Hcap Hroom Habsent.
  pose proof (home_slot_lt cap v Hcap) as Hh.
  destruct (find_loop_absent es cap (home_slot cap v) v Hshape Hlen Hcap Habsent cap 0
              eq_refl) as [_ Hspec].
  unfold set_find_entry. destruct (find_loop _ _ _ _ _ _ _) as [j|].
  - destruct Hspec as (k & e & Hk & -> & Hj & Hocc & Hrun).
    exists (probe cap (home_slot cap v) k), k, e.
    repeat split; [assumption.. | lia |]. intros k' Hk'. apply Hrun. lia.
  - exfalso. assert (Hfull : used_slots es = length es).
    { apply used_slots_full. intros j Hj. rewrite Hlen in Hj.
      destruct (probe_surj cap (home_slot cap v) j Hh Hj) as (k & Hk & <-).
      destruct (Hspec k ltac:(lia)) as [w Hw]. now apply (slot_used_value es _ w). }
    lia.
Qed.

(** Whatever room is left, the search for a value that is not in the table
    never ends at an occupied slot. *)
Lemma find_inv_absent_free (es : list SetEntry) (cap : nat) (v : string) :
  table_inv es cap -> (0 < cap)%nat -> (forall j, ~ holds es j v) ->
  match set_find_entry es cap v with
  | Some j => exists e, es !! j = Some e /\ occupied e = false
  | None => True
  end.
Proof.
  intros (Hlen & Hshape & _) Hcap Habsent.
  destruct (find_loop_absent es cap (home_slot cap v) v Hshape Hlen Hcap Habsent cap 0
              eq_refl) as [_ Hspec].
  unfold set_find_entry. destruct (find_loop _ _ _ _ _ _ _) as [j|]; [|exact I].
  destruct Hspec as (k & e & _ & _ & Hj & Hocc & _). eauto.
Qed.

(** Writing a value into a slot that is not occupied adds that value, and
    nothing else moves. *)
Lemma iterate_insert_free (es : list SetEntry) (j : nat) (e : SetEntry) (v : string) :
  es !! j = Some e -> occupied e = false ->
  iterate_entries (<[j := value_entry v]> es) ≡ₚ v :: iterate_entries es.
Proof.
  intros Hj Hocc.
  assert (Hlt : (j < length es)%nat) by (apply lookup_lt_is_Some; eauto).
  rewrite insert_take_drop by assumption.
  rewrite <- (take_drop_middle es j e Hj) at 3.
  assert (He : slot_value e = None) by (unfold slot_value; now rewrite Hocc).
  unfold iterate_entries. rewrite !omap_app. cbn [omap list_omap]. rewrite He.
  cbn. now rewrite Permutation_middle.
Qed.

(** Turning the slot of a value into a tombstone takes that value away. *)
Lemma iterate_tombstone (es : list SetEntry) (j : nat) (e : SetEntry) (v : string) :
  es !! j = Some e -> slot_value e = Some v ->
  iterate_entries es ≡ₚ v :: iterate_entries (<[j := mkEntry (value e) false]> es).
Proof.
  intros Hj Hv.
  assert (Hlt : (j < length es)%nat) by (apply lookup_lt_is_Some; eauto).
  rewrite insert_take_drop by assumption.
  rewrite <- (take_drop_middle es j e Hj) at 1.
  unfold iterate_entries. rewrite !omap_app. cbn [omap list_omap]. rewrite Hv.
  cbn. now rewrite Permutation_middle.
Qed.

Lemma holds_tombstone (es : list SetEntry) (j j' : nat) (e : SetEntry) (w : string) :
  es !! j = Some e ->
  holds (<[j := mkEntry (value e) false]> es) j' w <-> j' <> j /\ holds es j' w.
Proof.
  intros Hj.
  assert (Hlt : (j < length es)%nat) by (apply lookup_lt_is_Some; eauto).
  unfold holds. destruct (decide (j = j')) as [<-|Hne].
  - rewrite list_lookup_insert_eq by assumption. cbn. split; [discriminate | tauto].
  - rewrite list_lookup_insert_ne by assumption. split; [|tauto].
    intros Hh. split; [congruence | assumption].
Qed.

(** A slot that was used stays used whatever is written over another. *)
Lemma unused_insert (es : list SetEntry) (j j' : nat) (e' : SetEntry) :
  e' <> empty_entry -> unused (<[j := e']> es) j' -> j' <> j /\ unused es j'.
Proof.
  intros Hused. unfold unused. destruct (decide (j = j')) as [<-|Hne].
  - intros Hj. exfalso. apply Hused.
    destruct (decide (j < length es)%nat) as [Hlt|Hge].
    + rewrite list_lookup_insert_eq in Hj by assumption. congruence.
    + rewrite list_insert_ge in Hj by lia.
      apply lookup_lt_Some in Hj. lia.
  - rewrite list_lookup_insert_ne by assumption. intros Hj. split; [congruence | assumption].
Qed.

Lemma used_slots_app (l1 l2 : list SetEntry) :
  used_slots (l1 ++ l2) = (used_slots l1 + used_slots l2)%nat.
Proof. unfold used_slots. now rewrite List.filter_app, length_app. Qed.

Lemma used_slots_insert (es : list SetEntry) (j : nat) (e e' : SetEntry) :
  es !! j = Some e -> slot_used e' = true ->
  used_slots (<[j := e']> es)
  = if slot_used e then used_slots es else S (used_slots es).
Proof.
  intros Hj Hused'.
  assert (Hlt : (j < length es)%nat) by (apply lookup_lt_is_Some; eauto).
  assert (Hcons : forall x l, used_slots (x :: l)
                              = ((if slot_used x then 1 else 0) + used_slots l)%nat).
  { intros x l. unfold used_slots. cbn [List.filter]. now destruct (slot_used x). }
  assert (Hes : used_slots es
                = (used_slots (take j es)
                   + ((if slot_used e then 1 else 0) + used_slots (drop (S j) es)))%nat).
  { rewrite <- Hcons, <- used_slots_app. now rewrite take_drop_middle. }
  rewrite insert_take_drop by assumption.
  rewrite used_slots_app, Hcons, Hused', Hes. destruct (slot_used e); lia.
Qed.

Lemma used_slots_replicate (n : nat) : used_slots (replicate n empty_entry) = 0%nat.
Proof. induction n as [|n IH]; [reflexivity | exact IH]. Qed.

(** A table without tombstones is a table. *)
Lemma table_ok_inv (es : list SetEntry) (cap : nat) : table_ok es cap -> table_inv es cap.
Proof.
  intros (Hlen & Hclean & Hpath & Huniq). split; [assumption|]. split.
  - eapply List.Forall_impl; [|exact Hclean]. intros e [->|[w ->]]; [now left|].
    right. left. eauto.
  - split; [|assumption]. intros j v Hj.
    destruct (Hpath j v Hj) as (k & Hk & Hp & Hrun).
    exists k. repeat split; [assumption..|].
    intros k' Hk' Hun. destruct (Hrun k' Hk') as [w Hw]. now apply holds_unused in Hw.
Qed.

(** In a table without tombstones the values are the used slots. *)
Lemma used_slots_clean (es : list SetEntry) :
  Forall (fun e => e = empty_entry \/ exists w, e = value_entry w) es ->
  used_slots es = length (iterate_entries es).
Proof.
  unfold used_slots, iterate_entries.
  induction 1 as [|e es He _ IH]; [reflexivity|].
  destruct He as [->|[w ->]]; cbn; [exact IH | now rewrite IH].
Qed.

(** Filling the slot the search returned keeps the table in order. *)
Lemma table_inv_insert (es : list SetEntry) (cap j k : nat) (e : SetEntry) (v : string) :
  table_inv es cap -> (forall j', ~ holds es j' v) ->
  es !! j = Some e -> occupied e = false ->
  (k < cap)%nat -> probe cap (home_slot cap v) k = j ->
  (forall k', (k' < k)%nat -> ~ unused es (probe cap (home_slot cap v) k')) ->
  table_inv (<[j := value_entry v]> es) cap.
Proof.
  intros (Hlen & Hshape & Hpath & Huniq) Habsent Hj Hocc Hk Hp Hrun.
  assert (Hlt : (j < length es)%nat) by (apply lookup_lt_is_Some; eauto).
  assert (Hkeep : forall j', ~ unused es j' -> ~ unused (<[j := value_entry v]> es) j').
  { intros j' Hused Hun. apply unused_insert in Hun as [_ Hun]; [contradiction | discriminate]. }
  split; [now rewrite length_insert|]. split.
  { apply Forall_insert; [assumption|]. right. left. eauto. }
  split.
  - intros j' w Hw.
    apply (proj1 (holds_insert es j j' v w Hlt)) in Hw as [[-> ->]|[Hne Hw]].
    + exists k. repeat split; [assumption..|]. intros k' Hk'. apply Hkeep, Hrun, Hk'.
    + destruct (Hpath j' w Hw) as (k1 & Hk1 & Hp1 & Hrun1).
      exists k1. repeat split; [assumption..|]. intros k' Hk'. apply Hkeep, Hrun1, Hk'.
  - intros j1 j2 w H1 H2.
    apply (proj1 (holds_insert es j j1 v w Hlt)) in H1.
    apply (proj1 (holds_insert es j j2 v w Hlt)) in H2.
    destruct H1 as [[E1 W1]|[Hne1 H1]], H2 as [[E2 W2]|[Hne2 H2]]; subst;
      try reflexivity; try (now apply Habsent in H1); try (now apply Habsent in H2).
    now apply (Huniq j1 j2 w).
Qed.

(** So does turning the slot of a value into a tombstone. *)
Lemma table_inv_tombstone (es : list SetEntry) (cap j : nat) (e : SetEntry) :
  table_inv es cap -> es !! j = Some e -> occupied e = true ->
  table_inv (<[j := mkEntry (value e) false]> es) cap.
Proof.
  intros (Hlen & Hshape & Hpath & Huniq) Hj Hocc.
  assert (He : exists v, e = value_entry v).
  { destruct (entry_ok_lookup es j e Hshape Hj) as [->|[[v ->]|[v ->]]];
      [discriminate | eauto | discriminate]. }
  destruct He as [v ->]. cbn [value value_entry].
  split; [now rewrite length_insert|]. split.
  { apply Forall_insert; [assumption|]. right. right. eauto. }
  split.
  - intros j' w Hw. apply (holds_tombstone es j j' _ w Hj) in Hw as [Hne Hw].
    destruct (Hpath j' w Hw) as (k1 & Hk1 & Hp1 & Hrun1).
    exists k1. repeat split; [assumption..|].
    intros k' Hk' Hun. apply unused_insert in Hun as [_ Hun]; [|discriminate].
    now apply (Hrun1 k' Hk').
  - intros j1 j2 w H1 H2.
    apply (holds_tombstone es j j1 _ w Hj) in H1 as [_ H1].
    apply (holds_tombstone es j j2 _ w Hj) in H2 as [_ H2].
    now apply (Huniq j1 j2 w).
Qed.

Lemma load_limit_lt (cap : nat) : (0 < cap)%nat -> (load_limit cap < cap)%nat.
Proof. intros Hcap. unfold load_limit. apply Nat.Div0.div_lt_upper_bound. lia. Qed.

(** The rehash loop of [set_grow] leaves the tombstones of the old entries
    behind. *)
Lemma rehash_skips_tombstones (cap : nat) (old new : list SetEntry) :
  Forall entry_ok old ->
  exists clean,
    Forall (fun e => e = empty_entry \/ exists w, e = value_entry w) clean
    /\ iterate_entries clean = iterate_entries old
    /\ fold_left (rehash_entry cap) old new = fold_left (rehash_entry cap) clean new.
Proof.
  intros Hshape. revert new. induction Hshape as [|e old He _ IH]; intros new.
  - exists []. repeat split. constructor.
  - destruct He as [->|[[w ->]|[w ->]]]; cbn [fold_left].
    + destruct (IH new) as (clean & Hclean & Hit & Hfold). exists clean. now repeat split.
    + destruct (IH (rehash_entry cap new (value_entry w))) as (clean & Hclean & Hit & Hfold).
      exists (value_entry w :: clean). repeat split.
      * constructor; [right; eauto | assumption].
      * unfold iterate_entries in *. cbn. now rewrite Hit.
      * exact Hfold.
    + destruct (IH new) as (clean & Hclean & Hit & Hfold). exists clean. now repeat split.
Qed.

Lemma set_inv_NoDup (s : StrSet) : set_inv s -> NoDup (set_iterate s).
Proof. intros ((_ & _ & _ & Huniq) & _). now apply iterate_NoDup. Qed.

(** [set_grow] doubles the capacity, keeps the values and drops the
    tombstones. *)
Lemma set_grow_inv (s : StrSet) :
  set_inv s ->
  table_ok (entries (set_grow s)) (capacity (set_grow s))
  /\ capacity (set_grow s) = (capacity s * 2)%nat
  /\ tombstones (set_grow s) = 0%nat
  /\ size (set_grow s) = length (set_iterate s)
  /\ set_iterate (set_grow s) ≡ₚ set_iterate s.
Proof.
  intros Hinv. pose proof (set_inv_NoDup s Hinv) as Hnodup.
  destruct Hinv as ((Hlen & Hshape & Hpath & Huniq) & Hcap & Hsize & Hused & Hload).
  unfold set_grow, set_iterate in *. cbn [entries capacity tombstones size].
  destruct (Nat.eqb_spec (capacity s) 0) as [|_]; [lia|].
  destruct (rehash_skips_tombstones (capacity s * 2) (entries s)
              (replicate (capacity s * 2) empty_entry) Hshape)
    as (clean & Hclean & Hit & Hfold).
  rewrite Hfold.
  destruct (rehash_ok (capacity s * 2) clean (replicate (capacity s * 2) empty_entry))
    as [Hok Hperm].
  - lia.
  - assumption.
  - now rewrite Hit.
  - apply table_ok_empty.
  - intros v _. rewrite iterate_empty. apply not_elem_of_nil.
  - rewrite iterate_empty, Hit. cbn. pose proof (load_limit_le (capacity s)). lia.
  - rewrite iterate_empty, app_nil_r, Hit in Hperm.
    split; [exact Hok|]. split; [reflexivity|]. split; [reflexivity|].
    split; [reflexivity | assumption].
Qed.

Lemma set_wf_inv (s : StrSet) : set_wf s -> set_inv s.
Proof.
  intros (Hok & Hcap & Htomb & Hsize & Hload).
  split; [now apply table_ok_inv|]. split; [assumption|]. split; [assumption|].
  destruct Hok as (_ & Hclean & _). rewrite (used_slots_clean _ Hclean), Htomb.
  unfold set_iterate in Hsize. split; lia.
Qed.

Lemma holds_slot (es : list SetEntry) (j : nat) (v : string) :
  holds es j v <-> exists e, es !! j = Some e /\ occupied e = true /\ value e = Some v.
Proof.
  unfold holds. split.
  - destruct (es !! j) as [e|]; [|discriminate]. cbn. unfold slot_value.
    destruct (occupied e) eqn:Hocc; [|discriminate]. eauto.
  - intros (e & -> & Hocc & Hv). cbn. unfold slot_value. now rewrite Hocc.
Qed.

(** [set_add] succeeds on every set, adds the value unless it is there, and
    counts it once. *)
Lemma set_add_inv (s : StrSet) (v : string) :
  set_inv s ->
  fst (set_add s v) = REBUILD_OK
  /\ set_inv (snd (set_add s v))
  /\ (forall x, x ∈ set_iterate (snd (set_add s v)) <-> x = v \/ x ∈ set_iterate s)
  /\ size (snd (set_add s v))
     = if decide (v ∈ set_iterate s) then size s else S (size s).
Proof.
  intros Hinv. unfold set_add.
  set (s1 := if (load_limit (capacity s) <? size s + tombstones s + 1)%nat
             then set_grow s else s).
  assert (H1 : table_inv (entries s1) (capacity s1)
               /\ (0 < capacity s1)%nat
               /\ size s1 = length (set_iterate s1)
               /\ (used_slots (entries s1) <= size s1 + tombstones s1)%nat
               /\ (size s1 + tombstones s1 + 1 <= load_limit (capacity s1))%nat
               /\ set_iterate s1 ≡ₚ set_iterate s
               /\ size s1 = size s).
  { subst s1. destruct (Nat.ltb_spec (load_limit (capacity s)) (size s + tombstones s + 1))
      as [Hgrow|Hroom].
    - destruct (set_grow_inv s Hinv) as (Hok & Hcap' & Htomb' & Hsize' & Hperm).
      destruct Hinv as (_ & Hcap & Hsize & Hused & Hload).
      split; [now apply table_ok_inv|]. split; [lia|].
      split; [now rewrite Hsize', Hperm|].
      destruct Hok as (_ & Hclean & _).
      rewrite (used_slots_clean _ Hclean), Htomb', Hcap', Hsize'.
      fold (set_iterate (set_grow s)). rewrite Hperm.
      pose proof (load_limit_double (capacity s) Hcap).
      repeat split; [lia | lia | reflexivity | congruence].
    - destruct Hinv as (Hok & Hcap & Hsize & Hused & Hload).
      split; [exact Hok|]. repeat split; try assumption; try lia; reflexivity. }
  clearbody s1. destruct H1 as (Hok & Hcap & Hsize & Hused & Hload & Hperm & Hsame).
  pose proof (load_limit_lt (capacity s1) Hcap) as Hlt.
  destruct (decide (v ∈ set_iterate s)) as [Hin|Hnotin].
  - assert (Hin1 : v ∈ set_iterate s1) by now rewrite Hperm.
    apply elem_of_iterate in Hin1 as [j Hj].
    rewrite (find_inv_present _ _ j v Hok Hcap Hj).
    apply holds_slot in Hj as (e & He & Hocc & Hv). rewrite He, Hocc.
    cbn [fst snd]. split; [reflexivity|]. split.
    { split; [exact Hok|]. repeat split; try assumption; lia. }
    split; [|assumption].
    intros x. rewrite Hperm. split; [tauto|]. now intros [->|Hx].
  - assert (Habsent : forall j, ~ holds (entries s1) j v).
    { intros j Hj. apply Hnotin. rewrite <- Hperm. apply elem_of_iterate. eauto. }
    destruct (find_inv_absent (entries s1) (capacity s1) v Hok Hcap ltac:(lia) Habsent)
      as (j & k & e & Hfind & He & Hocc & Hk & Hp & Hrun).
    rewrite Hfind, He, Hocc. cbn [fst snd].
    pose proof (iterate_insert_free (entries s1) j e v He Hocc) as Hins.
    split; [reflexivity|]. split.
    { split; [|split; [|split; [|split]]]; cbn [entries capacity size tombstones].
      - apply (table_inv_insert _ _ j k e v Hok); assumption.
      - assumption.
      - unfold set_iterate in *. cbn [entries]. rewrite Hins. cbn. lia.
      - rewrite (used_slots_insert _ j e _ He) by reflexivity.
        destruct (slot_used e); lia.
      - lia. }
    split; [|cbn [size]; lia].
    intros x. unfold set_iterate in *. cbn [entries].
    rewrite Hins, elem_of_cons, Hperm. tauto.
Qed.

Lemma set_has_inv (s : StrSet) (v : string) :
  set_inv s -> set_has s v = true <-> v ∈ set_iterate s.
Proof.
  intros (Hok & Hcap & Hsize & Hused & Hload). unfold set_has.
  destruct (Nat.eqb_spec (size s) 0) as [Hzero|Hpos].
  - rewrite Hzero in Hsize. symmetry in Hsize. apply nil_length_inv in Hsize.
    rewrite Hsize. split; [discriminate | intros Hin; now apply elem_of_nil in Hin].
  - destruct (decide (v ∈ set_iterate s)) as [Hin|Hnotin].
    + split; [tauto|]. intros _. apply elem_of_iterate in Hin as [j Hj].
      rewrite (find_inv_present _ _ j v Hok Hcap Hj).
      apply holds_slot in Hj as (e & -> & Hocc & _). exact Hocc.
    + split; [|tauto]. intros Hhas. exfalso.
      assert (Habsent : forall j, ~ holds (entries s) j v).
      { intros j Hj. apply Hnotin, elem_of_iterate. eauto. }
      pose proof (find_inv_absent_free (entries s) (capacity s) v Hok Hcap Habsent) as Hfree.
      destruct (set_find_entry (entries s) (capacity s) v) as [j|]; [|discriminate].
      destruct Hfree as (e & He & Hocc). rewrite He, Hocc in Hhas. discriminate.
Qed.

(** [set_remove] takes the value away if it is there and says whether it
    was. *)
Lemma set_remove_inv (s : StrSet) (v : string) :
  set_inv s ->
  fst (set_remove s v) = set_has s v
  /\ set_inv (snd (set_remove s v))
  /\ (forall x, x ∈ set_iterate (snd (set_remove s v)) <-> x <> v /\ x ∈ set_iterate s)
  /\ size (snd (set_remove s v)) = if set_has s v then (size s - 1)%nat else size s.
Proof.
  intros Hinv. pose proof (set_has_inv s v Hinv) as Hhas.
  pose proof (set_inv_NoDup s Hinv) as Hnodup.
  assert (Hkeep : set_has s v = false ->
            forall x, x ∈ set_iterate s <-> x <> v /\ x ∈ set_iterate s).
  { intros Hno x. split; [|tauto]. intros Hx. split; [|assumption].
    intros ->. apply Hhas in Hx. congruence. }
  destruct Hinv as (Hok & Hcap & Hsize & Hused & Hload).
  unfold set_remove, set_has in *.
  destruct (Nat.eqb_spec (size s) 0) as [Hzero|Hpos].
  { cbn [fst snd]. split; [reflexivity|].
    split; [split; [exact Hok|]; repeat split; assumption|].
    split; [now apply Hkeep | reflexivity]. }
  destruct (decide (v ∈ set_iterate s)) as [Hin|Hnotin].
  - apply elem_of_iterate in Hin as [j Hj].
    rewrite (find_inv_present _ _ j v Hok Hcap Hj).
    pose proof Hj as Hslot. apply holds_slot in Hslot as (e & He & Hocc & Hv).
    rewrite He, Hocc. cbn [negb fst snd].
    assert (Hsv : slot_value e = Some v) by (unfold slot_value; now rewrite Hocc).
    pose proof (iterate_tombstone (entries s) j e v He Hsv) as Hperm.
    fold (set_iterate s) in Hperm.
    split; [reflexivity|]. split.
    { split; [|split; [|split; [|split]]]; cbn [entries capacity size tombstones].
      - now apply table_inv_tombstone.
      - assumption.
      - unfold set_iterate at 1. cbn [entries].
        apply Permutation_length in Hperm. cbn in Hperm. lia.
      - rewrite (used_slots_insert _ j e _ He) by (cbn; now rewrite Hv).
        assert (Hu : slot_used e = true) by (unfold slot_used; now rewrite Hv).
        rewrite Hu. lia.
      - lia. }
    split; [|reflexivity].
    intros x. unfold set_iterate at 1. cbn [entries].
    rewrite Hperm in Hnodup. apply NoDup_cons in Hnodup as [Hv' _].
    rewrite Hperm, elem_of_cons. split.
    + intros Hx. split; [|now right]. intros ->. contradiction.
    + intros [Hne [->|Hx]]; [contradiction | assumption].
  - assert (Hno : match set_find_entry (entries s) (capacity s) v with
                  | Some slot => match entries s !! slot with
                                 | Some entry => occupied entry
                                 | None => false
                                 end
                  | None => false
                  end = false).
    { destruct (set_find_entry _ _ _) as [slot|]; [|reflexivity].
      destruct (entries s !! slot) as [entry|]; [|reflexivity].
      destruct (occupied entry) eqn:E; [|reflexivity]. exfalso. tauto. }
    assert (Hsame : (match set_find_entry (entries s) (capacity s) v with
                     | Some slot =>
                         match entries s !! slot with
                         | Some entry =>
                             if negb (occupied entry) then (false, s)
                             else (true,
                                   mkSet (<[slot := mkEntry (value entry) false]> (entries s))
                                         (capacity s) (size s - 1) (S (tombstones s)))
                         | None => (false, s)
                         end
                     | None => (false, s)
                     end) = (false, s)).
    { destruct (set_find_entry _ _ _) as [slot|]; [|reflexivity].
      destruct (entries s !! slot) as [entry|]; [|reflexivity].
      cbn in Hno. now rewrite Hno. }
    rewrite Hsame, Hno. cbn [fst snd]. split; [reflexivity|].
    split; [split; [exact Hok|]; repeat split; assumption|].
    split; [now apply Hkeep | reflexivity].
Qed.

Lemma clear_entries (es : list SetEntry) :
  map (fun _ => empty_entry) es = replicate (length es) empty_entry.
Proof. induction es as [|e es IH]; [reflexivity|]. cbn. now rewrite IH. Qed.

Lemma set_clear_inv (s : StrSet) :
  set_inv s -> set_inv (set_clear s) /\ set_iterate (set_clear s) = [].
Proof.
  intros ((Hlen & _) & Hcap & _). unfold set_clear, set_iterate.
  cbn [entries]. rewrite clear_entries, Hlen, iterate_empty. split; [|reflexivity].
  split; cbn [entries capacity size tombstones].
  - apply table_ok_inv, table_ok_empty.
  - unfold set_iterate. cbn [entries]. rewrite used_slots_replicate, iterate_empty.
    repeat split; try assumption; cbn; lia.
Qed.

(** The loop of [set_copy] and [set_union] adds every value of the other
    entries. *)
Lemma add_entries_inv (others : list SetEntry) (s : StrSet) :
  set_inv s ->
  fst (add_entries s others) = REBUILD_OK
  /\ set_inv (snd (add_entries s others))
  /\ forall x, x ∈ set_iterate (snd (add_entries s others))
               <-> x ∈ set_iterate s \/ x ∈ iterate_entries others.
Proof.
  revert s. induction others as [|e others IH]; intros s Hinv; cbn [add_entries].
  - cbn [fst snd]. split; [reflexivity|]. split; [assumption|].
    intros x. split; [tauto|].
    intros [Hx|Hx]; [assumption | now apply elem_of_nil in Hx].
  - assert (Hskip : slot_value e = None ->
              fst (add_entries s others) = REBUILD_OK
              /\ set_inv (snd (add_entries s others))
              /\ forall x, x ∈ set_iterate (snd (add_entries s others))
                           <-> x ∈ set_iterate s \/ x ∈ iterate_entries (e :: others)).
    { intros He. destruct (IH s Hinv) as (Hok & Hinv' & Hmem).
      split; [assumption|]. split; [assumption|].
      intros x. rewrite Hmem. unfold iterate_entries. cbn [omap list_omap].
      now rewrite He. }
    destruct (occupied e) eqn:Hocc.
    + destruct (value e) as [v|] eqn:Hv.
      * destruct (set_add_inv s v Hinv) as (Hok & Hinv' & Hmem & _).
        destruct (set_add s v) as [err s'] eqn:E. cbn [fst snd] in *. subst err.
        destruct (IH s' Hinv') as (Hok' & Hinv'' & Hmem').
        assert (He : slot_value e = Some v) by (unfold slot_value; now rewrite Hocc).
        split; [assumption|]. split; [assumption|].
        intros x. rewrite Hmem', Hmem. unfold iterate_entries. cbn [omap list_omap].
        rewrite He, elem_of_cons. tauto.
      * apply Hskip. unfold slot_value. now rewrite Hocc.
    + apply Hskip. unfold slot_value. now rewrite Hocc.
Qed.

Lemma set_copy_inv (s : StrSet) :
  set_inv s ->
  exists copy, set_copy s = Some copy /\ set_inv copy
               /\ forall x, x ∈ set_iterate copy <-> x ∈ set_iterate s.
Proof.
  intros Hinv. unfold set_copy.
  pose proof (set_wf_inv _ (set_create_wf (capacity s))) as Hnew.
  destruct (add_entries_inv (entries s) (set_create (capacity s)) Hnew)
    as (Hok & Hinv' & Hmem).
  destruct (add_entries (set_create (capacity s)) (entries s)) as [err copy].
  cbn [fst snd] in *. subst err. exists copy.
  split; [reflexivity|]. split; [assumption|]. intros x. split.
  - intros Hx. apply Hmem in Hx as [Hx|Hx]; [|exact Hx].
    unfold set_iterate, set_create in Hx. cbn [entries] in Hx.
    rewrite iterate_empty in Hx. now apply elem_of_nil in Hx.
  - intros Hx. apply Hmem. now right.
Qed.

Lemma set_built_inv (s : StrSet) : set_built s -> set_inv s.
Proof.
  induction 1 as [n|s v _ IH|s v _ IH|s _ IH|s other _ IH _ _|s copy _ IH Hcopy].
  - apply set_wf_inv, set_create_wf.
  - now apply set_add_inv.
  - now apply set_remove_inv.
  - now apply set_clear_inv.
  - now apply add_entries_inv.
  - destruct (set_copy_inv s IH) as (copy' & Hcopy' & Hinv & _). congruence.
Qed.

(** The set after the growth check of [set_add]: the same values, and room
    for one more. *)
Lemma set_room (s : StrSet) :
  set_inv s ->
  let s1 := if (load_limit (capacity s) <? size s + tombstones s + 1)%nat
            then set_grow s else s in
  set_inv s1
  /\ (size s1 + tombstones s1 + 1 <= load_limit (capacity s1))%nat
  /\ set_iterate s1 ≡ₚ set_iterate s.
Proof.
  intros Hinv.
  destruct (Nat.ltb_spec (load_limit (capacity s)) (size s + tombstones s + 1))
    as [Hgrow|Hroom]; cbn zeta.
  - destruct (set_grow_inv s Hinv) as (Hok & Hcap' & Htomb' & Hsize' & Hperm).
    destruct Hinv as (_ & Hcap & Hsize & Hused & Hload).
    pose proof (load_limit_double (capacity s) Hcap).
    assert (Hu : used_slots (entries (set_grow s)) = length (set_iterate s)).
    { destruct Hok as (_ & Hclean & _). rewrite (used_slots_clean _ Hclean).
      fold (set_iterate (set_grow s)). now rewrite Hperm. }
    split; [|split; [rewrite Hcap'; lia | assumption]].
    split; [now apply table_ok_inv|]. split; [lia|].
    split; [now rewrite Hsize', Hperm|]. rewrite Hcap'. split; lia.
  - split; [assumption|]. split; [lia | reflexivity].
Qed.

Lemma set_has_decide (s : StrSet) (v : string) :
  set_inv s -> set_has s v = bool_decide (v ∈ set_iterate s).
Proof.
  intros Hinv. pose proof (set_has_inv s v Hinv) as Hhas.
  destruct (set_has s v); symmetry.
  - apply bool_decide_eq_true_2. now apply Hhas.
  - apply bool_decide_eq_false_2. intros Hin. apply Hhas in Hin. discriminate.
Qed.

(** The sample set is built with [set_create], [set_add] and [set_remove]. *)
Lemma sample_set_built : set_built sample_set.
Proof.
  exact (built_remove _ "b.h"
           (built_add _ "gen.h" (built_add _ "b.h" (built_add _ "util.h"
              (built_add _ "util.c" (built_add _ "main.c" (built_create 4))))))).
Qed.

(** X1. On every set built with the operations of set.h, [set_add]
    succeeds; afterwards [set_has] is true for the added value and as before
    for every other value, and [set_size] has grown by one exactly when the
    value was not in the set. *)
Theorem set_add_then_has (s : StrSet) (v : string) :
  set_built s ->
  fst (set_add s v) = REBUILD_OK
  /\ (forall w, set_has (snd (set_add s v)) w
                = if decide (w = v) then true else set_has s w)
  /\ set_size (snd (set_add s v)) = if set_has s v then set_size s else S (set_size s).
Proof.
  intros Hbuilt. apply set_built_inv in Hbuilt as Hinv.
  destruct (set_add_inv s v Hinv) as (Hok & Hinv' & Hmem & Hsize).
  split; [exact Hok|]. split.
  - intros w. rewrite (set_has_decide _ w Hinv'), (set_has_decide _ w Hinv).
    destruct (decide (w = v)) as [->|Hne].
    + apply bool_decide_eq_true_2, Hmem. now left.
    + apply bool_decide_ext. rewrite Hmem. tauto.
  - unfold set_size. rewrite Hsize, (set_has_decide _ v Hinv).
    destruct (decide (v ∈ set_iterate s));
      [now rewrite bool_decide_eq_true_2 | now rewrite bool_decide_eq_false_2].
Qed.

Lemma set_add_then_has_witness :
  fst (set_add sample_set "b.h") = REBUILD_OK
  /\ set_has (snd (set_add sample_set "b.h")) "b.h" = true
  /\ set_size (snd (set_add sample_set "b.h")) = 5%nat.
Proof.
  destruct (set_add_then_has sample_set "b.h"
              sample_set_built)
    as (Hok & Hhas & Hsize).
  split; [exact Hok|]. split; [now rewrite Hhas | exact Hsize].
Defined.

(** X2. [set_remove] returns whether the value was in the set; afterwards
    [set_has] is false for it and as before for every other value, and
    [set_size] has dropped by one exactly when the value was there. *)
Theorem set_remove_then_has (s : StrSet) (v : string) :
  set_built s ->
  fst (set_remove s v) = set_has s v
  /\ (forall w, set_has (snd (set_remove s v)) w
                = if decide (w = v) then false else set_has s w)
  /\ set_size (snd (set_remove s v))
     = if set_has s v then (set_size s - 1)%nat else set_size s.
Proof.
  intros Hbuilt. apply set_built_inv in Hbuilt as Hinv.
  destruct (set_remove_inv s v Hinv) as (Hret & Hinv' & Hmem & Hsize).
  split; [exact Hret|]. split; [|exact Hsize].
  intros w. rewrite (set_has_decide _ w Hinv'), (set_has_decide _ w Hinv).
  destruct (decide (w = v)) as [->|Hne].
  - apply bool_decide_eq_false_2. rewrite Hmem. tauto.
  - apply bool_decide_ext. rewrite Hmem. tauto.
Qed.

Lemma set_remove_then_has_witness :
  fst (set_remove sample_set "util.c") = true
  /\ set_has (snd (set_remove sample_set "util.c")) "util.c" = false
  /\ set_has (snd (set_remove sample_set "util.c")) "util.h" = true
  /\ set_size (snd (set_remove sample_set "util.c")) = 3%nat.
Proof.
  destruct (set_remove_then_has sample_set "util.c"
              sample_set_built)
    as (Hret & Hhas & Hsize).
  split; [exact Hret|]. split; [now rewrite Hhas|].
  split; [now rewrite Hhas | exact Hsize].
Defined.

(** X3. [set_iterate] visits every value of the set once: the values it
    passes on are distinct, they are the values [set_has] accepts, and there
    are [set_size] of them, never more than three quarters of the
    capacity. *)
Theorem set_iterate_members (s : StrSet) :
  set_built s ->
  NoDup (set_iterate s)
  /\ (forall v, v ∈ set_iterate s <-> set_has s v = true)
  /\ length (set_iterate s) = set_size s
  /\ (set_size s <= set_capacity s * 3 / 4)%nat.
Proof.
  intros Hbuilt. apply set_built_inv in Hbuilt as Hinv.
  split; [now apply set_inv_NoDup|].
  split; [intros v; symmetry; now apply set_has_inv|].
  destruct Hinv as (_ & _ & Hsize & _ & Hload).
  unfold set_size, set_capacity. unfold load_limit in Hload. split; lia.
Qed.

Lemma set_iterate_members_witness :
  NoDup (set_iterate sample_set)
  /\ length (set_iterate sample_set) = 4%nat
  /\ (set_size sample_set <= set_capacity sample_set * 3 / 4)%nat.
Proof.
  destruct (set_iterate_members sample_set
              sample_set_built)
    as (Hnodup & _ & Hlen & Hload).
  split; [exact Hnodup|]. split; [exact Hlen | exact Hload].
Defined.

(** X4. [set_union] of two different sets succeeds, and afterwards the
    first set has exactly the values that were in one of the two. *)
Theorem set_union_has (s other : StrSet) :
  set_built s -> set_built other ->
  fst (set_union s other) = REBUILD_OK
  /\ forall v, set_has (snd (set_union s other)) v = set_has s v || set_has other v.
Proof.
  intros Hs Ho. apply set_built_inv in Hs as Hinv. apply set_built_inv in Ho as Hinvo.
  destruct (add_entries_inv (entries other) s Hinv) as (Hok & Hinv' & Hmem).
  split; [exact Hok|]. intros v. unfold set_union.
  rewrite (set_has_decide _ v Hinv'), (set_has_decide _ v Hinv),
    (set_has_decide _ v Hinvo).
  fold (set_iterate other) in Hmem.
  destruct (decide (v ∈ set_iterate s)) as [Hin|Hnin].
  - rewrite (bool_decide_eq_true_2 (v ∈ set_iterate s)) by assumption.
    apply bool_decide_eq_true_2, Hmem. now left.
  - rewrite (bool_decide_eq_false_2 (v ∈ set_iterate s)) by assumption. cbn.
    apply bool_decide_ext. rewrite Hmem. tauto.
Qed.

Lemma set_union_has_witness :
  fst (set_union (snd (set_add (set_create 1) "x.c")) sample_set) = REBUILD_OK
  /\ set_has (snd (set_union (snd (set_add (set_create 1) "x.c")) sample_set)) "gen.h"
     = true
  /\ set_has (snd (set_union (snd (set_add (set_create 1) "x.c")) sample_set)) "b.h"
     = false.
Proof.
  destruct (set_union_has (snd (set_add (set_create 1) "x.c")) sample_set
              (built_add _ _ (built_create 1))
              sample_set_built)
    as (Hok & Hhas).
  split; [exact Hok|]. split; now rewrite Hhas.
Defined.

(** X5. [set_copy] returns a set with the same values and the same size as
    the original. *)
Theorem set_copy_same_values (s : StrSet) :
  set_built s ->
  exists copy,
    set_copy s = Some copy
    /\ (forall v, set_has copy v = set_has s v)
    /\ set_size copy = set_size s.
Proof.
  intros Hs. apply set_built_inv in Hs as Hinv.
  destruct (set_copy_inv s Hinv) as (copy & Hcopy & Hinv' & Hmem).
  exists copy. split; [exact Hcopy|]. split.
  - intros v. rewrite (set_has_decide _ v Hinv'), (set_has_decide _ v Hinv).
    apply bool_decide_ext, Hmem.
  - unfold set_size.
    pose proof (set_inv_NoDup s Hinv) as Hnds.
    pose proof (set_inv_NoDup copy Hinv') as Hnd.
    destruct Hinv as (_ & _ & -> & _). destruct Hinv' as (_ & _ & -> & _).
    apply Permutation_length, NoDup_Permutation; assumption.
Qed.

Lemma set_copy_same_values_witness :
  exists copy,
    set_copy sample_set = Some copy
    /\ (forall v, set_has copy v = set_has sample_set v)
    /\ set_size copy = set_size sample_set.
Proof.
  exact (set_copy_same_values sample_set sample_set_built).
Defined.

Lemma forallb_entries (s : StrSet) (es : list SetEntry) :
  forallb (fun entry =>
             match occupied entry, value entry with
             | true, Some v => set_has s v
             | _, _ => true
             end) es = true
  <-> forall v, v ∈ iterate_entries es -> set_has s v = true.
Proof.
  induction es as [|e es IH]; cbn [forallb].
  - split; [|reflexivity]. intros _ v Hv. now apply elem_of_nil in Hv.
  - rewrite andb_true_iff, IH. unfold iterate_entries. cbn [omap list_omap].
    unfold slot_value at 1 2.
    destruct (occupied e); [destruct (value e) as [w|]|].
    + split.
      * intros [Hw Hall] v [->|Hv]%elem_of_cons; [assumption | now apply Hall].
      * intros Hall. split; [apply Hall; now left|]. intros v Hv. apply Hall. now right.
    + tauto.
    + destruct (value e); tauto.
Qed.

(** X6. [set_contains_all] is true exactly when every value of the other
    set is in the set. *)
Theorem set_contains_all_subset (s other : StrSet) :
  set_built s -> set_built other ->
  set_contains_all s other = true
  <-> forall v, set_has other v = true -> set_has s v = true.
Proof.
  intros Hs Ho. apply set_built_inv in Hs as Hinv. apply set_built_inv in Ho as Hinvo.
  assert (Hsub : (forall v, set_has other v = true -> set_has s v = true)
                 <-> forall v, v ∈ set_iterate other -> v ∈ set_iterate s).
  { split; intros Hall v Hv.
    - apply (set_has_inv s v Hinv), Hall, (set_has_inv other v Hinvo), Hv.
    - apply (set_has_inv s v Hinv), Hall, (set_has_inv other v Hinvo), Hv. }
  rewrite Hsub. unfold set_contains_all.
  pose proof (set_inv_NoDup other Hinvo) as Hnd.
  destruct Hinv as (_ & _ & Hsize & _). destruct Hinvo as (_ & _ & Hsizeo & _).
  destruct (Nat.eqb_spec (size other) 0) as [Hzero|Hpos].
  - split; [|reflexivity]. intros _ v Hv.
    rewrite Hzero in Hsizeo. symmetry in Hsizeo. apply nil_length_inv in Hsizeo.
    rewrite Hsizeo in Hv. now apply elem_of_nil in Hv.
  - destruct (Nat.ltb_spec (size s) (size other)) as [Hlt|Hge].
    + split; [discriminate|]. intros Hall. exfalso.
      assert (Hle : (length (set_iterate other) <= length (set_iterate s))%nat).
      { apply submseteq_length, NoDup_submseteq; assumption. }
      lia.
    + rewrite forallb_entries. fold (set_iterate other). split; intros Hall v Hv.
      * apply set_has_inv; [apply (set_built_inv s Hs) | now apply Hall].
      * apply set_has_inv; [apply (set_built_inv s Hs)|now apply Hall].
Qed.

Lemma set_contains_all_subset_witness :
  set_contains_all sample_set (snd (set_add (set_create 1) "b.h")) = false.
Proof.
  pose proof (set_contains_all_subset sample_set (snd (set_add (set_create 1) "b.h"))
                sample_set_built (built_add _ _ (built_create 1))) as [Hsub _].
  assert (Hother : set_has (snd (set_add (set_create 1) "b.h")) "b.h" = true)
    by (vm_compute; reflexivity).
  assert (Hset : set_has sample_set "b.h" = false) by (vm_compute; reflexivity).
  destruct (set_contains_all sample_set (snd (set_add (set_create 1) "b.h")));
    [|reflexivity].
  specialize (Hsub eq_refl "b.h" Hother). congruence.
Defined.

(** ** The hash map

    The search, the growth and the tombstones of a map are those of the set
    of its keys; the values ride along. *)

Section MapFacts.
Context {V : Type}.
Implicit Types (m : Map.Map V) (es : list (Map.MapEntry V)) (e : Map.MapEntry V).

Lemma map_find_loop_keys es (cap h : nat) (k : string) (fuel : nat) :
  forall tombstone i,
    Map.find_loop es cap h k tombstone i fuel
    = find_loop (key_entry <$> es) cap h k tombstone i fuel.
Proof.
  induction fuel as [|fuel IH]; intros tombstone i; [reflexivity|].
  cbn [Map.find_loop find_loop]. rewrite list_lookup_fmap.
  destruct (es !! ((h + i) mod cap)%nat) as [e|]; [|reflexivity].
  cbn [fmap option_fmap option_map key_entry occupied value].
  destruct (Map.occupied e); cbn [negb].
  - destruct (bool_decide (Map.key e = Some k)); [reflexivity | apply IH].
  - destruct (Map.key e); [apply IH | reflexivity].
Qed.

Lemma map_find_entry_keys es (cap : nat) (k : string) :
  Map.map_find_entry es cap k = set_find_entry (key_entry <$> es) cap k.
Proof. apply map_find_loop_keys. Qed.

Lemma map_iterate_keys es :
  fst <$> omap Map.slot_binding es = iterate_entries (key_entry <$> es).
Proof.
  unfold iterate_entries. induction es as [|e es IH]; [reflexivity|].
  cbn [omap list_omap fmap list_fmap]. rewrite <- IH.
  unfold Map.slot_binding at 1, slot_value at 1. cbn [key_entry occupied value].
  destruct (Map.occupied e); [|reflexivity]. now destruct (Map.key e).
Qed.

Lemma slot_binding_key e (k : string) (v : option V) :
  Map.slot_binding e = Some (k, v)
  <-> Map.occupied e = true /\ Map.key e = Some k /\ Map.value e = v.
Proof.
  unfold Map.slot_binding. destruct (Map.occupied e).
  - destruct (Map.key e) as [k'|]; cbn.
    + split; [intros [= -> ->]; tauto | intros (_ & [= ->] & ->); reflexivity].
    + split; [discriminate | intros (_ & [=] & _)].
  - split; [discriminate | intros ([=] & _)].
Qed.

(** A pair of the map sits in a slot. *)
Lemma elem_of_bindings es (k : string) (v : option V) :
  (k, v) ∈ omap Map.slot_binding es
  <-> exists j e, es !! j = Some e /\ Map.slot_binding e = Some (k, v).
Proof.
  rewrite list_elem_of_omap. split.
  - intros (e & He & Hb). apply list_elem_of_lookup in He as [j Hj]. eauto.
  - intros (j & e & Hj & Hb). exists e. split; [|exact Hb].
    apply list_elem_of_lookup. eauto.
Qed.

Lemma holds_keys es (j : nat) (k : string) :
  holds (key_entry <$> es) j k
  <-> exists e, es !! j = Some e /\ Map.occupied e = true /\ Map.key e = Some k.
Proof.
  rewrite holds_slot. rewrite list_lookup_fmap. split.
  - intros (se & Hse & Hocc & Hk). destruct (es !! j) as [e|]; [|discriminate].
    injection Hse as <-. eauto.
  - intros (e & -> & Hocc & Hk). exists (key_entry e). now repeat split.
Qed.

(** Writing a pair into a slot that is not occupied adds that pair. *)
Lemma bindings_insert_free es (j : nat) e (k : string) (v : option V) :
  es !! j = Some e -> Map.occupied e = false ->
  omap Map.slot_binding (<[j := Map.mkEntry (Some k) v true]> es)
  ≡ₚ (k, v) :: omap Map.slot_binding es.
Proof.
  intros Hj Hocc.
  assert (Hlt : (j < length es)%nat) by (apply lookup_lt_is_Some; eauto).
  assert (He : Map.slot_binding e = None) by (unfold Map.slot_binding; now rewrite Hocc).
  rewrite insert_take_drop by assumption.
  rewrite <- (take_drop_middle es j e Hj) at 3.
  rewrite !omap_app. cbn [omap list_omap]. rewrite He.
  cbn. now rewrite Permutation_middle.
Qed.

(** Writing over the slot of a pair replaces it. *)
Lemma bindings_replace es (j : nat) e (k : string) (v : option V) (b : option (string * option V)) :
  es !! j = Some e -> Map.slot_binding e = Some (k, v) ->
  forall e', Map.slot_binding e' = b ->
    (k, v) :: omap Map.slot_binding (<[j := e']> es)
    ≡ₚ from_option (fun p => [p]) [] b ++ omap Map.slot_binding es.
Proof.
  intros Hj He e' He'.
  assert (Hlt : (j < length es)%nat) by (apply lookup_lt_is_Some; eauto).
  rewrite insert_take_drop by assumption.
  rewrite <- (take_drop_middle es j e Hj) at 3.
  rewrite !omap_app. cbn [omap list_omap]. rewrite He, He'.
  destruct b as [p|]; cbn.
  - rewrite <- !Permutation_middle. apply perm_swap.
  - now rewrite <- Permutation_middle.
Qed.

Lemma key_entry_empty : key_entry (@Map.empty_entry V) = empty_entry.
Proof. reflexivity. Qed.

Lemma rehash_keys (cap : nat) es :
  forall new,
    key_entry <$> fold_left (Map.rehash_entry cap) es new
    = fold_left (rehash_entry cap) (key_entry <$> es) (key_entry <$> new).
Proof.
  induction es as [|e es IH]; intros new; [reflexivity|].
  cbn [fold_left fmap list_fmap]. rewrite IH. f_equal.
  unfold Map.rehash_entry, rehash_entry. cbn [key_entry occupied value].
  destruct (Map.occupied e); [|reflexivity].
  destruct (Map.key e) as [k|]; [|reflexivity].
  rewrite map_find_entry_keys.
  destruct (set_find_entry (key_entry <$> new) cap k) as [dest|]; [|reflexivity].
  now rewrite list_fmap_insert.
Qed.

Lemma map_keys_grow m : map_keys (Map.map_grow m) = set_grow (map_keys m).
Proof.
  unfold map_keys, Map.map_grow, set_grow.
  cbn [Map.entries Map.capacity Map.size Map.tombstones entries capacity].
  f_equal.
  - rewrite rehash_keys, fmap_replicate. reflexivity.
  - unfold Map.map_iterate. now rewrite <- map_iterate_keys, length_fmap.
Qed.

Lemma map_keys_create (n : nat) : map_keys (@Map.map_create V n) = set_create n.
Proof.
  unfold map_keys, Map.map_create, set_create.
  cbn [Map.entries Map.capacity Map.size Map.tombstones].
  now rewrite fmap_replicate.
Qed.

Lemma map_keys_clear m : map_keys (Map.map_clear m) = set_clear (map_keys m).
Proof.
  unfold map_keys, Map.map_clear, set_clear.
  cbn [Map.entries Map.capacity Map.size Map.tombstones entries capacity].
  f_equal. rewrite <- !list_fmap_compose. reflexivity.
Qed.

(** The key of an occupied entry with its flag is the entry of the key
    set. *)
Lemma key_entry_occupied e :
  Map.occupied e = true -> mkEntry (Map.key e) true = key_entry e.
Proof. intros Hocc. unfold key_entry. now rewrite Hocc. Qed.

(** On the keys, [map_set] is [set_add]. *)
Lemma map_keys_set m (k : string) (v : option V) :
  fst (Map.map_set m k v) = fst (set_add (map_keys m) k)
  /\ map_keys (snd (Map.map_set m k v)) = snd (set_add (map_keys m) k).
Proof.
  unfold Map.map_set, set_add.
  replace (size (map_keys m)) with (Map.size m) by reflexivity.
  replace (tombstones (map_keys m)) with (Map.tombstones m) by reflexivity.
  replace (capacity (map_keys m)) with (Map.capacity m) by reflexivity.
  set (m1 := if (load_limit (Map.capacity m) <? Map.size m + Map.tombstones m + 1)%nat
             then Map.map_grow m else m).
  assert (Hm1 : (if (load_limit (Map.capacity m) <? Map.size m + Map.tombstones m + 1)%nat
                 then set_grow (map_keys m) else map_keys m) = map_keys m1).
  { subst m1. destruct (_ <? _)%nat; [now rewrite map_keys_grow | reflexivity]. }
  rewrite Hm1. clearbody m1. clear Hm1.
  cbn [map_keys entries capacity size tombstones].
  rewrite map_find_entry_keys.
  destruct (set_find_entry (key_entry <$> Map.entries m1) (Map.capacity m1) k) as [slot|];
    [|now split].
  rewrite list_lookup_fmap.
  destruct (Map.entries m1 !! slot) as [e|] eqn:He; [|now split].
  cbn [fmap option_fmap option_map key_entry occupied].
  destruct (Map.occupied e) eqn:Hocc; cbn [fst snd]; (split; [reflexivity|]).
  - unfold map_keys. cbn [Map.entries Map.capacity Map.size Map.tombstones].
    f_equal. rewrite list_fmap_insert.
    replace (key_entry (Map.mkEntry (Map.key e) v true)) with (key_entry e)
      by (symmetry; apply (key_entry_occupied e Hocc)).
    apply list_insert_id.
    now rewrite list_lookup_fmap, He.
  - unfold map_keys. cbn [Map.entries Map.capacity Map.size Map.tombstones].
    f_equal. now rewrite list_fmap_insert.
Qed.

(** On the keys, [map_remove] is [set_remove] and [map_has] is [set_has]. *)
Lemma map_keys_remove m (k : string) :
  map_keys (snd (Map.map_remove m k)) = snd (set_remove (map_keys m) k).
Proof.
  unfold Map.map_remove, set_remove.
  cbn [map_keys entries capacity size tombstones].
  destruct (Map.size m =? 0)%nat; [reflexivity|].
  rewrite map_find_entry_keys.
  destruct (set_find_entry (key_entry <$> Map.entries m) (Map.capacity m) k) as [slot|];
    [|reflexivity].
  rewrite list_lookup_fmap.
  destruct (Map.entries m !! slot) as [e|] eqn:He; [|reflexivity].
  cbn [fmap option_fmap option_map key_entry occupied value].
  destruct (Map.occupied e); cbn [negb snd]; [|reflexivity].
  unfold map_keys. cbn [Map.entries Map.capacity Map.size Map.tombstones].
  f_equal. now rewrite list_fmap_insert.
Qed.

Lemma map_has_keys m (k : string) : Map.map_has m k = set_has (map_keys m) k.
Proof.
  unfold Map.map_has, set_has. cbn [map_keys entries capacity size tombstones].
  destruct (Map.size m =? 0)%nat; [reflexivity|].
  rewrite map_find_entry_keys.
  destruct (set_find_entry (key_entry <$> Map.entries m) (Map.capacity m) k) as [slot|];
    [|reflexivity].
  rewrite list_lookup_fmap. now destruct (Map.entries m !! slot).
Qed.

(** The keys of a map a program can hold form a set a program can hold. *)
Lemma map_built_keys m : map_built m -> set_built (map_keys m).
Proof.
  induction 1 as [n|m k v _ IH|m k _ IH|m _ IH].
  - rewrite map_keys_create. constructor.
  - rewrite (proj2 (map_keys_set m k v)). now constructor.
  - rewrite map_keys_remove. now constructor.
  - rewrite map_keys_clear. now constructor.
Qed.

Lemma map_built_inv m : map_built m -> set_inv (map_keys m).
Proof. intros Hm. apply set_built_inv, map_built_keys, Hm. Qed.

Lemma bindings_keys m : (Map.map_iterate m).*1 = set_iterate (map_keys m).
Proof. apply map_iterate_keys. Qed.

Lemma bindings_NoDup m : set_inv (map_keys m) -> NoDup (Map.map_iterate m).*1.
Proof. intros Hinv. rewrite bindings_keys. now apply set_inv_NoDup. Qed.

(** The pairs of a table: the one of slot [j], if any, and those of the
    other slots; writing to slot [j] changes the first only. *)
Lemma bindings_split es (j : nat) e :
  es !! j = Some e ->
  exists rest,
    omap Map.slot_binding es ≡ₚ from_option (fun p => [p]) [] (Map.slot_binding e) ++ rest
    /\ forall e', omap Map.slot_binding (<[j := e']> es)
                  ≡ₚ from_option (fun p => [p]) [] (Map.slot_binding e') ++ rest.
Proof.
  intros Hj.
  assert (Hlt : (j < length es)%nat) by (apply lookup_lt_is_Some; eauto).
  exists (omap Map.slot_binding (take j es) ++ omap Map.slot_binding (drop (S j) es)).
  split.
  - rewrite <- (take_drop_middle es j e Hj) at 1.
    rewrite omap_app. cbn [omap list_omap].
    destruct (Map.slot_binding e) as [p|]; cbn; [|reflexivity].
    now rewrite <- Permutation_middle.
  - intros e'. rewrite insert_take_drop by assumption.
    rewrite omap_app. cbn [omap list_omap].
    destruct (Map.slot_binding e') as [p|]; cbn; [|reflexivity].
    now rewrite <- Permutation_middle.
Qed.

(** The rehash loop of [map_grow] moves every pair of the old entries into
    the new table. *)
Lemma map_rehash_ok (cap : nat) (old new : list (Map.MapEntry V)) :
  (0 < cap)%nat ->
  NoDup (omap Map.slot_binding old).*1 ->
  table_ok (key_entry <$> new) cap ->
  (forall k, k ∈ (omap Map.slot_binding old).*1 -> k ∉ (omap Map.slot_binding new).*1) ->
  (length (omap Map.slot_binding new) + length (omap Map.slot_binding old) < cap)%nat ->
  omap Map.slot_binding (fold_left (Map.rehash_entry cap) old new)
  ≡ₚ omap Map.slot_binding old ++ omap Map.slot_binding new.
Proof.
  intros Hcap. revert new.
  induction old as [|e old IH]; intros new Hnodup Hnew Hfresh Hroom; cbn [fold_left].
  - reflexivity.
  - cbn [omap list_omap] in *.
    destruct (Map.slot_binding e) as [[k v]|] eqn:He.
    + apply slot_binding_key in He as (Hocc & Hk & Hv).
      cbn [fmap list_fmap fst] in Hnodup, Hfresh. cbn [length] in Hroom.
      apply NoDup_cons in Hnodup as [Hkold Hnodup].
      assert (Habsent : forall j, ~ holds (key_entry <$> new) j k).
      { intros j Hj. apply (Hfresh k); [left|].
        rewrite map_iterate_keys. apply elem_of_iterate. eauto. }
      assert (Hlen : length (iterate_entries (key_entry <$> new))
                     = length (omap Map.slot_binding new)).
      { now rewrite <- map_iterate_keys, length_fmap. }
      destruct (find_absent (key_entry <$> new) cap k Hnew Hcap ltac:(lia) Habsent)
        as (j & p & Hfind & Hun & Hp & Hprobe & Hrun).
      assert (Hslot : exists e0, new !! j = Some e0 /\ Map.occupied e0 = false).
      { unfold unused in Hun. rewrite list_lookup_fmap in Hun.
        destruct (new !! j) as [e0|]; [|discriminate]. exists e0. split; [reflexivity|].
        cbn in Hun. injection Hun as _ Hfree. exact Hfree. }
      destruct Hslot as (e0 & He0 & Hocc0).
      assert (Hstep : Map.rehash_entry cap new e = <[j := Map.mkEntry (Some k) v true]> new).
      { unfold Map.rehash_entry. rewrite Hocc, Hk, map_find_entry_keys, Hfind.
        now rewrite Hv. }
      rewrite Hstep.
      pose proof (bindings_insert_free new j e0 k v He0 Hocc0) as Hins.
      rewrite IH.
      * rewrite Hins. cbn. now rewrite Permutation_middle.
      * assumption.
      * rewrite list_fmap_insert. now apply (table_ok_insert _ cap j p k Hnew).
      * intros k' Hk'. rewrite Hins. cbn [fmap list_fmap fst].
        intros [->|Hin]%elem_of_cons; [contradiction|].
        apply (Hfresh k'); [now right | assumption].
      * rewrite Hins. cbn. lia.
    + assert (Hstep : Map.rehash_entry cap new e = new).
      { unfold Map.rehash_entry. unfold Map.slot_binding in He.
        destruct (Map.occupied e); [|reflexivity].
        now destruct (Map.key e). }
      rewrite Hstep. now apply IH.
Qed.

Lemma bindings_empty (n : nat) :
  omap Map.slot_binding (replicate n (@Map.empty_entry V)) = [].
Proof. induction n as [|n IH]; [reflexivity | exact IH]. Qed.

(** [map_grow] keeps the pairs of the map. *)
Lemma map_contents_grow m :
  set_inv (map_keys m) -> map_contents (Map.map_grow m) = map_contents m.
Proof.
  intros Hinv. pose proof (bindings_NoDup m Hinv) as Hnodup.
  destruct Hinv as (_ & Hcap & Hsize & _ & Hload).
  assert (Hlen : Map.size m = length (omap Map.slot_binding (Map.entries m))).
  { rewrite <- bindings_keys, length_fmap in Hsize. exact Hsize. }
  unfold map_contents. symmetry. apply list_to_map_proper; [assumption|].
  unfold Map.map_iterate at 2, Map.map_grow. cbn [Map.entries].
  cbn [map_keys capacity size tombstones] in *.
  destruct (Nat.eqb_spec (Map.capacity m) 0) as [|_]; [lia|].
  rewrite map_rehash_ok.
  - now rewrite bindings_empty, app_nil_r.
  - lia.
  - exact Hnodup.
  - rewrite fmap_replicate. apply table_ok_empty.
  - intros k _. rewrite bindings_empty. apply not_elem_of_nil.
  - rewrite bindings_empty. cbn [length].
    pose proof (load_limit_le (Map.capacity m)). lia.
Qed.

Lemma list_to_map_put (b : option (string * option V)) (rest : list (string * option V)) :
  list_to_map (from_option (fun p => [p]) [] b ++ rest) = put b (list_to_map rest).
Proof. destruct b as [[k v]|]; reflexivity. Qed.

(** What writing the entry [e'] over slot [j] does to the contents. *)
Lemma contents_write es (j : nat) e e' :
  es !! j = Some e ->
  NoDup (omap Map.slot_binding es).*1 ->
  NoDup (omap Map.slot_binding (<[j := e']> es)).*1 ->
  exists rest : gmap string (option V),
    list_to_map (omap Map.slot_binding es) = put (Map.slot_binding e) rest
    /\ list_to_map (omap Map.slot_binding (<[j := e']> es)) = put (Map.slot_binding e') rest
    /\ forall k v, Map.slot_binding e = Some (k, v) -> rest !! k = None.
Proof.
  intros Hj Hnodup Hnodup'.
  destruct (bindings_split es j e Hj) as (rest & Hold & Hnew).
  exists (list_to_map rest). split; [|split].
  - rewrite <- list_to_map_put. now apply list_to_map_proper.
  - rewrite <- list_to_map_put. now apply list_to_map_proper.
  - intros k v He. apply not_elem_of_list_to_map_1.
    rewrite Hold, He in Hnodup. cbn in Hnodup. now apply NoDup_cons in Hnodup as [Hk _].
Qed.

Lemma contents_lookup m (k : string) :
  set_inv (map_keys m) ->
  match map_contents m !! k with
  | Some v => exists j e, Map.entries m !! j = Some e /\ Map.occupied e = true
                          /\ Map.key e = Some k /\ Map.value e = v
                          /\ holds (key_entry <$> Map.entries m) j k
  | None => forall j, ~ holds (key_entry <$> Map.entries m) j k
  end.
Proof.
  intros Hinv. pose proof (bindings_NoDup m Hinv) as Hnodup.
  unfold map_contents. destruct (decide (k ∈ (Map.map_iterate m).*1)) as [Hin|Hnin].
  - apply list_elem_of_fmap in Hin as ([k' v] & -> & Hin). cbn [fst].
    rewrite (elem_of_list_to_map_1 _ k' v Hnodup Hin).
    apply elem_of_bindings in Hin as (j & e & Hj & He).
    apply slot_binding_key in He as (Hocc & Hk & Hv).
    exists j, e. repeat split; try assumption. apply holds_keys. eauto.
  - rewrite (not_elem_of_list_to_map_1 _ k Hnin). intros j Hj. apply Hnin.
    rewrite bindings_keys. apply elem_of_iterate. eauto.
Qed.

(** [map_get] reads the contents: a missing key and a key set to [NULL]
    both give [NULL]. *)
Lemma map_get_contents m (k : string) :
  set_inv (map_keys m) -> Map.map_get m k = map_contents m !! k ≫= id.
Proof.
  intros Hinv. pose proof (contents_lookup m k Hinv) as Hlook.
  destruct Hinv as (Hok & Hcap & Hsize & _).
  cbn [map_keys entries capacity size] in Hok, Hcap, Hsize.
  unfold Map.map_get. rewrite map_find_entry_keys.
  destruct (map_contents m !! k) as [v|]; cbn [mbind option_bind id].
  - destruct Hlook as (j & e & Hj & Hocc & Hk & Hv & Hholds).
    destruct (Nat.eqb_spec (Map.size m) 0) as [Hzero|_].
    { exfalso. rewrite Hzero in Hsize. symmetry in Hsize. apply nil_length_inv in Hsize.
      assert (Hin : k ∈ set_iterate (map_keys m)) by (apply elem_of_iterate; eauto).
      rewrite Hsize in Hin. now apply elem_of_nil in Hin. }
    rewrite (find_inv_present _ _ j k Hok Hcap Hholds), Hj, Hocc. exact Hv.
  - destruct (Map.size m =? 0)%nat; [reflexivity|].
    pose proof (find_inv_absent_free _ _ k Hok Hcap Hlook) as Hfree.
    destruct (set_find_entry (key_entry <$> Map.entries m) (Map.capacity m) k) as [j|];
      [|reflexivity].
    destruct Hfree as (se & Hse & Hocc). rewrite list_lookup_fmap in Hse.
    destruct (Map.entries m !! j) as [e|]; [|reflexivity].
    injection Hse as <-. cbn in Hocc. now rewrite Hocc.
Qed.

Lemma map_has_contents m (k : string) :
  set_inv (map_keys m) -> Map.map_has m k = bool_decide (is_Some (map_contents m !! k)).
Proof.
  intros Hinv. pose proof (contents_lookup m k Hinv) as Hlook.
  rewrite map_has_keys, (set_has_decide _ k Hinv). apply bool_decide_ext.
  unfold set_iterate. cbn [map_keys entries].
  rewrite elem_of_iterate. destruct (map_contents m !! k) as [v|].
  - destruct Hlook as (j & e & _ & _ & _ & _ & Hholds). split; eauto.
  - split; [intros [j Hj]; now apply Hlook in Hj | intros [v Hv]; discriminate].
Qed.

Lemma map_size_contents m :
  set_inv (map_keys m) -> Map.map_size m = stdpp.base.size (map_contents m).
Proof.
  intros Hinv. pose proof (bindings_NoDup m Hinv) as Hnodup.
  unfold map_contents. rewrite (map_size_list_to_map _ Hnodup).
  destruct Hinv as (_ & _ & Hsize & _). rewrite <- bindings_keys, length_fmap in Hsize.
  exact Hsize.
Qed.

Lemma map_contents_create (n : nat) : map_contents (@Map.map_create V n) = ∅.
Proof. unfold map_contents, Map.map_iterate, Map.map_create. cbn. now rewrite bindings_empty. Qed.

Lemma map_contents_clear m : map_contents (Map.map_clear m) = ∅.
Proof.
  unfold map_contents, Map.map_iterate, Map.map_clear. cbn [Map.entries].
  replace (map (fun _ => Map.empty_entry) (Map.entries m))
    with (replicate (length (Map.entries m)) (@Map.empty_entry V)).
  - now rewrite bindings_empty.
  - induction (Map.entries m) as [|e es IH]; [reflexivity|]. cbn. now rewrite IH.
Qed.

(** [map_set] succeeds and files the value under the key. *)
Lemma map_set_contents m (k : string) (v : option V) :
  set_inv (map_keys m) ->
  fst (Map.map_set m k v) = REBUILD_OK
  /\ set_inv (map_keys (snd (Map.map_set m k v)))
  /\ map_contents (snd (Map.map_set m k v)) = <[k := v]> (map_contents m).
Proof.
  intros Hinv.
  destruct (map_keys_set m k v) as [Hfst Hkeys].
  destruct (set_add_inv (map_keys m) k Hinv) as (Hok & Hinv' & _).
  rewrite <- Hfst in Hok. rewrite <- Hkeys in Hinv'.
  split; [exact Hok|]. split; [exact Hinv'|].
  pose proof (bindings_NoDup _ Hinv') as Hnodup'. clear Hfst Hkeys Hok Hinv'.
  unfold Map.map_set in *.
  set (m1 := if (load_limit (Map.capacity m) <? Map.size m + Map.tombstones m + 1)%nat
             then Map.map_grow m else m) in *.
  assert (H1 : set_inv (map_keys m1)
               /\ (Map.size m1 + Map.tombstones m1 + 1 <= load_limit (Map.capacity m1))%nat
               /\ map_contents m1 = map_contents m).
  { pose proof (set_room (map_keys m) Hinv) as Hroom. cbn zeta in Hroom.
    cbn [map_keys capacity size tombstones] in Hroom. subst m1.
    destruct (_ <? _)%nat.
    - rewrite <- map_keys_grow in Hroom. destruct Hroom as (Hi & Hr & _).
      split; [exact Hi|]. split; [exact Hr|]. now apply map_contents_grow.
    - destruct Hroom as (Hi & Hr & _).
      split; [exact Hi|]. split; [exact Hr | reflexivity]. }
  clearbody m1. destruct H1 as (Hinv1 & Hroom & <-). clear Hinv m.
  pose proof (contents_lookup m1 k Hinv1) as Hlook.
  pose proof (bindings_NoDup _ Hinv1) as Hnodup.
  destruct Hinv1 as (Hok & Hcap & Hsize & Hused & Hload).
  cbn [map_keys entries capacity size tombstones] in Hok, Hcap, Hsize, Hused, Hload.
  rewrite map_find_entry_keys in *.
  unfold map_contents in *. unfold Map.map_iterate in *.
  destruct (list_to_map (omap Map.slot_binding (Map.entries m1)) !! k) as [old|] eqn:Hk.
  - destruct Hlook as (j & e & Hj & Hocc & Hkey & Hv & Hholds).
    rewrite (find_inv_present _ _ j k Hok Hcap Hholds), Hj, Hocc in *.
    cbn [snd Map.entries] in *.
    destruct (contents_write _ j e (Map.mkEntry (Map.key e) v true) Hj Hnodup Hnodup')
      as (rest & Hold & Hnew & _).
    rewrite Hnew, Hold.
    assert (He : Map.slot_binding e = Some (k, old)).
    { apply slot_binding_key. now repeat split. }
    rewrite He. unfold Map.slot_binding. cbn [Map.occupied Map.key Map.value].
    rewrite Hkey. cbn. now rewrite insert_insert_eq.
  - pose proof (load_limit_lt (Map.capacity m1) Hcap) as Hlt.
    destruct (find_inv_absent _ _ k Hok Hcap ltac:(lia) Hlook)
      as (j & p & se & Hfind & Hse & Hocc & _).
    rewrite list_lookup_fmap in Hse.
    destruct (Map.entries m1 !! j) as [e|] eqn:Hj; [|discriminate].
    injection Hse as <-. cbn in Hocc.
    rewrite Hfind, Hj, Hocc in *. cbn [snd Map.entries] in *.
    destruct (contents_write _ j e (Map.mkEntry (Some k) v true) Hj Hnodup Hnodup')
      as (rest & Hold & Hnew & _).
    rewrite Hnew, Hold.
    assert (He : Map.slot_binding e = None) by (unfold Map.slot_binding; now rewrite Hocc).
    rewrite He. reflexivity.
Qed.

Lemma map_remove_get m (k : string) : fst (Map.map_remove m k) = Map.map_get m k.
Proof.
  unfold Map.map_remove, Map.map_get.
  destruct (Map.size m =? 0)%nat; [reflexivity|].
  destruct (Map.map_find_entry (Map.entries m) (Map.capacity m) k) as [slot|];
    [|reflexivity].
  destruct (Map.entries m !! slot) as [e|]; [|reflexivity].
  now destruct (Map.occupied e).
Qed.

(** [map_remove] takes the key away. *)
Lemma map_remove_contents m (k : string) :
  set_inv (map_keys m) ->
  set_inv (map_keys (snd (Map.map_remove m k)))
  /\ map_contents (snd (Map.map_remove m k)) = delete k (map_contents m).
Proof.
  intros Hinv.
  destruct (set_remove_inv (map_keys m) k Hinv) as (_ & Hinv' & _).
  rewrite <- map_keys_remove in Hinv'. split; [exact Hinv'|].
  pose proof (bindings_NoDup _ Hinv') as Hnodup'. clear Hinv'.
  pose proof (contents_lookup m k Hinv) as Hlook.
  pose proof (bindings_NoDup _ Hinv) as Hnodup.
  destruct Hinv as (Hok & Hcap & Hsize & Hused & Hload).
  cbn [map_keys entries capacity size tombstones] in Hok, Hcap, Hsize, Hused, Hload.
  unfold Map.map_remove in *. rewrite map_find_entry_keys in *.
  unfold map_contents in *. unfold Map.map_iterate in *.
  destruct (list_to_map (omap Map.slot_binding (Map.entries m)) !! k) as [old|] eqn:Hk.
  - destruct Hlook as (j & e & Hj & Hocc & Hkey & Hv & Hholds).
    destruct (Nat.eqb_spec (Map.size m) 0) as [Hzero|_].
    { exfalso. rewrite Hzero in Hsize. symmetry in Hsize. apply nil_length_inv in Hsize.
      assert (Hin : k ∈ set_iterate (map_keys m)) by (apply elem_of_iterate; eauto).
      rewrite Hsize in Hin. now apply elem_of_nil in Hin. }
    rewrite (find_inv_present _ _ j k Hok Hcap Hholds), Hj, Hocc in *.
    cbn [negb snd Map.entries] in *.
    destruct (contents_write _ j e (Map.mkEntry (Map.key e) None false) Hj Hnodup Hnodup')
      as (rest & Hold & Hnew & Hrest).
    rewrite Hnew, Hold.
    assert (He : Map.slot_binding e = Some (k, old)).
    { apply slot_binding_key. now repeat split. }
    rewrite He. cbn. symmetry. apply delete_insert_id. now apply (Hrest k old).
  - rewrite (delete_id _ _ Hk).
    destruct (Map.size m =? 0)%nat; [reflexivity|].
    pose proof (find_inv_absent_free _ _ k Hok Hcap Hlook) as Hfree.
    destruct (set_find_entry (key_entry <$> Map.entries m) (Map.capacity m) k) as [j|];
      [|reflexivity].
    destruct Hfree as (se & Hse & Hocc). rewrite list_lookup_fmap in Hse.
    destruct (Map.entries m !! j) as [e|]; [|reflexivity].
    injection Hse as <-. cbn in Hocc. now rewrite Hocc.
Qed.
End MapFacts.

(** The sample map is built with [map_create], [map_set] and [map_remove]. *)
Lemma sample_map_built : map_built sample_map.
Proof.
  exact (map_built_remove _ "app"
           (map_built_set _ "test" (Some 4%nat) (map_built_set _ "lib" (Some 3%nat)
              (map_built_set _ "gen" None (map_built_set _ "app" (Some 2%nat)
                 (map_built_set _ "lib" (Some 1%nat) (map_built_create 2))))))).
Qed.

(** X7. A [Map] of map.c is a finite map from keys to values: on every map
    built with the operations of map.h, [map_get] reads the contents (a
    missing key and a key set to NULL both give NULL), [map_has] tells
    whether the key is there, [map_set] files the value under the key,
    [map_remove] deletes the key, [map_clear] empties the map, and
    [map_size] counts the keys. *)
Theorem map_refines_finite_map {V : Type} (m : Map.Map V) (k : string) (v : option V) :
  map_built m ->
  Map.map_get m k = map_contents m !! k ≫= id
  /\ Map.map_has m k = bool_decide (is_Some (map_contents m !! k))
  /\ map_contents (snd (Map.map_set m k v)) = <[k := v]> (map_contents m)
  /\ map_contents (snd (Map.map_remove m k)) = delete k (map_contents m)
  /\ map_contents (Map.map_clear m) = ∅
  /\ Map.map_size m = stdpp.base.size (map_contents m).
Proof.
  intros Hm. apply map_built_inv in Hm as Hinv.
  split; [now apply map_get_contents|]. split; [now apply map_has_contents|].
  split; [now apply map_set_contents|]. split; [now apply map_remove_contents|].
  split; [apply map_contents_clear | now apply map_size_contents].
Qed.

Lemma map_refines_finite_map_witness :
  Map.map_get sample_map "lib" = map_contents sample_map !! "lib" ≫= id
  /\ map_contents (snd (Map.map_set sample_map "gen" (Some 7%nat)))
     = <["gen" := Some 7%nat]> (map_contents sample_map)
  /\ Map.map_size sample_map = stdpp.base.size (map_contents sample_map).
Proof.
  destruct (map_refines_finite_map sample_map "lib" None sample_map_built)
    as (Hget & _ & _ & _ & _ & Hsize).
  destruct (map_refines_finite_map sample_map "gen" (Some 7%nat) sample_map_built)
    as (_ & _ & Hset & _).
  split; [exact Hget|]. split; [exact Hset | exact Hsize].
Defined.

(** X8. [map_set] succeeds on every map; afterwards [map_get] returns the
    value for that key and [map_has] is true for it, both are as before for
    every other key, and [map_size] has grown by one exactly when the key
    was new. *)
Theorem map_set_then_get {V : Type} (m : Map.Map V) (k : string) (v : option V) :
  map_built m ->
  fst (Map.map_set m k v) = REBUILD_OK
  /\ (forall k', Map.map_get (snd (Map.map_set m k v)) k'
                 = if decide (k' = k) then v else Map.map_get m k')
  /\ (forall k', Map.map_has (snd (Map.map_set m k v)) k'
                 = if decide (k' = k) then true else Map.map_has m k')
  /\ Map.map_size (snd (Map.map_set m k v))
     = if Map.map_has m k then Map.map_size m else S (Map.map_size m).
Proof.
  intros Hm. apply map_built_inv in Hm as Hinv.
  destruct (map_set_contents m k v Hinv) as (Hok & Hinv' & Hcontents).
  split; [exact Hok|]. split; [|split].
  - intros k'. rewrite (map_get_contents _ k' Hinv'), (map_get_contents _ k' Hinv), Hcontents.
    destruct (decide (k' = k)) as [->|Hne].
    + now rewrite lookup_insert_eq.
    + now rewrite lookup_insert_ne.
  - intros k'. rewrite (map_has_contents _ k' Hinv'), (map_has_contents _ k' Hinv), Hcontents.
    destruct (decide (k' = k)) as [->|Hne].
    + rewrite lookup_insert_eq. apply bool_decide_eq_true_2. eauto.
    + now rewrite lookup_insert_ne.
  - rewrite (map_size_contents _ Hinv'), (map_size_contents _ Hinv), Hcontents,
      (map_has_contents _ k Hinv).
    destruct (map_contents m !! k) as [old|] eqn:Hk.
    + rewrite bool_decide_eq_true_2 by eauto. now apply map_size_insert_Some.
    + rewrite bool_decide_eq_false_2 by (intros [? ?]; discriminate).
      now apply map_size_insert_None.
Qed.

Lemma map_set_then_get_witness :
  fst (Map.map_set sample_map "gen" (Some 7%nat)) = REBUILD_OK
  /\ Map.map_get (snd (Map.map_set sample_map "gen" (Some 7%nat))) "gen" = Some 7%nat
  /\ Map.map_get (snd (Map.map_set sample_map "gen" (Some 7%nat))) "lib" = Some 3%nat
  /\ Map.map_size (snd (Map.map_set sample_map "gen" (Some 7%nat))) = 3%nat.
Proof.
  destruct (map_set_then_get sample_map "gen" (Some 7%nat) sample_map_built)
    as (Hok & Hget & _ & Hsize).
  split; [exact Hok|]. split; [now rewrite Hget|].
  split; [now rewrite Hget | exact Hsize].
Defined.

(** X9. [map_remove] returns the value the key had, NULL for a key that is
    not in the map; afterwards [map_get] gives NULL for the key and
    [map_has] is false for it, both are as before for every other key, and
    [map_size] has dropped by one exactly when the key was there. *)
Theorem map_remove_then_get {V : Type} (m : Map.Map V) (k : string) :
  map_built m ->
  fst (Map.map_remove m k) = Map.map_get m k
  /\ (forall k', Map.map_get (snd (Map.map_remove m k)) k'
                 = if decide (k' = k) then None else Map.map_get m k')
  /\ (forall k', Map.map_has (snd (Map.map_remove m k)) k'
                 = if decide (k' = k) then false else Map.map_has m k')
  /\ Map.map_size (snd (Map.map_remove m k))
     = if Map.map_has m k then (Map.map_size m - 1)%nat else Map.map_size m.
Proof.
  intros Hm. apply map_built_inv in Hm as Hinv.
  destruct (map_remove_contents m k Hinv) as (Hinv' & Hcontents).
  split; [apply map_remove_get|]. split; [|split].
  - intros k'. rewrite (map_get_contents _ k' Hinv'), (map_get_contents _ k' Hinv), Hcontents.
    destruct (decide (k' = k)) as [->|Hne].
    + now rewrite lookup_delete_eq.
    + now rewrite lookup_delete_ne.
  - intros k'. rewrite (map_has_contents _ k' Hinv'), (map_has_contents _ k' Hinv), Hcontents.
    destruct (decide (k' = k)) as [->|Hne].
    + rewrite lookup_delete_eq. apply bool_decide_eq_false_2. intros [? ?]. discriminate.
    + now rewrite lookup_delete_ne.
  - rewrite (map_size_contents _ Hinv'), (map_size_contents _ Hinv), Hcontents,
      (map_has_contents _ k Hinv).
    destruct (map_contents m !! k) as [old|] eqn:Hk.
    + rewrite bool_decide_eq_true_2 by eauto.
      rewrite map_size_delete_Some by eauto. lia.
    + rewrite bool_decide_eq_false_2 by (intros [? ?]; discriminate).
      now apply map_size_delete_None.
Qed.

Lemma map_remove_then_get_witness :
  fst (Map.map_remove sample_map "lib") = Some 3%nat
  /\ Map.map_get (snd (Map.map_remove sample_map "lib")) "lib" = None
  /\ Map.map_has (snd (Map.map_remove sample_map "lib")) "gen" = true
  /\ Map.map_size (snd (Map.map_remove sample_map "lib")) = 2%nat.
Proof.
  destruct (map_remove_then_get sample_map "lib" sample_map_built)
    as (Hret & Hget & Hhas & Hsize).
  split; [exact Hret|]. split; [now rewrite Hget|].
  split; [now rewrite Hhas | exact Hsize].
Defined.

(** X10. [map_iterate] visits every key of the map once, with its value:
    the keys it passes on are distinct, a pair is passed on exactly when
    [map_has] holds of the key and [map_get] gives the value, and there are
    [map_size] pairs. *)
Theorem map_iterate_pairs {V : Type} (m : Map.Map V) :
  map_built m ->
  NoDup (Map.map_iterate m).*1
  /\ (forall k v, (k, v) ∈ Map.map_iterate m
                  <-> Map.map_has m k = true /\ Map.map_get m k = v)
  /\ length (Map.map_iterate m) = Map.map_size m.
Proof.
  intros Hm. apply map_built_inv in Hm as Hinv.
  pose proof (bindings_NoDup m Hinv) as Hnodup.
  split; [exact Hnodup|]. split.
  - intros k v. rewrite (map_has_contents _ k Hinv), (map_get_contents _ k Hinv).
    rewrite bool_decide_eq_true. unfold map_contents. split.
    + intros Hin. rewrite (elem_of_list_to_map_1 _ k v Hnodup Hin). split; [eauto | reflexivity].
    + intros [[w Hw] Hv]. rewrite Hw in Hv. cbn in Hv. subst w.
      now apply elem_of_list_to_map_2.
  - rewrite (map_size_contents _ Hinv). unfold map_contents.
    now rewrite (map_size_list_to_map _ Hnodup).
Qed.

Lemma map_iterate_pairs_witness :
  NoDup (Map.map_iterate sample_map).*1
  /\ length (Map.map_iterate sample_map) = 3%nat.
Proof.
  destruct (map_iterate_pairs sample_map sample_map_built) as (Hnodup & _ & Hlen).
  split; [exact Hnodup | exact Hlen].
Defined.

(** ** The target registry *)

Lemma register_view (registry : Registry.TargetRegistry) (name function_name : string) :
  registry_ok registry ->
  fst (Registry.target_registry_register registry name function_name) = REBUILD_OK
  /\ registry_ok (snd (Registry.target_registry_register registry name function_name))
  /\ registry_view (snd (Registry.target_registry_register registry name function_name))
     = <[name := mkTarget name function_name]> (registry_view registry).
Proof.
  intros [Hm Hvalues]. unfold Registry.target_registry_register, registry_view.
  set (ts := if Registry.target_registry_has registry name
             then snd (Map.map_remove (Registry.targets registry) name)
             else Registry.targets registry).
  assert (Hts : map_built ts
                /\ map_contents ts !! name = None
                /\ <[name := Some (mkTarget name function_name)]> (map_contents ts)
                   = <[name := Some (mkTarget name function_name)]>
                       (map_contents (Registry.targets registry))).
  { subst ts. unfold Registry.target_registry_has.
    pose proof (map_built_inv _ Hm) as Hinv.
    rewrite (map_has_contents _ name Hinv).
    destruct (map_remove_contents _ name Hinv) as (_ & Hdel).
    case_bool_decide as Hin.
    - split; [now constructor|]. rewrite Hdel.
      split; [apply lookup_delete_eq | apply insert_delete_eq].
    - split; [assumption|]. split; [|reflexivity].
      now apply eq_None_not_Some. }
  clearbody ts. destruct Hts as (Hts & Hnew & Hsame).
  pose proof (map_built_inv _ Hts) as Hinv.
  destruct (map_set_contents ts name (Some (mkTarget name function_name)) Hinv)
    as (Hok & _ & Hcontents).
  pose proof (map_built_set ts name (Some (mkTarget name function_name)) Hts) as Hset.
  destruct (Map.map_set ts name (Some (mkTarget name function_name))) as [err ts'].
  cbn [fst snd Registry.targets] in *.
  split; [exact Hok|]. split; [split; [exact Hset|]|].
  - intros n t. cbn [Registry.targets]. rewrite Hcontents, Hsame.
    destruct (decide (n = name)) as [->|Hne].
    + rewrite lookup_insert_eq. intros [= <-]. eauto.
    + rewrite lookup_insert_ne by congruence. apply Hvalues.
  - rewrite Hcontents, Hsame. now apply omap_insert_Some.
Qed.

Lemma register_targets_ok (pairs : list (string * string)) :
  registry_ok (register_targets pairs).
Proof.
  unfold register_targets.
  assert (Hgen : forall registry,
            registry_ok registry ->
            registry_ok (fold_left (fun registry p =>
                                      snd (Registry.target_registry_register
                                             registry p.1 p.2)) pairs registry)).
  { induction pairs as [|p pairs IH]; intros registry Hm; [exact Hm|].
    cbn [fold_left]. apply IH. now apply register_view. }
  apply Hgen. split; [constructor|].
  intros n t. unfold Registry.target_registry_create. cbn [Registry.targets].
  rewrite map_contents_create, lookup_empty. discriminate.
Qed.

(** X11. A registry filled by [target_registry_register] is the finite map
    from names to targets the scheduler looks targets up in:
    [target_registry_get] and [target_registry_has] read that map,
    registering a name succeeds and files the target under it, replacing a
    target registered under that name before, and [target_registry_list]
    names each registered target once. *)
Theorem registry_is_finite_map (pairs : list (string * string))
    (name function_name : string) :
  let registry := register_targets pairs in
  let registered := Registry.target_registry_register registry name function_name in
  (forall n, Registry.target_registry_get registry n
             = target_registry_get (registry_view registry) n)
  /\ (forall n, Registry.target_registry_has registry n
                = bool_decide (is_Some (registry_view registry !! n)))
  /\ fst registered = REBUILD_OK
  /\ registry_view (snd registered)
     = <[name := mkTarget name function_name]> (registry_view registry)
  /\ NoDup (Registry.target_registry_list registry)
  /\ (forall n, n ∈ Registry.target_registry_list registry
                <-> Registry.target_registry_has registry n = true).
Proof.
  intros registry registered. subst registered.
  pose proof (register_targets_ok pairs) as Hok. fold registry in Hok.
  clearbody registry.
  destruct (register_view registry name function_name Hok) as (Hfst & _ & Hview).
  destruct Hok as [Hm Hvalues]. apply map_built_inv in Hm as Hinv.
  split; [|split; [|split; [exact Hfst|split; [exact Hview|split]]]].
  - intros n. unfold Registry.target_registry_get, target_registry_get, registry_view.
    rewrite (map_get_contents _ n Hinv). symmetry. apply (lookup_omap id).
  - intros n. unfold Registry.target_registry_has, registry_view.
    rewrite (map_has_contents _ n Hinv). apply bool_decide_ext.
    unfold TargetRegistry. rewrite lookup_omap.
    destruct (map_contents (Registry.targets registry) !! n) as [t|] eqn:Hn; cbn.
    + destruct (Hvalues n t Hn) as [target ->]. cbn. split; eauto.
    + split; intros [? ?]; discriminate.
  - now apply bindings_NoDup.
  - intros n. unfold Registry.target_registry_list, Registry.target_registry_has.
    rewrite bindings_keys, map_has_keys. symmetry. now apply set_has_inv.
Qed.

(** The names a build file registered, "lib" twice: the later function is
    the one the registry keeps. *)
Example register_targets_twice :
  Registry.target_registry_get
    (register_targets [("lib", "build_lib"); ("app", "build_app"); ("lib", "build_lib2")])
    "lib"
  = Some (mkTarget "lib" "build_lib2")
  /\ length (Registry.target_registry_list
               (register_targets [("lib", "build_lib"); ("app", "build_app");
                                  ("lib", "build_lib2")])) = 2%nat.
Proof. split; vm_compute; reflexivity. Qed.

(** ** Hexadecimal *)

(** The two digits [hash_to_hex] prints for a byte are hexadecimal digits,
    neither is NUL, and [hash_from_hex] reads the byte back from them. *)
Lemma hex_digits_of_byte (b : byte) :
  let high := byte_of_ascii (hex_digit (Z_of_byte b / 16)) in
  let low := byte_of_ascii (hex_digit (Z_of_byte b mod 16)) in
  isxdigit high = true /\ isxdigit low = true
  /\ Byte.eqb high x00 = false /\ Byte.eqb low x00 = false
  /\ byte_of_Z (hex_value high * 16 + hex_value low) = b.
Proof. destruct b; vm_compute; repeat split; reflexivity. Qed.

Lemma list_byte_of_string_cons (a : ascii) (s : string) :
  list_byte_of_string (String a s) = byte_of_ascii a :: list_byte_of_string s.
Proof. reflexivity. Qed.

Lemma str_bytes_hex (bs : list byte) :
  str_bytes (hex_of_bytes bs)
  = flat_map (fun b => [byte_of_ascii (hex_digit (Z_of_byte b / 16));
                        byte_of_ascii (hex_digit (Z_of_byte b mod 16))]) bs.
Proof.
  unfold str_bytes. induction bs as [|b bs IH]; [reflexivity|].
  cbn [hex_of_bytes flat_map app]. rewrite !list_byte_of_string_cons. cbn [c_str].
  destruct (hex_digits_of_byte b) as (_ & _ & Hhigh & Hlow & _). cbn zeta in Hhigh, Hlow.
  rewrite Hhigh, Hlow. now rewrite IH.
Qed.

Lemma from_hex_loop_printed (bs : list byte) :
  forall pre mid post,
    length mid = length bs ->
    from_hex_loop (str_bytes (hex_of_bytes bs)) (length pre) (pre ++ mid ++ post)
    = (true, pre ++ bs ++ post).
Proof.
  rewrite str_bytes_hex.
  induction bs as [|b bs IH]; intros pre mid post Hlen.
  - destruct mid; [reflexivity | discriminate].
  - destruct mid as [|m mid]; [discriminate|]. injection Hlen as Hlen.
    cbn [flat_map app from_hex_loop].
    destruct (hex_digits_of_byte b) as (Hhigh & Hlow & _ & _ & Hval).
    cbn zeta in Hhigh, Hlow, Hval. rewrite Hhigh, Hlow, Hval. cbn [negb orb].
    rewrite (insert_app_r_alt pre) by lia. rewrite Nat.sub_diag. cbn [insert list_insert].
    replace (pre ++ b :: mid ++ post) with ((pre ++ [b]) ++ mid ++ post)
      by now rewrite <- app_assoc.
    replace (S (length pre)) with (length (pre ++ [b])) by (rewrite length_app; cbn; lia).
    rewrite (IH (pre ++ [b]) mid post Hlen). now rewrite <- app_assoc.
Qed.

Lemma length_str_bytes_hex (bs : list byte) :
  length (str_bytes (hex_of_bytes bs)) = (2 * length bs)%nat.
Proof.
  rewrite str_bytes_hex. induction bs as [|b bs IH]; [reflexivity|].
  cbn [flat_map app length]. rewrite IH. lia.
Qed.

(** X12. [hash_from_hex] reads back what [hash_to_hex] prints: for every
    hash, parsing its 64 hexadecimal digits succeeds and gives the hash. *)
Theorem hash_hex_round_trip (h out : Hash) :
  hash_from_hex (hash_to_hex h) out = (true, h).
Proof.
  unfold hash_from_hex, hash_to_hex, strlen.
  rewrite length_str_bytes_hex, length_hash_bytes. cbn [negb Z.eqb Z.of_nat].
  replace (Z.of_nat (2 * 32) =? 64) with true by reflexivity. cbn [negb].
  pose proof (from_hex_loop_printed (hash_bytes h) [] (hash_bytes out) []) as Hloop.
  rewrite !app_nil_r in Hloop. cbn [app length] in Hloop.
  rewrite Hloop by now rewrite !length_hash_bytes.
  now rewrite hash_of_bytes_hash_bytes.
Qed.

(** A hexadecimal digit has a value below 16, and [hash_to_hex] prints that
    value as the digit in lower case. *)
Lemma hex_value_digit (c : byte) :
  isxdigit c = true ->
  0 <= hex_value c < 16 /\ hex_digit (hex_value c) = ascii_of_byte (hex_lower c).
Proof. destruct c; intros Hc; try discriminate Hc; vm_compute; repeat split; congruence. Qed.

Lemma hex_of_pairs (digits : list byte) (n : nat) :
  length digits = (2 * n)%nat -> forallb isxdigit digits = true ->
  length (hex_pairs digits) = n
  /\ hex_of_bytes (hex_pairs digits) = string_of_list_byte (map hex_lower digits).
Proof.
  revert digits. induction n as [|n IH]; intros digits Hlen Hall.
  - destruct digits; [now split | discriminate].
  - destruct digits as [|high [|low rest]]; try discriminate; [cbn in Hlen; lia|].
    cbn [forallb] in Hall. apply andb_true_iff in Hall as [Hhigh Hall].
    apply andb_true_iff in Hall as [Hlow Hall].
    destruct (IH rest ltac:(cbn in Hlen; lia) Hall) as [Hn Hrest].
    destruct (hex_value_digit high Hhigh) as [Hh Hdh].
    destruct (hex_value_digit low Hlow) as [Hl Hdl].
    cbn [hex_pairs length map hex_of_bytes]. split; [now rewrite Hn|].
    rewrite Z_of_byte_of_Z, Hrest.
    rewrite (Z.mod_small (hex_value high * 16 + hex_value low) 256) by lia.
    rewrite Z.div_add_l, (Z.div_small (hex_value low)), Z.add_0_r by lia.
    rewrite Z.add_comm, Z.mod_add, (Z.mod_small (hex_value low)) by lia.
    now rewrite Hdh, Hdl.
Qed.

(** The loop of [hash_from_hex] comes to its end exactly when every digit
    is hexadecimal, and has then written the byte of every pair. *)
Lemma from_hex_loop_spec (digits : list byte) :
  forall pre mid post,
    length digits = (2 * length mid)%nat ->
    fst (from_hex_loop digits (length pre) (pre ++ mid ++ post)) = forallb isxdigit digits
    /\ (forallb isxdigit digits = true ->
        snd (from_hex_loop digits (length pre) (pre ++ mid ++ post))
        = pre ++ hex_pairs digits ++ post).
Proof.
  induction digits as [digits IH] using (induction_ltof1 _ (@length byte)).
  unfold ltof in IH. intros pre mid post Hlen.
  destruct digits as [|high [|low rest]].
  - destruct mid; [|discriminate]. now split.
  - cbn in Hlen. lia.
  - destruct mid as [|m mid]; [discriminate|].
    cbn [from_hex_loop forallb hex_pairs].
    destruct (isxdigit high); cbn [negb orb andb]; [|split; [reflexivity | discriminate]].
    destruct (isxdigit low); cbn [negb orb andb]; [|split; [reflexivity | discriminate]].
    rewrite (insert_app_r_alt pre) by lia. rewrite Nat.sub_diag. cbn [insert list_insert app].
    set (b := byte_of_Z (hex_value high * 16 + hex_value low)).
    replace (pre ++ b :: mid ++ post) with ((pre ++ [b]) ++ mid ++ post)
      by now rewrite <- app_assoc.
    replace (S (length pre)) with (length (pre ++ [b])) by (rewrite length_app; cbn; lia).
    destruct (IH rest ltac:(cbn; lia) (pre ++ [b]) mid post ltac:(cbn in Hlen; lia))
      as [Hfst Hsnd].
    split; [exact Hfst|]. intros Hall. rewrite (Hsnd Hall). now rewrite <- app_assoc.
Qed.

Lemma length_from_hex_loop (digits : list byte) :
  forall i out, length (snd (from_hex_loop digits i out)) = length out.
Proof.
  induction digits as [digits IH] using (induction_ltof1 _ (@length byte)).
  unfold ltof in IH. intros i out.
  destruct digits as [|high [|low rest]]; [reflexivity..|].
  cbn [from_hex_loop].
  destruct (negb (isxdigit high) || negb (isxdigit low)); [reflexivity|].
  rewrite IH by (cbn; lia). apply length_insert.
Qed.

(** When the loop of [hash_from_hex] meets a pair it rejects, the bytes of
    the pairs before it are written and the other bytes are as they were. *)
Lemma from_hex_loop_rejected (good : list byte) :
  forall high low rest pre mid post,
    length good = (2 * length mid)%nat ->
    forallb isxdigit good = true ->
    isxdigit high && isxdigit low = false ->
    from_hex_loop (good ++ high :: low :: rest) (length pre) (pre ++ mid ++ post)
    = (false, pre ++ hex_pairs good ++ post).
Proof.
  induction good as [good IH] using (induction_ltof1 _ (@length byte)).
  unfold ltof in IH. intros high low rest pre mid post Hlen Hall Hbad.
  destruct good as [|h [|l good]].
  - destruct mid; [|discriminate]. cbn [app from_hex_loop hex_pairs].
    apply andb_false_iff in Hbad as [-> | ->]; cbn [negb orb]; [reflexivity|].
    now rewrite orb_true_r.
  - cbn in Hlen. lia.
  - destruct mid as [|m mid]; [discriminate|].
    cbn [forallb] in Hall. apply andb_true_iff in Hall as [Hh Hall].
    apply andb_true_iff in Hall as [Hl Hall].
    cbn [app from_hex_loop hex_pairs]. rewrite Hh, Hl. cbn [negb orb].
    rewrite (insert_app_r_alt pre) by lia. rewrite Nat.sub_diag. cbn [insert list_insert app].
    set (b := byte_of_Z (hex_value h * 16 + hex_value l)).
    replace (pre ++ b :: mid ++ post) with ((pre ++ [b]) ++ mid ++ post)
      by now rewrite <- app_assoc.
    replace (S (length pre)) with (length (pre ++ [b])) by (rewrite length_app; cbn; lia).
    rewrite (IH good ltac:(cbn; lia) high low rest (pre ++ [b]) mid post
               ltac:(cbn in Hlen; lia) Hall Hbad).
    now rewrite <- app_assoc.
Qed.

(** X13. [hash_from_hex] succeeds exactly on the strings of 64 hexadecimal
    digits, in either case, and the hash it gives prints as that string in
    lower case. A string of another length is rejected with [*out]
    untouched; when a later pair is rejected, the bytes of all the pairs
    before it have already been written to [*out], and the bytes from that
    pair on are as they were. *)
Theorem hash_from_hex_checks (hex : string) (out : Hash) :
  (fst (hash_from_hex hex out) = true
   <-> strlen hex = 64 /\ forallb isxdigit (str_bytes hex) = true)
  /\ (fst (hash_from_hex hex out) = true ->
      hash_to_hex (snd (hash_from_hex hex out))
      = string_of_list_byte (map hex_lower (str_bytes hex)))
  /\ (strlen hex <> 64 -> hash_from_hex hex out = (false, out))
  /\ (forall good high low rest n,
        strlen hex = 64 -> str_bytes hex = good ++ high :: low :: rest ->
        length good = (2 * n)%nat -> forallb isxdigit good = true ->
        isxdigit high && isxdigit low = false ->
        fst (hash_from_hex hex out) = false
        /\ hash_bytes (snd (hash_from_hex hex out))
           = hex_pairs good ++ drop n (hash_bytes out)).
Proof.
  unfold hash_from_hex, strlen.
  destruct (Z.eqb_spec (Z.of_nat (length (str_bytes hex))) 64) as [Hlen|Hlen];
    cbn [negb fst snd].
  2:{ split; [split; [discriminate | intros [? _]; contradiction]|].
      split; [discriminate|]. split; [reflexivity|]. intros; contradiction. }
  assert (Hdigits : length (str_bytes hex) = (2 * length (hash_bytes out))%nat)
    by (rewrite length_hash_bytes; lia).
  pose proof (from_hex_loop_spec (str_bytes hex) [] (hash_bytes out) [] Hdigits)
    as [Hfst Hsnd].
  pose proof (length_from_hex_loop (str_bytes hex) 0 (hash_bytes out)) as Hout.
  rewrite app_nil_r in Hfst, Hsnd. cbn [app length] in Hfst, Hsnd.
  destruct (from_hex_loop (str_bytes hex) 0 (hash_bytes out)) as [ok bytes] eqn:Hloop.
  cbn [fst snd] in *. rewrite length_hash_bytes in Hout.
  split; [|split; [|split]].
  - rewrite Hfst. split; [now split | now intros [_ ?]].
  - intros ->. symmetry in Hfst. unfold hash_to_hex. rewrite hash_bytes_of_bytes by assumption.
    rewrite (Hsnd Hfst), app_nil_r.
    apply (hex_of_pairs (str_bytes hex) 32); [lia | assumption].
  - intros Hne. contradiction.
  - intros good high low rest n _ Hhex Hgood Hall Hbad.
    rewrite hash_bytes_of_bytes by assumption.
    assert (Hn : (n < 32)%nat).
    { rewrite Hhex, length_app in Hlen. cbn [length] in Hlen. lia. }
    assert (Htake : length (take n (hash_bytes out)) = n)
      by (rewrite length_take, length_hash_bytes; lia).
    pose proof (from_hex_loop_rejected good high low rest [] (take n (hash_bytes out))
                  (drop n (hash_bytes out)) ltac:(lia) Hall Hbad) as Hrej.
    cbn [app length] in Hrej. rewrite take_drop, <- Hhex, Hloop in Hrej.
    now injection Hrej as -> ->.
Qed.

Lemma hash_from_hex_checks_witness :
  strlen bad_fifth_pair = 64
  /\ fst (hash_from_hex bad_fifth_pair hash_zero) = false
  /\ hash_bytes (snd (hash_from_hex bad_fifth_pair hash_zero))
     = [byte_of_Z 1; byte_of_Z 35; byte_of_Z 69; byte_of_Z 103] ++ repeat x00 28.
Proof.
  assert (Hlen : strlen bad_fifth_pair = 64) by (vm_compute; reflexivity).
  split; [exact Hlen|].
  destruct (hash_from_hex_checks bad_fifth_pair hash_zero) as (_ & _ & _ & Hbad).
  destruct (Hbad (str_bytes "01234567") (byte_of_Z 122) (byte_of_Z 122)
              (str_bytes "000000000000000000000000000000000000000000000000000000")
              4%nat Hlen)
    as [Hfalse Hbytes]; [vm_compute; reflexivity..|].
  split; [exact Hfalse|].
  etrans; [exact Hbytes | vm_compute; reflexivity].
Defined.

(** ** Combining hashes *)

Lemma byte_xor_self (a : byte) : byte_xor a a = x00.
Proof. destruct a; reflexivity. Qed.

Lemma byte_xor_zero (a : byte) : byte_xor a x00 = a.
Proof. destruct a; reflexivity. Qed.

Lemma xor_bytes_self (a : list byte) : xor_bytes a a = repeat x00 (length a).
Proof. induction a as [|x a IH]; [reflexivity|]. cbn. now rewrite byte_xor_self, IH. Qed.

Lemma xor_bytes_zero (a : list byte) : xor_bytes a (repeat x00 (length a)) = a.
Proof. induction a as [|x a IH]; [reflexivity|]. cbn. now rewrite byte_xor_zero, IH. Qed.

Lemma hash_combine_self (a : Hash) : hash_combine a a = hash_zero.
Proof.
  apply hash_ext. rewrite hash_bytes_combine, xor_bytes_self, length_hash_bytes.
  reflexivity.
Qed.

Lemma hash_combine_zero (a : Hash) : hash_combine a hash_zero = a.
Proof.
  apply hash_ext. rewrite hash_bytes_combine.
  replace (hash_bytes hash_zero) with (repeat x00 (length (hash_bytes a)))
    by now rewrite length_hash_bytes.
  apply xor_bytes_zero.
Qed.

(** X14. [hash_combine] is the exclusive or of the 32 bytes: it is
    commutative and associative, the zero hash is neutral, and combining
    twice with the same hash cancels out. *)
Theorem hash_combine_cancels (a b c : Hash) :
  hash_combine a b = hash_combine b a
  /\ hash_combine (hash_combine a b) c = hash_combine a (hash_combine b c)
  /\ hash_combine a hash_zero = a
  /\ hash_combine a a = hash_zero
  /\ hash_combine (hash_combine a b) b = a.
Proof.
  split; [apply hash_combine_comm|]. split; [apply hash_combine_assoc|].
  split; [apply hash_combine_zero|]. split; [apply hash_combine_self|].
  now rewrite hash_combine_assoc, hash_combine_self, hash_combine_zero.
Qed.

(** ** Tree hashes *)

Section TreeFacts.
Context `{Platform}.

Lemma combine_all_perm (l1 l2 : list Hash) :
  Permutation l1 l2 -> forall acc, combine_all acc l1 = combine_all acc l2.
Proof.
  unfold combine_all.
  induction 1 as [|x l1 l2 _ IH|x y l|l1 l2 l3 _ IH1 _ IH2]; intros acc; simpl.
  - reflexivity.
  - apply IH.
  - now rewrite hash_combine_swap.
  - now rewrite IH1.
Qed.

Lemma fold_tree_entries (l : list (string * option Hash)) :
  forall acc, fold_left hash_tree_entry l acc = combine_all acc (flat_map entry_terms l).
Proof.
  unfold combine_all. induction l as [|e l IH]; intros acc; [reflexivity|].
  cbn [fold_left flat_map]. rewrite fold_left_app, IH. f_equal.
  unfold hash_tree_entry, entry_terms. now destruct (snd e).
Qed.

(** The hash of a readable directory: the hashes of the names and of the
    entries that have one, all combined, in any order. *)
Lemma hash_tree_directory (entries : list (string * Node))
    (terms : list Hash) :
  Permutation (flat_map (fun e => entry_terms (fst e, hash_tree_node (snd e))) entries)
              terms ->
  hash_tree_node (Directory true entries) = Some (combine_all hash_zero terms).
Proof.
  intros Hperm. cbn [hash_tree_node]. f_equal.
  rewrite fold_tree_entries. apply combine_all_perm.
  rewrite qsort_perm. rewrite <- Hperm.
  clear. induction entries as [|e entries IH]; [reflexivity|].
  cbn [map flat_map]. now rewrite IH.
Qed.
End TreeFacts.

(** X15. The hash [hash_tree] gives a directory does not depend on the
    order [readdir] returns its entries in. *)
Theorem hash_tree_order_independent `{Platform} (entries1 entries2 : list (string * Node)) :
  Permutation entries1 entries2 ->
  hash_tree_node (Directory true entries1) = hash_tree_node (Directory true entries2).
Proof.
  intros Hperm.
  rewrite (hash_tree_directory entries2 _ (Permutation_refl _)).
  apply hash_tree_directory. now rewrite Hperm.
Qed.

Lemma hash_tree_order_independent_witness :
  @hash_tree_node test_platform
    (Directory true [("b.c", RegFile true [x62]); ("a.c", RegFile true [x61]);
                     ("sub", Directory true [])])
  = @hash_tree_node test_platform
      (Directory true [("sub", Directory true []); ("a.c", RegFile true [x61]);
                       ("b.c", RegFile true [x62])]).
Proof.
  apply (@hash_tree_order_independent test_platform).
  apply (Permutation_rev [("b.c", RegFile true [x62]); ("a.c", RegFile true [x61]);
                          ("sub", Directory true [])]).
Defined.

(** X16. [hash_tree] does not tell which entry of a directory has which
    content: two entries that swap their contents, files or subtrees, leave
    the hash of the directory as it was. *)
Theorem hash_tree_swapped_contents `{Platform}
    (name1 name2 : string) (node1 node2 : Node) (others : list (string * Node)) :
  hash_tree_node (Directory true ((name1, node1) :: (name2, node2) :: others))
  = hash_tree_node (Directory true ((name1, node2) :: (name2, node1) :: others)).
Proof.
  rewrite (hash_tree_directory ((name1, node2) :: _) _ (Permutation_refl _)).
  apply hash_tree_directory. cbn [flat_map fst snd]. unfold entry_terms. cbn [fst snd].
  destruct (hash_tree_node node1) as [h1|], (hash_tree_node node2) as [h2|]; cbn [app].
  - apply perm_skip.
    etransitivity; [apply perm_swap|]. etransitivity; [|apply perm_swap].
    apply perm_skip, perm_swap.
  - apply perm_skip, perm_swap.
  - apply perm_skip, perm_swap.
  - reflexivity.
Qed.

(** ** Trace files: what is read of them *)

Lemma read_all_extend (n : nat) (f a rest junk : list byte) :
  read_all n f = Some (a, rest) -> read_all n (f ++ junk) = Some (a, rest ++ junk).
Proof.
  intros Hread. apply read_all_inv in Hread as [-> Hn].
  rewrite <- app_assoc. now apply read_all_app.
Qed.

(** The next [read_all] of a parse that succeeded, in the file and in the
    file with [junk] after it. *)
Ltac read_next_extended H junk :=
  match type of H with
  | context [read_all ?n ?f] =>
      let E := fresh "E" in
      destruct (read_all n f) as [[? ?]|] eqn:E;
      cbn [mbind option_bind] in H;
      [ rewrite (read_all_extend _ _ _ _ junk E); cbn [mbind option_bind]
      | discriminate H ]
  end.

Lemma read_deps_extend (n : nat) (t t' : Trace) (f rest junk : list byte) :
  read_deps n t f = Some (t', rest) ->
  read_deps n t (f ++ junk) = Some (t', rest ++ junk).
Proof.
  revert t f. induction n as [|n IH]; intros t f Hread.
  - simpl in *. now injection Hread as <- <-.
  - cbn [read_deps] in *.
    read_next_extended Hread junk.
    destruct (MAX_PATH_LEN <? le_decode l); [discriminate Hread|].
    read_next_extended Hread junk.
    read_next_extended Hread junk.
    now apply IH.
Qed.

Lemma parse_trace_extend (key : Hash) (f junk : list byte) (t : Trace) :
  parse_trace key f = Some t -> parse_trace key (f ++ junk) = Some t.
Proof.
  unfold parse_trace. intros Hparse.
  read_next_extended Hparse junk.
  destruct (negb (bytes_eqb l TRACE_MAGIC)); [discriminate Hparse|].
  read_next_extended Hparse junk.
  destruct (negb (le_decode l1 =? TRACE_VERSION)); [discriminate Hparse|].
  read_next_extended Hparse junk.
  destruct (negb (hash_equal (hash_of_bytes l3) key)); [discriminate Hparse|].
  read_next_extended Hparse junk.
  destruct (read_deps _ _ l6) as [[t1 f5]|] eqn:Hdeps;
    cbn [mbind option_bind] in Hparse; [|discriminate Hparse].
  rewrite (read_deps_extend _ _ _ _ _ junk Hdeps). cbn [mbind option_bind].
  read_next_extended Hparse junk.
  read_next_extended Hparse junk.
  read_next_extended Hparse junk.
  exact Hparse.
Qed.

(** The file a trace was parsed from. *)
Lemma parse_trace_inv (key : Hash) (f : list byte) (t : Trace) :
  parse_trace key f = Some t ->
  exists entries rest,
    f = TRACE_MAGIC ++ le_encode 4 TRACE_VERSION ++ hash_bytes key
          ++ le_encode 8 (Z.of_nat (length entries))
          ++ flat_map encode_entry entries
          ++ hash_bytes (output_tree_hash t)
          ++ le_encode 8 (cpu_time_ms t) ++ le_encode 8 (wall_time_ms t)
          ++ rest
    /\ Forall (fun e => Z.of_nat (length (fst e)) <= MAX_PATH_LEN) entries
    /\ Z.of_nat (length entries) <= UINT64_MAX
    /\ trace_request_key t = key
    /\ deps t = map load_entry entries
    /\ is_uint64 (cpu_time_ms t)
    /\ is_uint64 (wall_time_ms t).
Proof.
  unfold parse_trace. intros Hparse.
  read_next Hparse. rename l into magic.
  destruct (bytes_eqb magic TRACE_MAGIC) eqn:Hmagic; [|discriminate Hparse].
  apply bytes_eqb_eq in Hmagic. subst magic. cbn [negb] in Hparse.
  read_next Hparse. rename l into version.
  destruct (Z.eqb_spec (le_decode version) TRACE_VERSION) as [Hversion|];
    [|discriminate Hparse].
  cbn [negb] in Hparse.
  read_next Hparse. rename l into stored_key.
  destruct (hash_equal (hash_of_bytes stored_key) key) eqn:Hkey;
    [|discriminate Hparse].
  apply hash_equal_eq in Hkey. cbn [negb] in Hparse.
  read_next Hparse. rename l into count.
  destruct (read_deps _ _ _) as [[t1 f5]|] eqn:Hdeps;
    cbn [mbind option_bind] in Hparse; [|discriminate Hparse].
  read_next Hparse. rename l into out.
  read_next Hparse. rename l into cpu.
  read_next Hparse. rename l into wall.
  injection Hparse as <-.
  apply read_deps_inv in Hdeps as (entries & Hn & -> & Hall & ->).
  exists entries, l0.
  cbn [output_tree_hash cpu_time_ms wall_time_ms trace_request_key deps
       trace_create app].
  pose proof (le_decode_range count) as Hrange.
  pose proof (le_decode_range cpu) as Hcpu.
  pose proof (le_decode_range wall) as Hwall.
  rewrite E2 in Hrange. rewrite E4 in Hcpu. rewrite E5 in Hwall.
  rewrite Hn, Z2Nat.id by lia.
  rewrite !le_encode_decode_n by assumption.
  rewrite hash_bytes_of_bytes by assumption.
  rewrite <- Hkey, hash_bytes_of_bytes by assumption.
  rewrite <- Hversion, le_encode_decode_n by assumption.
  rewrite <- ?app_assoc. unfold is_uint64, UINT64_MAX.
  repeat split; try assumption; try reflexivity; lia.
Qed.

Lemma c_str_no_nul (bs : list byte) : Forall (fun b => b <> x00) (c_str bs).
Proof.
  induction bs as [|b bs IH]; [constructor|]. simpl.
  destruct (Byte.eqb b x00) eqn:E; [constructor|].
  constructor; [|exact IH]. intros ->. discriminate E.
Qed.

Lemma length_c_str (bs : list byte) : (length (c_str bs) <= length bs)%nat.
Proof.
  induction bs as [|b bs IH]; [reflexivity|]. simpl.
  destruct (Byte.eqb b x00); simpl; lia.
Qed.

Lemma rebuild_strdup_c_string (bs : list byte) : is_c_string (rebuild_strdup bs).
Proof.
  unfold is_c_string, rebuild_strdup. rewrite list_byte_of_string_of_list_byte.
  apply c_str_no_nul.
Qed.

Lemma strlen_rebuild_strdup (bs : list byte) :
  strlen (rebuild_strdup bs) <= Z.of_nat (length bs).
Proof.
  unfold strlen. rewrite (str_bytes_c_string _ (rebuild_strdup_c_string bs)).
  unfold rebuild_strdup. rewrite list_byte_of_string_of_list_byte.
  pose proof (length_c_str bs). lia.
Qed.

(** What [trace_load] returns can be saved again: it is a trace as the C
    types have it, with the lookup key, and no path above the limit. *)
Lemma parse_trace_saveable (key : Hash) (f : list byte) (t : Trace) :
  parse_trace key f = Some t ->
  trace_request_key t = key /\ trace_representable t /\ paths_within_limit t.
Proof.
  intros Hparse.
  apply parse_trace_inv in Hparse
    as (entries & rest & _ & Hall & Hcount & Hkey & Hdeps & Hcpu & Hwall).
  split; [exact Hkey|].
  unfold trace_representable, paths_within_limit, dep_count. rewrite Hdeps.
  rewrite length_map. repeat split; try assumption; try apply Hcpu; try apply Hwall.
  - apply Forall_map. apply Forall_forall. intros e _. apply rebuild_strdup_c_string.
  - apply Forall_map. eapply Forall_impl; [exact Hall|]. intros e He.
    cbn beta in He. unfold load_entry. cbn [fst].
    pose proof (strlen_rebuild_strdup (fst e)). lia.
Qed.

(** The file of a loaded trace is no longer than what was read of the file
    it was loaded from. *)
Lemma length_flat_map_encode (entries : list (list byte * Hash)) :
  Forall (fun e => Z.of_nat (length (fst e)) <= MAX_PATH_LEN) entries ->
  (length (flat_map encode_dep (map load_entry entries))
   <= length (flat_map encode_entry entries))%nat.
Proof.
  induction 1 as [|e entries He _ IH]; [reflexivity|].
  cbn [map flat_map]. rewrite !length_app.
  enough (length (encode_dep (load_entry e)) <= length (encode_entry e))%nat by lia.
  pose proof (strlen_rebuild_strdup (fst e)) as Hs.
  assert (Hlim : strlen (fst (load_entry e)) <= MAX_PATH_LEN)
    by (unfold load_entry; cbn [fst]; lia).
  rewrite (encode_dep_ok (load_entry e) (rebuild_strdup_c_string (fst e)) Hlim).
  unfold encode_entry, load_entry, strlen in *. cbn [fst snd] in *.
  rewrite !length_app, !length_le_encode, !length_hash_bytes. lia.
Qed.

Lemma parse_trace_length (key : Hash) (f : list byte) (t : Trace) :
  parse_trace key f = Some t -> (length (trace_file t) <= length f)%nat.
Proof.
  intros Hparse.
  apply parse_trace_inv in Hparse
    as (entries & rest & -> & Hall & Hcount & Hkey & Hdeps & Hcpu & Hwall).
  unfold trace_file. rewrite Hdeps.
  pose proof (length_flat_map_encode entries Hall).
  rewrite !length_app, !length_le_encode, !length_hash_bytes. lia.
Qed.

Lemma parse_trace_truncated (t : Trace) (n : nat) :
  trace_representable t -> paths_within_limit t ->
  (n < length (trace_file t))%nat ->
  parse_trace (trace_request_key t) (take n (trace_file t)) = None.
Proof.
  intros Hrep Hlim Hn.
  destruct (parse_trace _ (take n (trace_file t))) as [t'|] eqn:Hparse; [|reflexivity].
  exfalso.
  pose proof (parse_trace_extend _ _ (drop n (trace_file t)) _ Hparse) as Hfull.
  rewrite take_drop, (parse_trace_file t Hrep Hlim) in Hfull.
  injection Hfull as <-.
  apply parse_trace_length in Hparse. rewrite length_take in Hparse. lia.
Qed.

(** ** Where traces are stored *)

Lemma hex_of_bytes_inj (a b : list byte) : hex_of_bytes a = hex_of_bytes b -> a = b.
Proof.
  revert b. induction a as [|x a IH]; intros [|y b] Heq; try discriminate Heq.
  - reflexivity.
  - cbn [hex_of_bytes] in Heq. injection Heq as Hhigh Hlow Hrest.
    destruct (hex_digits_of_byte x) as (_ & _ & _ & _ & Hx).
    destruct (hex_digits_of_byte y) as (_ & _ & _ & _ & Hy).
    cbn zeta in Hx, Hy. rewrite Hhigh, Hlow, Hy in Hx. subst y.
    f_equal. now apply IH.
Qed.

Lemma hash_to_hex_inj (a b : Hash) : hash_to_hex a = hash_to_hex b -> a = b.
Proof. intros Heq. apply hash_ext. now apply hex_of_bytes_inj. Qed.

Lemma substring_whole (s : string) : substring 0 (String.length s) s = s.
Proof. induction s as [|c s IH]; [reflexivity|]. cbn. now rewrite IH. Qed.

Lemma append_inj (a b c : string) : (a ++ b = a ++ c)%string -> b = c.
Proof.
  induction a as [|x a IH]; [easy|]. cbn. intros Heq. injection Heq as Heq. auto.
Qed.

Lemma build_sharded_path_digits (base : string) (high low : ascii) (rest : string) :
  build_sharded_path base (String high (String low rest))
  = (base ++ "/" ++ String high (String low "") ++ "/" ++ rest)%string.
Proof.
  unfold build_sharded_path. cbn [String.length Nat.sub substring].
  rewrite Nat.sub_0_r, substring_whole. now destruct rest.
Qed.

Lemma storage_get_trace_path_inj (s : Storage) (a b : Hash) :
  storage_get_trace_path s a = storage_get_trace_path s b -> a = b.
Proof.
  unfold storage_get_trace_path, hash_to_hex. intros Heq.
  apply hash_ext.
  pose proof (length_hash_bytes a) as Ha. pose proof (length_hash_bytes b) as Hb.
  destruct (hash_bytes a) as [|x xs]; [discriminate Ha|].
  destruct (hash_bytes b) as [|y ys]; [discriminate Hb|].
  apply hex_of_bytes_inj. cbn [hex_of_bytes] in *.
  rewrite !build_sharded_path_digits in Heq.
  apply append_inj in Heq. cbn in Heq. injection Heq as Hhigh Hlow Hrest.
  change (hex_of_bytes xs = hex_of_bytes ys) in Hrest. congruence.
Qed.

Lemma trace_load_frame (key : Hash) (storage : Storage) (path : string) (f : list byte) :
  path <> storage_get_trace_path storage key ->
  trace_load key (storage_write storage path f) = trace_load key storage.
Proof.
  intros Hne.
  unfold trace_load, storage_trace_exists, storage_write, storage_get_trace_path in *.
  cbn [disk traces_dir]. now rewrite lookup_insert_ne.
Qed.

Lemma sample_trace_saveable :
  trace_representable sample_trace /\ paths_within_limit sample_trace.
Proof.
  split.
  - split; [|split; [|split]].
    + forall_elements ltac:(apply is_c_string_check; reflexivity).
    + vm_compute. discriminate.
    + split; vm_compute; discriminate.
    + split; vm_compute; discriminate.
  - forall_elements ltac:(vm_compute; discriminate).
Qed.

Lemma trace_load_parsed (key : Hash) (storage : Storage) (t : Trace) :
  trace_load key storage = Some t ->
  exists f, disk storage !! storage_get_trace_path storage key = Some f
            /\ parse_trace key f = Some t.
Proof.
  unfold trace_load. intros Hload.
  destruct (storage_trace_exists storage key); [|discriminate Hload].
  cbn [negb] in Hload.
  destruct (disk storage !! storage_get_trace_path storage key) as [f|];
    [|discriminate Hload].
  now exists f.
Qed.

(** X17. [trace_load] does not look past the wall time: when the file of a
    request key loads as a trace, the same file with any bytes after it
    loads as the same trace. *)
Theorem trace_load_ignores_trailing_bytes (key : Hash) (storage : Storage)
    (f junk : list byte) (t : Trace) :
  disk storage !! storage_get_trace_path storage key = Some f ->
  trace_load key storage = Some t ->
  trace_load key
    (storage_write storage (storage_get_trace_path storage key) (f ++ junk))
  = Some t.
Proof.
  intros Hfile Hload. rewrite trace_load_written.
  apply trace_load_parsed in Hload as (f' & Hfile' & Hparse).
  rewrite Hfile in Hfile'. injection Hfile' as <-.
  now apply parse_trace_extend.
Qed.

Lemma trace_load_ignores_trailing_bytes_witness :
  trace_load (trace_request_key sample_trace)
    (storage_write sample_storage
       (storage_get_trace_path sample_storage (trace_request_key sample_trace))
       (trace_file sample_trace ++ [x52; x42; x54; x52]))
  = Some sample_trace.
Proof.
  apply trace_load_ignores_trailing_bytes.
  - apply lookup_insert_eq.
  - apply trace_save_load_round_trip_lemma; apply sample_trace_saveable.
Defined.

(** X18. A trace file that was cut short is never loaded: for a trace with
    paths of at most 4096 bytes, [trace_load] returns no trace for every
    proper prefix of the file [trace_save] writes. *)
Theorem trace_load_rejects_truncated (t : Trace) (storage : Storage) (n : nat) :
  trace_representable t -> paths_within_limit t ->
  (n < length (trace_file t))%nat ->
  trace_load (trace_request_key t)
    (storage_write storage (storage_get_trace_path storage (trace_request_key t))
       (take n (trace_file t)))
  = None.
Proof.
  intros Hrep Hlim Hn. rewrite trace_load_written.
  now apply parse_trace_truncated.
Qed.

Lemma trace_load_rejects_truncated_witness :
  trace_load (trace_request_key sample_trace)
    (storage_write empty_storage
       (storage_get_trace_path empty_storage (trace_request_key sample_trace))
       (take 100 (trace_file sample_trace)))
  = None.
Proof.
  apply trace_load_rejects_truncated; try apply sample_trace_saveable.
  vm_compute. lia.
Defined.

(** X19. What [trace_load] returns can be stored again: the trace carries
    the lookup key, its paths are C strings of at most 4096 bytes, its count
    and timings are 64-bit values, and [trace_save] followed by [trace_load]
    with the same key gives the same trace back, in any store. *)
Theorem loaded_trace_round_trips (key : Hash) (storage : Storage) (t : Trace) :
  trace_load key storage = Some t ->
  trace_request_key t = key
  /\ trace_representable t
  /\ paths_within_limit t
  /\ forall storage', trace_load key (snd (trace_save t storage')) = Some t.
Proof.
  intros Hload. apply trace_load_parsed in Hload as (f & _ & Hparse).
  apply parse_trace_saveable in Hparse as (Hkey & Hrep & Hlim).
  repeat split; try assumption; try apply Hrep.
  intros storage'. rewrite <- Hkey. now apply trace_save_load_round_trip_lemma.
Qed.

Lemma loaded_trace_round_trips_witness :
  trace_request_key sample_trace = trace_request_key sample_trace
  /\ trace_representable sample_trace
  /\ paths_within_limit sample_trace
  /\ forall storage',
       trace_load (trace_request_key sample_trace)
                  (snd (trace_save sample_trace storage')) = Some sample_trace.
Proof.
  apply (loaded_trace_round_trips _ sample_storage).
  apply trace_save_load_round_trip_lemma; apply sample_trace_saveable.
Defined.

(** X20. Traces of different request keys are stored in different files:
    [trace_save] of a trace changes neither [storage_trace_exists] nor
    [trace_load] for any other request key. *)
Theorem trace_save_keeps_other_traces (t : Trace) (storage : Storage) (key : Hash) :
  key <> trace_request_key t ->
  storage_trace_exists (snd (trace_save t storage)) key
  = storage_trace_exists storage key
  /\ trace_load key (snd (trace_save t storage)) = trace_load key storage.
Proof.
  intros Hne. unfold trace_save. cbn [snd].
  assert (Hpath : storage_get_trace_path storage (trace_request_key t)
                  <> storage_get_trace_path storage key).
  { intros Heq. apply storage_get_trace_path_inj in Heq. congruence. }
  split; [|now apply trace_load_frame].
  unfold storage_trace_exists, storage_write, storage_get_trace_path in *.
  cbn [disk traces_dir]. now rewrite lookup_insert_ne.
Qed.

Lemma trace_save_keeps_other_traces_witness :
  storage_trace_exists (snd (trace_save (trace_create hash_zero) sample_storage))
                       (trace_request_key sample_trace)
  = storage_trace_exists sample_storage (trace_request_key sample_trace)
  /\ trace_load (trace_request_key sample_trace)
                (snd (trace_save (trace_create hash_zero) sample_storage))
     = trace_load (trace_request_key sample_trace) sample_storage.
Proof.
  apply trace_save_keeps_other_traces.
  intros Heq. apply (f_equal hash_bytes) in Heq. vm_compute in Heq. discriminate Heq.
Defined.

(** ** The request key of a recipe *)

Section RequestKeyShape.
Context `{Platform}.

(** The key is the code hash combined with the hashes of the target name
    and of the declared dependencies, one after the other. *)
Lemma request_key_combined (r : Recipe) (code : Hash) :
  request_key (recipe_compute_request_key r code)
  = combine_deps code (target_name r :: set_iterate (declared_deps r)).
Proof.
  unfold recipe_compute_request_key. cbn [request_key recipe_set_request_key].
  destruct (set_iterate (declared_deps r)) as [|d ds] eqn:E; [reflexivity|].
  cbn [length Nat.ltb Nat.leb].
  change (combine_deps code (target_name r :: d :: ds))
    with (combine_deps (hash_combine code (hash_data (str_bytes (target_name r))))
            (d :: ds)).
  apply combine_deps_perm, qsort_perm.
Qed.

Lemma registered_paths (target : string) (paths : list string) :
  NoDup paths ->
  Permutation (set_iterate (declared_deps (register_all (recipe_create target) paths)))
              paths.
Proof.
  intros Hnodup. rewrite register_all_declared.
  destruct (add_all_spec paths (set_create 0) (set_create_wf 0)) as [Hwf Hin].
  apply NoDup_Permutation; [now apply set_iterate_NoDup | exact Hnodup |].
  intros x. cbn [declared_deps recipe_create]. rewrite Hin.
  split; [|now right]. intros [Hx|Hx]; [|exact Hx].
  apply list_elem_of_In in Hx. vm_compute in Hx. destruct Hx.
Qed.
End RequestKeyShape.

(** X21. [recipe_compute_request_key] does not tell the target name from a
    dependency: two recipes get the same key whenever the target name and
    the dependencies of the one are, taken together, those of the other, as
    for a target a that depends on b and a target b that depends on a; and a
    target whose one dependency is its own name gets the code hash as its
    key. *)
Theorem request_key_mixes_target_and_dependencies `{Platform}
    (code : Hash) (target1 target2 : string) (paths1 paths2 : list string) :
  NoDup paths1 -> NoDup paths2 ->
  Permutation (target1 :: paths1) (target2 :: paths2) ->
  request_key (recipe_compute_request_key
                 (register_all (recipe_create target1) paths1) code)
  = request_key (recipe_compute_request_key
                   (register_all (recipe_create target2) paths2) code)
  /\ request_key (recipe_compute_request_key
                    (register_all (recipe_create target1) [target1]) code)
     = code.
Proof.
  intros Hnodup1 Hnodup2 Hperm. rewrite !request_key_combined.
  rewrite !register_all_target_name. cbn [target_name recipe_create]. split.
  - apply combine_deps_perm.
    rewrite (registered_paths target1 paths1 Hnodup1).
    rewrite (registered_paths target2 paths2 Hnodup2). exact Hperm.
  - rewrite (combine_deps_perm _ _
               (perm_skip target1
                  (registered_paths target1 [target1] (NoDup_singleton target1)))).
    unfold combine_deps. cbn [fold_left].
    now rewrite hash_combine_assoc, hash_combine_self, hash_combine_zero.
Qed.

Lemma request_key_mixes_target_and_dependencies_witness :
  request_key (@recipe_compute_request_key test_platform
                 (register_all (recipe_create "app") ["lib"; "gen.h"]) hash_zero)
  = request_key (@recipe_compute_request_key test_platform
                   (register_all (recipe_create "lib") ["gen.h"; "app"]) hash_zero)
  /\ request_key (@recipe_compute_request_key test_platform
                    (register_all (recipe_create "app") ["app"]) hash_zero)
     = hash_zero.
Proof.
  apply (@request_key_mixes_target_and_dependencies test_platform).
  - apply NoDup_ListNoDup. repeat constructor; cbn; intuition discriminate.
  - apply NoDup_ListNoDup. repeat constructor; cbn; intuition discriminate.
  - apply perm_trans with ("lib" :: "app" :: ["gen.h"]).
    + apply perm_swap.
    + apply perm_skip, perm_swap.
Defined.

(** ** What a running script leaves as it was *)

Lemma request_key_after_add (r : Recipe) (path : string) :
  request_key (recipe_add_dependency r path) = request_key r.
Proof. unfold recipe_add_dependency. now destruct (set_add (declared_deps r) path). Qed.

Lemma benign_refl (r : string) (s : Scheduler) : benign r s s.
Proof.
  repeat split; [exists []; now rewrite app_nil_r|].
  intros n d Hn. exists d. repeat split; auto.
Qed.

Lemma benign_trans (r : string) (s1 s2 s3 : Scheduler) :
  benign r s1 s2 -> benign r s2 s3 -> benign r s1 s3.
Proof.
  intros (Hf & Hst & Hreg & Hu & Hx & (more & Hq) & Hrec)
         (Hf' & Hst' & Hreg' & Hu' & Hx' & (more' & Hq') & Hrec').
  repeat split; try congruence.
  { exists (more ++ more'). now rewrite Hq', Hq, <- app_assoc. }
  intros n d Hn.
  destruct (Hrec n d Hn) as (d' & Hn' & Hkey & Hname & Hdone).
  destruct (Hrec' n d' Hn') as (d'' & Hn'' & Hkey' & Hname' & Hdone').
  exists d''. repeat split; [assumption | congruence | congruence | auto].
Qed.

Lemma benign_update (r w : string) (f : Recipe -> Recipe) (s : Scheduler) :
  (forall d, request_key (f d) = request_key d
             /\ target_name (f d) = target_name d
             /\ (w <> r -> state d = RECIPE_COMPLETE -> state (f d) = RECIPE_COMPLETE)) ->
  benign r s (update_recipe s w f).
Proof.
  intros Hf. repeat split; [exists []; cbn; now rewrite app_nil_r|]. intros n d Hn.
  destruct (decide (w = n)) as [->|Hne].
  - exists (f d). rewrite lookup_update_recipe, Hn.
    destruct (Hf d) as (Hkey & Hname & Hdone). repeat split; auto.
  - exists d. rewrite lookup_update_recipe_ne by assumption. repeat split; auto.
Qed.

Lemma benign_add_dependency (r : string) (path : string) (s : Scheduler) :
  benign r s (update_recipe s r (fun recipe => recipe_add_dependency recipe path)).
Proof.
  apply benign_update. intros d.
  rewrite request_key_after_add, target_name_after_add. repeat split. congruence.
Qed.

Lemma benign_suspend (r : string) (s : Scheduler) :
  benign r s (update_recipe s r (fun recipe => recipe_set_state recipe RECIPE_SUSPENDED)).
Proof. apply benign_update. intros d. repeat split. congruence. Qed.

Lemma benign_get_recipe (r target : string) (s : Scheduler) :
  benign r s (scheduler_get_recipe s target).
Proof.
  unfold scheduler_get_recipe.
  destruct (recipes s !! target) eqn:E; [apply benign_refl|].
  repeat split; [exists []; cbn; now rewrite app_nil_r|]. intros n d Hn. exists d. cbn.
  rewrite lookup_insert_ne by congruence. repeat split; auto.
Qed.

Lemma benign_fields (r : string) (s s' : Scheduler) (more : list string) :
  failed s' = failed s -> storage s' = storage s -> registry s' = registry s ->
  umka s' = umka s -> executed s' = executed s ->
  ready_queue s' = ready_queue s ++ more -> recipes s' = recipes s ->
  benign r s s'.
Proof.
  intros Hf Hst Hreg Hu Hx Hq Hrec. repeat split; try assumption; [now exists more|].
  intros n d Hn. exists d. rewrite Hrec. repeat split; auto.
Qed.

Lemma benign_depend (r target : string) (s : Scheduler) :
  benign r s (snd (scheduler_on_depend_request s r target)).
Proof.
  unfold scheduler_on_depend_request.
  set (s1 := update_recipe s r _).
  assert (H1 : benign r s s1) by apply benign_add_dependency.
  destruct (scheduler_get_completed s1 target); [exact H1|].
  set (s2 := scheduler_get_recipe s1 target).
  assert (H2 : benign r s s2).
  { eapply benign_trans; [exact H1 | apply benign_get_recipe]. }
  assert (H3 : benign r s (add_waiter (update_recipe s2 r (fun recipe =>
                             recipe_set_state recipe RECIPE_SUSPENDED)) target r)).
  { eapply benign_trans; [exact H2|].
    eapply benign_trans; [apply benign_suspend|].
    apply (benign_fields _ _ _ []); try reflexivity. cbn. now rewrite app_nil_r. }
  destruct (state <$> recipes s2 !! target) as [[| | | |]|]; cbn [snd];
    try exact H2; try exact H3.
  eapply benign_trans; [exact H3|]. now apply (benign_fields _ _ _ [target]).
Qed.

Lemma benign_run_fiber (f : Fiber) (r : string) (s : Scheduler) :
  benign r s (snd (run_fiber f r s)).
Proof.
  revert s. induction f as [status|target k IH|path k IH]; intros s; cbn [run_fiber].
  - apply benign_refl.
  - pose proof (benign_depend r target s) as Hd.
    destruct (scheduler_on_depend_request s r target) as [path s'].
    eapply benign_trans; [exact Hd | apply IH].
  - eapply benign_trans; [apply benign_add_dependency | apply IH].
Qed.

(** ** Waiters *)

Lemma resumed_idempotent (d : Recipe) : resumed (resumed d) = resumed d.
Proof. unfold resumed. now destruct d as [? [] ? ? ? ? ? ?]. Qed.

Lemma notify_all_fields (waiters : list string) (s : Scheduler) :
  ready_queue (waiter_list_notify_all waiters s) = ready_queue s ++ waiters
  /\ waiting (waiter_list_notify_all waiters s) = waiting s
  /\ completed (waiter_list_notify_all waiters s) = completed s
  /\ storage (waiter_list_notify_all waiters s) = storage s
  /\ registry (waiter_list_notify_all waiters s) = registry s
  /\ umka (waiter_list_notify_all waiters s) = umka s
  /\ failed (waiter_list_notify_all waiters s) = failed s
  /\ executed (waiter_list_notify_all waiters s) = executed s
  /\ target_error (waiter_list_notify_all waiters s) = target_error s.
Proof.
  revert s. induction waiters as [|w waiters IH]; intros s.
  - cbn. now rewrite app_nil_r.
  - cbn [waiter_list_notify_all fold_left].
    destruct (IH (scheduler_resume_recipe s w)) as (Hq & Hw & Hc & Hst & Hreg & Hu & Hf & Hx & He).
    unfold waiter_list_notify_all in *.
    rewrite Hq, Hw, Hc, Hst, Hreg, Hu, Hf, Hx, He. cbn. now rewrite <- app_assoc.
Qed.

Lemma notify_all_recipes (waiters : list string) (s : Scheduler) (n : string) :
  recipes (waiter_list_notify_all waiters s) !! n
  = if bool_decide (n ∈ waiters) then resumed <$> recipes s !! n else recipes s !! n.
Proof.
  revert s. induction waiters as [|w waiters IH]; intros s.
  - cbn. rewrite bool_decide_eq_false_2; [reflexivity | apply not_elem_of_nil].
  - cbn [waiter_list_notify_all fold_left].
    change (fold_left scheduler_resume_recipe waiters (scheduler_resume_recipe s w))
      with (waiter_list_notify_all waiters (scheduler_resume_recipe s w)).
    rewrite IH.
    assert (Hw : recipes (scheduler_resume_recipe s w) = alter resumed w (recipes s))
      by reflexivity.
    rewrite Hw.
    destruct (decide (n = w)) as [->|Hne].
    + rewrite (bool_decide_eq_true_2 (w ∈ w :: waiters)) by (apply elem_of_cons; now left).
      rewrite lookup_alter_eq.
      destruct (bool_decide (w ∈ waiters)); [|reflexivity].
      destruct (recipes s !! w); cbn; [|reflexivity]. now rewrite resumed_idempotent.
    + rewrite lookup_alter_ne by congruence.
      destruct (decide (n ∈ waiters)) as [Hin|Hnin].
      * rewrite !bool_decide_eq_true_2; [reflexivity | apply elem_of_cons; now right | assumption].
      * rewrite !bool_decide_eq_false_2; [reflexivity | | assumption].
        rewrite elem_of_cons. tauto.
Qed.

Section CompletionEffect.
Context `{Platform}.

(** The path [scheduler_on_recipe_complete] publishes for a recipe. *)
Lemma complete_success_effect (s : Scheduler) (r : string) (recipe : Recipe) :
  recipes s !! r = Some recipe ->
  exists v s3,
    s3 = scheduler_mark_completed
           (set_storage
              (update_recipe (tick (set_active_count s (active_count s - 1))) r
                 (fun recipe => recipe_set_state recipe RECIPE_COMPLETE))
              (snd (trace_save (completion_trace recipe (to_uint64 v)) (storage s))))
           (target_name recipe) (default "outputs" (output_dir recipe))
    /\ scheduler_on_recipe_complete s r true
       = match waiting s !! target_name recipe with
         | Some waiters =>
             set_waiting (waiter_list_notify_all waiters s3)
                         (delete (target_name recipe) (waiting s))
         | None => s3
         end.
Proof.
  intros Hr. unfold scheduler_on_recipe_complete. rewrite Hr. cbn [now_ms].
  eexists _, _. split; [reflexivity|]. cbn [waiting scheduler_mark_completed set_completed
    set_storage update_recipe set_recipes tick set_active_count].
  destruct (waiting s !! target_name recipe) as [waiters|]; [|reflexivity].
  f_equal. f_equal. now rewrite (proj1 (proj2 (notify_all_fields waiters _))).
Qed.
End CompletionEffect.

Section ExecuteEffect.
Context `{Platform}.

Lemma is_complete_lookup (s : Scheduler) (n : string) (d : Recipe) :
  recipes s !! n = Some d -> is_complete s n = true <-> state d = RECIPE_COMPLETE.
Proof.
  intros Hn. unfold is_complete. rewrite Hn. cbn.
  destruct (state d); split; congruence.
Qed.

Lemma is_complete_inv (s : Scheduler) (n : string) :
  is_complete s n = true ->
  exists d, recipes s !! n = Some d /\ state d = RECIPE_COMPLETE.
Proof.
  unfold is_complete. destruct (recipes s !! n) as [d|]; [|discriminate].
  cbn. intros Hst. exists d. split; [reflexivity|]. now destruct (state d).
Qed.

Lemma resumed_keeps (d : Recipe) :
  request_key (resumed d) = request_key d
  /\ target_name (resumed d) = target_name d
  /\ (state d = RECIPE_COMPLETE -> state (resumed d) = RECIPE_COMPLETE).
Proof. unfold resumed. destruct (state d) eqn:E; repeat split; cbn; congruence. Qed.

(** A successful completion: the flags and the script stay, the trace of
    the recipe is saved, the recipe is Complete, and every recipe keeps its
    name and key, and stays Complete when it was. *)
Lemma complete_success_fields (s : Scheduler) (r : string) (recipe : Recipe) :
  recipes s !! r = Some recipe ->
  failed (scheduler_on_recipe_complete s r true) = failed s
  /\ executed (scheduler_on_recipe_complete s r true) = executed s
  /\ registry (scheduler_on_recipe_complete s r true) = registry s
  /\ umka (scheduler_on_recipe_complete s r true) = umka s
  /\ (exists v, storage (scheduler_on_recipe_complete s r true)
                = snd (trace_save (completion_trace recipe (to_uint64 v)) (storage s)))
  /\ is_complete (scheduler_on_recipe_complete s r true) r = true
  /\ (forall n d, recipes s !! n = Some d ->
        exists d', recipes (scheduler_on_recipe_complete s r true) !! n = Some d'
                   /\ request_key d' = request_key d
                   /\ target_name d' = target_name d
                   /\ (state d = RECIPE_COMPLETE -> state d' = RECIPE_COMPLETE)).
Proof.
  intros Hr. destruct (complete_success_effect s r recipe Hr) as (v & s3 & Hs3 & ->).
  assert (Hrec3 : forall n d, recipes s !! n = Some d ->
            exists d', recipes s3 !! n = Some d'
                       /\ request_key d' = request_key d
                       /\ target_name d' = target_name d
                       /\ (state d = RECIPE_COMPLETE -> state d' = RECIPE_COMPLETE)
                       /\ (n = r -> state d' = RECIPE_COMPLETE)).
  { intros n d Hn. subst s3. cbn [recipes scheduler_mark_completed set_completed
      set_storage update_recipe set_recipes tick set_active_count].
    destruct (decide (r = n)) as [->|Hne].
    - rewrite lookup_alter_eq, Hn. cbn. eexists. split; [reflexivity|]. now repeat split.
    - rewrite lookup_alter_ne by assumption. exists d. repeat split; auto. congruence. }
  assert (Hf3 : failed s3 = failed s /\ executed s3 = executed s
                /\ registry s3 = registry s /\ umka s3 = umka s
                /\ storage s3
                   = snd (trace_save (completion_trace recipe (to_uint64 v)) (storage s)))
    by (subst s3; repeat split).
  destruct Hf3 as (Hf & Hx & Hreg & Hu & Hst).
  clear Hs3.
  destruct (waiting s !! target_name recipe) as [waiters|].
  - destruct (notify_all_fields waiters s3) as (_ & _ & _ & Hst' & Hreg' & Hu' & Hf' & Hx' & _).
    assert (Hrec : forall n d, recipes s !! n = Some d ->
              exists d', recipes (waiter_list_notify_all waiters s3) !! n = Some d'
                         /\ request_key d' = request_key d
                         /\ target_name d' = target_name d
                         /\ (state d = RECIPE_COMPLETE -> state d' = RECIPE_COMPLETE)
                         /\ (n = r -> state d' = RECIPE_COMPLETE)).
    { intros n d Hn. destruct (Hrec3 n d Hn) as (d' & Hn' & Hkey & Hname & Hdone & Hown).
      rewrite notify_all_recipes, Hn'.
      destruct (bool_decide (n ∈ waiters)); cbn.
      - exists (resumed d'). destruct (resumed_keeps d') as (Hk & Hnm & Hd).
        repeat split; [congruence | congruence | auto | auto].
      - exists d'. repeat split; auto. }
    cbn [failed executed registry umka storage recipes set_waiting].
    repeat split; try congruence.
    + exists v. congruence.
    + destruct (Hrec r recipe Hr) as (d' & Hn' & _ & _ & _ & Hown).
      apply (is_complete_lookup _ r d'); [exact Hn' | now apply Hown].
    + intros n d Hn. destruct (Hrec n d Hn) as (d' & Hn' & Hkey & Hname & Hdone & _).
      exists d'. repeat split; auto.
  - repeat split; try congruence.
    + exists v. congruence.
    + destruct (Hrec3 r recipe Hr) as (d' & Hn' & _ & _ & _ & Hown).
      apply (is_complete_lookup _ r d'); [exact Hn' | now apply Hown].
    + intros n d Hn. destruct (Hrec3 n d Hn) as (d' & Hn' & Hkey & Hname & Hdone & _).
      exists d'. repeat split; auto.
Qed.

Lemma completion_trace_key (d d' : Recipe) (v : Z) :
  request_key d' = request_key d -> completion_trace d' v = completion_trace d v.
Proof. intros Hkey. unfold completion_trace, trace_create. cbn. now rewrite Hkey. Qed.

(** [scheduler_execute_recipe] for a recipe that exists: it is logged, its
    script runs, and [scheduler_on_recipe_complete] is called, with success
    only for a registered target. *)
Lemma execute_shape (s : Scheduler) (r : string) (recipe : Recipe) :
  recipes s !! r = Some recipe ->
  exists s4 success,
    scheduler_execute_recipe s r = scheduler_on_recipe_complete s4 r success
    /\ benign r (log_executed s r) s4
    /\ (success = true ->
        exists reg, registry s = Some reg /\ is_Some (reg !! target_name recipe)).
Proof.
  intros Hr. unfold scheduler_execute_recipe. rewrite Hr. cbn [now_ms].
  set (s1 := update_recipe (tick _) r _).
  set (s2 := match output_dir recipe with None => _ | Some _ => s1 end).
  set (s3 := match temp_dir recipe with None => _ | Some _ => s2 end).
  assert (H1 : benign r (log_executed s r) s1).
  { subst s1.
    eapply benign_trans; [apply (benign_update r r (fun recipe =>
      recipe_set_state recipe RECIPE_RUNNING)); intros d; repeat split; congruence|].
    eapply benign_trans; [|apply benign_update; intros d; repeat split; congruence].
    apply (benign_fields _ _ _ []); try reflexivity. cbn. now rewrite app_nil_r. }
  assert (H2 : benign r (log_executed s r) s2).
  { subst s2. destruct (output_dir recipe); [exact H1|].
    eapply benign_trans; [exact H1|].
    apply benign_update. intros d. repeat split. congruence. }
  assert (H3 : benign r (log_executed s r) s3).
  { subst s3. destruct (temp_dir recipe); [exact H2|].
    eapply benign_trans; [exact H2|].
    apply benign_update. intros d. repeat split. congruence. }
  clearbody s3. clear s1 s2 H1 H2.
  assert (Hno : exists s4 success,
            scheduler_on_recipe_complete s3 r false
            = scheduler_on_recipe_complete s4 r success
            /\ benign r (log_executed s r) s4
            /\ (success = true ->
                exists reg, registry s = Some reg /\ is_Some (reg !! target_name recipe))).
  { exists s3, false. split; [reflexivity|]. split; [exact H3 | discriminate]. }
  pose proof H3 as (_ & _ & Hreg3 & _).
  cbn [registry log_executed] in Hreg3.
  destruct (umka s3) as [script|], (registry s3) as [reg|]; try exact Hno.
  destruct (target_registry_get reg (target_name recipe)) as [target|] eqn:Htarget;
    [|exact Hno].
  destruct (umka_create_fiber script (function_name target)) as [fiber|]; [|exact Hno].
  pose proof (benign_run_fiber fiber r s3) as H4.
  destruct (run_fiber fiber r s3) as [status s4]. cbn [snd] in H4.
  exists s4, (match status with UMKA_FIBER_COMPLETE => true | _ => false end).
  split; [reflexivity|]. split; [eapply benign_trans; eassumption|].
  intros _. exists reg. split; [now symmetry | now exists target].
Qed.

Lemma complete_queue (s : Scheduler) (r : string) (success : bool) :
  exists more,
    ready_queue (scheduler_on_recipe_complete s r success) = ready_queue s ++ more.
Proof.
  destruct (recipes s !! r) as [recipe|] eqn:Hr.
  2:{ exists []. unfold scheduler_on_recipe_complete. rewrite Hr. now rewrite app_nil_r. }
  destruct success.
  - destruct (complete_success_effect s r recipe Hr) as (v & s3 & Hs3 & ->).
    destruct (waiting s !! target_name recipe) as [waiters|].
    + exists waiters. cbn [ready_queue set_waiting].
      rewrite (proj1 (notify_all_fields waiters s3)). now subst s3.
    + exists []. subst s3. cbn. now rewrite app_nil_r.
  - exists []. rewrite (complete_failure_effect s r recipe Hr). cbn.
    now rewrite app_nil_r.
Qed.

(** What is on the ready queue stays there while a recipe is executed. *)
Lemma execute_queue (s : Scheduler) (r : string) :
  exists more, ready_queue (scheduler_execute_recipe s r) = ready_queue s ++ more.
Proof.
  destruct (recipes s !! r) as [recipe|] eqn:Hr.
  2:{ exists []. unfold scheduler_execute_recipe. rewrite Hr. now rewrite app_nil_r. }
  destruct (execute_shape s r recipe Hr)
    as (s4 & success & -> & (_ & _ & _ & _ & _ & (more & Hq) & _) & _).
  destruct (complete_queue s4 r success) as (more' & Hq').
  exists (more ++ more'). rewrite Hq', Hq. cbn [ready_queue log_executed].
  now rewrite <- app_assoc.
Qed.

(** What one call of [scheduler_execute_recipe] does for a recipe that
    exists: it is logged, every recipe keeps its name and key, and either
    the build has failed and the store is as before, or the recipe is a
    registered target, it is Complete, its trace is saved, and what was
    Complete stays so. *)
Lemma execute_effect (s : Scheduler) (r : string) (recipe : Recipe) :
  recipes s !! r = Some recipe ->
  executed (scheduler_execute_recipe s r) = executed s ++ [r]
  /\ registry (scheduler_execute_recipe s r) = registry s
  /\ umka (scheduler_execute_recipe s r) = umka s
  /\ (forall n d, recipes s !! n = Some d ->
        exists d', recipes (scheduler_execute_recipe s r) !! n = Some d'
                   /\ request_key d' = request_key d
                   /\ target_name d' = target_name d)
  /\ ((failed (scheduler_execute_recipe s r) = true
       /\ storage (scheduler_execute_recipe s r) = storage s)
      \/ (failed (scheduler_execute_recipe s r) = failed s
          /\ is_complete (scheduler_execute_recipe s r) r = true
          /\ (forall n, is_complete s n = true ->
                is_complete (scheduler_execute_recipe s r) n = true)
          /\ (exists reg, registry s = Some reg /\ is_Some (reg !! target_name recipe))
          /\ exists v, storage (scheduler_execute_recipe s r)
                       = snd (trace_save (completion_trace recipe (to_uint64 v))
                                         (storage s)))).
Proof.
  intros Hr.
  destruct (execute_shape s r recipe Hr)
    as (s4 & success & -> & (Hf & Hst & Hreg & Hu & Hx & _ & Hrec) & Htarget).
  cbn [failed storage registry umka executed recipes log_executed]
    in Hf, Hst, Hreg, Hu, Hx, Hrec.
  destruct (Hrec r recipe Hr) as (d4 & Hr4 & Hkey4 & _).
  destruct success.
  - destruct (complete_success_fields s4 r d4 Hr4)
      as (Hf' & Hx' & Hreg' & Hu' & (v & Hst') & Hdone' & Hrec').
    split; [congruence|]. split; [congruence|]. split; [congruence|]. split.
    { intros n d Hn. destruct (Hrec n d Hn) as (d' & Hn' & Hkey & Hname & _).
      destruct (Hrec' n d' Hn') as (d'' & Hn'' & Hkey' & Hname' & _).
      exists d''. repeat split; congruence. }
    right. split; [congruence|]. split; [exact Hdone'|]. split; [|split].
    + intros n Hn. destruct (decide (n = r)) as [->|Hne]; [exact Hdone'|].
      apply is_complete_inv in Hn as (d & Hn & Hstate).
      destruct (Hrec n d Hn) as (d' & Hn' & _ & _ & Hkeep).
      destruct (Hrec' n d' Hn') as (d'' & Hn'' & _ & _ & Hkeep').
      apply (is_complete_lookup _ n d''); auto.
    + now apply Htarget.
    + exists v. rewrite Hst', Hst.
      now rewrite (completion_trace_key recipe d4 _ Hkey4).
  - rewrite (complete_failure_effect s4 r d4 Hr4).
    cbn [executed registry umka failed storage recipes set_failure update_recipe
         set_recipes tick set_active_count].
    split; [congruence|]. split; [congruence|]. split; [congruence|]. split.
    { intros n d Hn. destruct (Hrec n d Hn) as (d' & Hn' & Hkey & Hname & _).
      destruct (decide (r = n)) as [->|Hne].
      - rewrite lookup_alter_eq, Hn'. cbn. eexists. split; [reflexivity|]. now split.
      - rewrite lookup_alter_ne by assumption. exists d'. now repeat split. }
    left. split; [reflexivity | exact Hst].
Qed.
End ExecuteEffect.

(** ** The loop of [scheduler_run] *)

Section RunFacts.
Context `{Platform}.

Lemma run_done (fuel : nat) (s : Scheduler) :
  failed s = true \/ ready_queue s = [] ->
  scheduler_run fuel s
  = Some (if failed s then REBUILD_ERROR_EXEC else REBUILD_OK, s).
Proof.
  intros Hdone. destruct fuel; cbn [scheduler_run]; unfold queue_is_empty;
    destruct Hdone as [Hf|Hq]; rewrite ?Hf, ?Hq, ?andb_false_r; cbn;
    try reflexivity; now destruct (failed s).
Qed.

Lemma run_step (fuel : nat) (s : Scheduler) (r : string) (rest : list string) :
  failed s = false -> ready_queue s = r :: rest ->
  scheduler_run (S fuel) s
  = if is_complete (set_ready_queue s rest) r
    then scheduler_run fuel (set_ready_queue s rest)
    else scheduler_run fuel (scheduler_execute_recipe (set_ready_queue s rest) r).
Proof.
  intros Hf Hq. cbn [scheduler_run]. unfold queue_is_empty, is_complete.
  rewrite Hq, Hf. cbn [negb andb].
  now destruct (state <$> recipes (set_ready_queue s rest) !! r) as [[| | | |]|].
Qed.

Lemma run_out_of_fuel (s : Scheduler) (r : string) (rest : list string) :
  failed s = false -> ready_queue s = r :: rest -> scheduler_run 0 s = None.
Proof.
  intros Hf Hq. cbn [scheduler_run]. unfold queue_is_empty. now rewrite Hq, Hf.
Qed.

Lemma execute_missing (s : Scheduler) (r : string) :
  recipes s !! r = None -> scheduler_execute_recipe s r = s.
Proof. intros Hr. unfold scheduler_execute_recipe. now rewrite Hr. Qed.

(** What holds before a run and is kept by taking a recipe from the queue
    and by executing a recipe that is not Complete while nothing has failed,
    holds after the run. *)
Lemma run_invariant (P : Scheduler -> Prop) :
  (forall s rest, P s -> P (set_ready_queue s rest)) ->
  (forall s r, P s -> failed s = false -> is_complete s r = false ->
               P (scheduler_execute_recipe s r)) ->
  forall fuel s e s', P s -> scheduler_run fuel s = Some (e, s') -> P s'.
Proof.
  intros Hpop Hexec. induction fuel as [|fuel IH]; intros s e s' HP Hrun.
  - destruct (failed s) eqn:Hf.
    + rewrite run_done in Hrun by now left. now injection Hrun as _ <-.
    + destruct (ready_queue s) as [|r rest] eqn:Hq.
      * rewrite run_done in Hrun by now right. now injection Hrun as _ <-.
      * now rewrite (run_out_of_fuel s r rest) in Hrun.
  - destruct (failed s) eqn:Hf.
    + rewrite run_done in Hrun by now left. now injection Hrun as _ <-.
    + destruct (ready_queue s) as [|r rest] eqn:Hq.
      * rewrite run_done in Hrun by now right. now injection Hrun as _ <-.
      * rewrite (run_step fuel s r rest Hf Hq) in Hrun.
        destruct (is_complete (set_ready_queue s rest) r) eqn:Hdone.
        -- apply (IH _ _ _ (Hpop s rest HP) Hrun).
        -- apply (IH _ _ _ (Hexec _ r (Hpop s rest HP) Hf Hdone) Hrun).
Qed.

(** How a run ends. *)
Lemma run_final (fuel : nat) (s s' : Scheduler) (e : RebuildError) :
  scheduler_run fuel s = Some (e, s') ->
  e = (if failed s' then REBUILD_ERROR_EXEC else REBUILD_OK)
  /\ (failed s' = true \/ ready_queue s' = []).
Proof.
  revert s. induction fuel as [|fuel IH]; intros s Hrun.
  - destruct (failed s) eqn:Hf.
    + rewrite run_done, Hf in Hrun by now left. injection Hrun as <- <-.
      rewrite Hf. split; [reflexivity | now left].
    + destruct (ready_queue s) as [|r rest] eqn:Hq.
      * rewrite run_done, Hf in Hrun by now right. injection Hrun as <- <-.
        rewrite Hf. split; [reflexivity | now right].
      * now rewrite (run_out_of_fuel s r rest) in Hrun.
  - destruct (failed s) eqn:Hf.
    + rewrite run_done, Hf in Hrun by now left. injection Hrun as <- <-.
      rewrite Hf. split; [reflexivity | now left].
    + destruct (ready_queue s) as [|r rest] eqn:Hq.
      * rewrite run_done, Hf in Hrun by now right. injection Hrun as <- <-.
        rewrite Hf. split; [reflexivity | now right].
      * rewrite (run_step fuel s r rest Hf Hq) in Hrun.
        destruct (is_complete (set_ready_queue s rest) r); now apply IH in Hrun.
Qed.

(** *** No recipe runs twice *)

Lemma runs_once_execute (s : Scheduler) (r : string) :
  runs_once s -> failed s = false -> is_complete s r = false ->
  runs_once (scheduler_execute_recipe s r).
Proof.
  intros [Hnodup Hdone] Hf Hr.
  destruct (recipes s !! r) as [recipe|] eqn:Hrec;
    [|rewrite execute_missing by assumption; now split].
  destruct (execute_effect s r recipe Hrec) as (Hx & _ & _ & _ & Hcase).
  split.
  - rewrite Hx. apply NoDup_app. split; [exact Hnodup|].
    split; [|apply NoDup_singleton].
    intros n Hn Hn'. apply list_elem_of_singleton in Hn'. subst n.
    rewrite (Hdone Hf r Hn) in Hr. discriminate.
  - intros Hf'. destruct Hcase as [[Hfail _]|(_ & Hown & Hkeep & _)]; [congruence|].
    intros n Hn. rewrite Hx in Hn. apply elem_of_app in Hn as [Hn|Hn].
    + apply Hkeep. now apply Hdone.
    + apply list_elem_of_singleton in Hn. now subst n.
Qed.

Lemma runs_once_run (fuel : nat) (s s' : Scheduler) (e : RebuildError) :
  runs_once s -> scheduler_run fuel s = Some (e, s') -> runs_once s'.
Proof.
  apply (run_invariant runs_once).
  - intros s0 rest Hs0. exact Hs0.
  - intros s0 r. apply runs_once_execute.
Qed.
End RunFacts.

Section CacheFacts.
Context `{Platform}.

(** The probe of the cache logs no execution and leaves a failure flag as
    it is, and sets the request key of the recipe. *)
Lemma check_cache_effect (fs : FileSystem) (s : Scheduler) (r : string) (recipe : Recipe) :
  recipes s !! r = Some recipe ->
  executed (snd (scheduler_check_cache fs s r)) = executed s
  /\ failed (snd (scheduler_check_cache fs s r)) = failed s
  /\ request_key <$> recipes (snd (scheduler_check_cache fs s r)) !! r
     = Some (hash_data (str_bytes (target_name recipe))).
Proof.
  intros Hr. unfold scheduler_check_cache. rewrite Hr.
  set (s1 := update_recipe s r _).
  assert (H1 : request_key <$> recipes s1 !! r
               = Some (hash_data (str_bytes (target_name recipe)))).
  { subst s1. now rewrite lookup_update_recipe, Hr. }
  destruct (trace_load _ (storage s1)) as [trace|]; [|now repeat split].
  destruct (trace_validate fs trace); [|now repeat split].
  cbn [snd scheduler_mark_completed recipes set_completed].
  repeat split. rewrite lookup_update_recipe.
  destruct (recipes s1 !! r) as [d|]; [|discriminate]. cbn in *. exact H1.
Qed.

(** A target that is queued stays in progress until the run ends. *)
Lemma target_in_progress_run (target : string) (fuel : nat) :
  forall s e s',
    target_in_progress target s -> scheduler_run fuel s = Some (e, s') ->
    target_in_progress target s'.
Proof.
  induction fuel as [|fuel IH]; intros s e s' HP Hrun.
  - destruct (failed s) eqn:Hf.
    + rewrite run_done in Hrun by now left. now injection Hrun as _ <-.
    + destruct (ready_queue s) as [|r rest] eqn:Hq.
      * rewrite run_done in Hrun by now right. now injection Hrun as _ <-.
      * now rewrite (run_out_of_fuel s r rest) in Hrun.
  - destruct (failed s) eqn:Hf.
    { rewrite run_done in Hrun by now left. now injection Hrun as _ <-. }
    destruct (ready_queue s) as [|r rest] eqn:Hq.
    { rewrite run_done in Hrun by now right. now injection Hrun as _ <-. }
    rewrite (run_step fuel s r rest Hf Hq) in Hrun.
    set (s1 := set_ready_queue s rest) in *.
    destruct HP as [Hsome Hcase].
    assert (Hcase1 : target = r \/ is_complete s1 target = true \/ target ∈ rest).
    { destruct Hcase as [Hfail|[Hdone|Hin]]; [congruence | now right; left |].
      rewrite Hq in Hin. apply elem_of_cons in Hin as [->|Hin]; [now left | now right; right]. }
    destruct (is_complete s1 r) eqn:Hdone.
    { apply (IH s1 e s'); [|exact Hrun]. split; [exact Hsome|].
      destruct Hcase1 as [->|[Hd|Hin]]; [now right; left | now right; left | now right; right]. }
    apply (IH (scheduler_execute_recipe s1 r) e s'); [|exact Hrun].
    destruct (recipes s1 !! r) as [recipe|] eqn:Hr.
    2:{ rewrite execute_missing by assumption. split; [exact Hsome|].
        destruct Hcase1 as [->|[Hd|Hin]]; [|now right; left | now right; right].
        destruct Hsome as [d Hd]. change (recipes s1) with (recipes s) in Hr. congruence. }
    destruct (execute_effect s1 r recipe Hr) as (_ & _ & _ & Hkeep & Hcase').
    destruct (execute_queue s1 r) as (more & Hmore).
    split.
    { destruct Hsome as [d Hd]. destruct (Hkeep target d Hd) as (d' & Hd' & _). eauto. }
    destruct Hcase' as [[Hfail _]|(_ & Hown & Hstay & _)]; [now left|].
    right. destruct Hcase1 as [->|[Hd|Hin]]; [now left | left; now apply Hstay |].
    right. rewrite Hmore. apply elem_of_app. now left.
Qed.
End CacheFacts.

(** ** The scheduler: properties of a build *)

(** X22. When a recipe completes with success, in a consistent state, as
    the one is in which [scheduler_execute_recipe] makes the call for the
    Running recipe whose script has returned, the recipes waiting for its
    target are put on the ready queue in the order of the waiter list, which
    has the last to ask at its head; the ones that were Suspended are
    Pending again, every other recipe but the completed one is as before,
    the waiter list is removed and the output path is published. *)
Theorem completion_resumes_waiters `{Platform}
    (s : Scheduler) (r : string) (recipe : Recipe) (waiters : list string) :
  scheduler_consistent s ->
  recipes s !! r = Some recipe ->
  waiting s !! r = Some waiters ->
  let s' := scheduler_on_recipe_complete s r true in
  ready_queue s' = ready_queue s ++ waiters
  /\ waiting s' = delete r (waiting s)
  /\ completed s' !! r = Some (default "outputs" (output_dir recipe))
  /\ state <$> recipes s' !! r = Some RECIPE_COMPLETE
  /\ forall w, w <> r ->
       recipes s' !! w
       = if bool_decide (w ∈ waiters) then resumed <$> recipes s !! w
         else recipes s !! w.
Proof.
  intros Hs Hr Hw. cbv zeta.
  destruct (Hs r recipe Hr) as (Hname & _).
  destruct (complete_success_effect s r recipe Hr) as (v & s3 & Hs3 & ->).
  rewrite Hname, Hw.
  destruct (notify_all_fields waiters s3) as (Hq & _ & Hc & _).
  cbn [ready_queue waiting completed recipes set_waiting].
  rewrite Hq, Hc. subst s3.
  cbn [ready_queue completed scheduler_mark_completed set_completed set_storage
       update_recipe set_recipes tick set_active_count].
  rewrite Hname. repeat split.
  - apply lookup_insert_eq.
  - rewrite notify_all_recipes.
    cbn [recipes scheduler_mark_completed set_completed set_storage
         update_recipe set_recipes tick set_active_count].
    rewrite lookup_alter_eq, Hr. now destruct (bool_decide (r ∈ waiters)).
  - intros w Hne. rewrite notify_all_recipes.
    cbn [recipes scheduler_mark_completed set_completed set_storage
         update_recipe set_recipes tick set_active_count].
    now rewrite lookup_alter_ne by congruence.
Qed.

Lemma completion_resumes_waiters_witness :
  (scheduler_consistent running_lib_scheduler
   /\ state <$> recipes running_lib_scheduler !! "lib" = Some RECIPE_RUNNING
   /\ state <$> recipes running_lib_scheduler !! "app" = Some RECIPE_SUSPENDED
   /\ waiting running_lib_scheduler !! "lib" = Some ["app"]
   /\ ready_queue running_lib_scheduler = [])
  /\ ready_queue (@scheduler_on_recipe_complete test_platform running_lib_scheduler
                    "lib" true)
     = ["app"]
  /\ waiting (@scheduler_on_recipe_complete test_platform running_lib_scheduler
                "lib" true)
     = ∅
  /\ completed (@scheduler_on_recipe_complete test_platform running_lib_scheduler
                  "lib" true) !! "lib"
     = Some "outputs/lib"
  /\ state <$> recipes (@scheduler_on_recipe_complete test_platform running_lib_scheduler
                          "lib" true) !! "lib"
     = Some RECIPE_COMPLETE
  /\ state <$> recipes (@scheduler_on_recipe_complete test_platform running_lib_scheduler
                          "lib" true) !! "app"
     = Some RECIPE_PENDING.
Proof.
  assert (Hcons : scheduler_consistent running_lib_scheduler).
  { apply (@consistent_setup test_platform).
    apply consistent_set_ready_queue.
    apply (@reachable_consistent test_platform).
    apply (@reach_depend test_platform), reach_get_recipe, reach_create. }
  pose (recipe := default (recipe_create "lib")
                    (recipes running_lib_scheduler !! "lib")).
  assert (Hrecipe : recipes running_lib_scheduler !! "lib" = Some recipe)
    by (vm_compute; reflexivity).
  assert (Hwaiters : waiting running_lib_scheduler !! "lib" = Some ["app"])
    by (vm_compute; reflexivity).
  destruct (@completion_resumes_waiters test_platform running_lib_scheduler "lib"
              recipe ["app"] Hcons Hrecipe Hwaiters)
    as (Hqueue & Hwait & Hdone & Hstate & Hothers).
  split.
  { split; [exact Hcons|]. split; [vm_compute; reflexivity|].
    split; [vm_compute; reflexivity|]. split; [exact Hwaiters|].
    vm_compute; reflexivity. }
  split; [etrans; [exact Hqueue | vm_compute; reflexivity]|].
  split; [etrans; [exact Hwait | vm_compute; reflexivity]|].
  split; [etrans; [exact Hdone | vm_compute; reflexivity]|].
  split; [exact Hstate|].
  etrans; [apply (f_equal (fmap state)); apply (Hothers "app"); discriminate
          | vm_compute; reflexivity].
Defined.

(** X23. [scheduler_run] returns only once the ready queue is empty or the
    build has failed, with [REBUILD_ERROR_EXEC] exactly when it has failed;
    a further [scheduler_run], as main.c makes after [scheduler_build],
    changes nothing and returns the same code. *)
Theorem scheduler_run_again `{Platform}
    (fuel : nat) (s s' : Scheduler) (e : RebuildError) :
  scheduler_run fuel s = Some (e, s') ->
  e = (if failed s' then REBUILD_ERROR_EXEC else REBUILD_OK)
  /\ (failed s' = false -> ready_queue s' = [])
  /\ forall fuel', scheduler_run fuel' s' = Some (e, s').
Proof.
  intros Hrun. apply run_final in Hrun as [He Hend]. split; [exact He|]. split.
  - intros Hf. destruct Hend as [Hf'|Hq]; [congruence | exact Hq].
  - intros fuel'. rewrite He. now apply run_done.
Qed.

Lemma scheduler_run_again_witness :
  REBUILD_OK = (if failed demo_built then REBUILD_ERROR_EXEC else REBUILD_OK)
  /\ (failed demo_built = false -> ready_queue demo_built = [])
  /\ forall fuel', @scheduler_run test_platform fuel' demo_built
                   = Some (REBUILD_OK, demo_built).
Proof.
  apply (@scheduler_run_again test_platform 10
           (queue_push
              (snd (@scheduler_check_cache test_platform empty_fs
                      (scheduler_get_recipe
                         (fresh_scheduler empty_storage demo_script demo_registry)
                         "app") "app")) "app")).
  vm_compute. reflexivity.
Defined.

(** X24. In a build no recipe is executed twice: when no execution is
    logged before, the targets [scheduler_run] and [scheduler_build] have
    called [scheduler_execute_recipe] for are all different. *)
Theorem no_recipe_runs_twice `{Platform} (s : Scheduler) :
  executed s = [] ->
  (forall fuel e s', scheduler_run fuel s = Some (e, s') -> NoDup (executed s'))
  /\ (forall fs fuel target e s',
        scheduler_build fs fuel s target = Some (e, s') -> NoDup (executed s')).
Proof.
  intros Hx.
  assert (Hrun : forall s0 fuel e s',
            executed s0 = [] -> scheduler_run fuel s0 = Some (e, s') ->
            NoDup (executed s')).
  { intros s0 fuel e s' Hx0 Hrun.
    apply (runs_once_run fuel s0 s' e); [|exact Hrun].
    split; rewrite Hx0; [apply NoDup_nil_2|].
    intros _ n Hn. now apply not_elem_of_nil in Hn. }
  split; [intros fuel e s'; now apply Hrun|].
  intros fs fuel target e s' Hbuild. unfold scheduler_build in Hbuild.
  set (s1 := scheduler_get_recipe s target) in *.
  assert (Hx1 : executed s1 = []).
  { subst s1. unfold scheduler_get_recipe. now destruct (recipes s !! target). }
  destruct (scheduler_get_completed s1 target).
  { injection Hbuild as _ <-. rewrite Hx1. apply NoDup_nil_2. }
  assert (Hx2 : executed (snd (scheduler_check_cache fs s1 target)) = []).
  { destruct (recipes s1 !! target) as [recipe|] eqn:Hr.
    - destruct (check_cache_effect fs s1 target recipe Hr) as (-> & _). exact Hx1.
    - unfold scheduler_check_cache. now rewrite Hr. }
  destruct (scheduler_check_cache fs s1 target) as [[|] s2]; cbn [snd] in Hx2.
  { injection Hbuild as _ <-. rewrite Hx2. apply NoDup_nil_2. }
  now apply (Hrun (queue_push s2 target) fuel e s').
Qed.

Lemma no_recipe_runs_twice_witness :
  NoDup (executed demo_built).
Proof.
  apply (proj2 (@no_recipe_runs_twice test_platform
                  (fresh_scheduler empty_storage demo_script demo_registry) eq_refl)
           empty_fs 10%nat "app" REBUILD_OK).
  vm_compute. reflexivity.
Defined.

(** X27. A build that returns [REBUILD_OK] has published the target: after
    [scheduler_build] returned [REBUILD_OK] from a state the scheduler can
    be in, [scheduler_get_completed] gives an output path for the target. *)
Theorem successful_build_publishes_target `{Platform}
    (fs : FileSystem) (fuel : nat) (s : Scheduler) (target : string) (s1 : Scheduler) :
  reachable s ->
  scheduler_build fs fuel s target = Some (REBUILD_OK, s1) ->
  is_Some (scheduler_get_completed s1 target).
Proof.
  intros Hs Hbuild. apply reachable_consistent in Hs.
  unfold scheduler_build in Hbuild.
  set (s0 := scheduler_get_recipe s target) in *.
  assert (Hs0 : scheduler_consistent s0) by now apply consistent_get_recipe.
  assert (Hr : is_Some (recipes s0 !! target)).
  { subst s0. unfold scheduler_get_recipe.
    destruct (recipes s !! target) eqn:E; [now rewrite E|].
    cbn. rewrite lookup_insert_eq. eauto. }
  destruct Hr as [recipe Hr].
  destruct (scheduler_get_completed s0 target) as [path|] eqn:Hdone.
  { injection Hbuild as <-. rewrite Hdone. eauto. }
  destruct (Hs0 target recipe Hr) as (Hname & _).
  pose proof (consistent_check_cache fs s0 target Hs0) as Hs2.
  destruct (check_cache_effect fs s0 target recipe Hr) as (_ & _ & Hkey).
  assert (Hhit : fst (scheduler_check_cache fs s0 target) = true ->
                 is_Some (completed (snd (scheduler_check_cache fs s0 target)) !! target)).
  { unfold scheduler_check_cache. rewrite Hr.
    destruct (trace_load _ _) as [trace|]; [|discriminate].
    destruct (trace_validate fs trace); [|discriminate].
    intros _. cbn. rewrite Hname, lookup_insert_eq. eauto. }
  destruct (scheduler_check_cache fs s0 target) as [[|] s2];
    cbn [fst snd] in Hhit, Hs2, Hkey.
  { injection Hbuild as <-. now apply Hhit. }
  assert (HP : target_in_progress target (queue_push s2 target)).
  { split.
    - cbn. destruct (recipes s2 !! target); [eauto | discriminate Hkey].
    - right. right. cbn. apply elem_of_app. right. apply list_elem_of_singleton.
      reflexivity. }
  pose proof (target_in_progress_run target fuel _ _ _ HP Hbuild) as [[d Hd] Hcase].
  pose proof (consistent_run fuel (queue_push s2 target) s1 _ Hs2 Hbuild) as Hs1.
  apply run_final in Hbuild as [He Hend].
  destruct (failed s1) eqn:Hf; [discriminate He|].
  destruct Hend as [Hfail|Hq]; [discriminate Hfail|].
  destruct Hcase as [Hfail|[Hcomplete|Hin]]; [discriminate Hfail | |].
  - apply (is_complete_lookup s1 target d Hd) in Hcomplete.
    destruct (Hs1 target d Hd) as (_ & _ & Hpub). now apply Hpub.
  - rewrite Hq in Hin. now apply not_elem_of_nil in Hin.
Qed.

Lemma successful_build_publishes_target_witness :
  is_Some (scheduler_get_completed demo_built "app").
Proof.
  apply (@successful_build_publishes_target test_platform empty_fs 10
           (fresh_scheduler empty_storage demo_script demo_registry) "app" demo_built).
  - apply (@reach_load test_platform), reach_create.
  - vm_compute. reflexivity.
Defined.

(** ** Buffers *)

Lemma grow_loop_ends (fuel : nat) :
  forall c min_capacity,
    2 <= c -> min_capacity <= 2 ^ 63 ->
    (Z.to_nat (min_capacity - c) <= fuel)%nat ->
    exists c', Buffer.grow_loop fuel c min_capacity = Some c'
               /\ min_capacity <= c' /\ c <= c'.
Proof.
  induction fuel as [|fuel IH]; intros c min_capacity Hc Hmin Hfuel.
  - cbn. destruct (Z.ltb_spec c min_capacity) as [Hlt|Hge]; [lia|].
    exists c. repeat split; lia.
  - cbn [Buffer.grow_loop].
    destruct (Z.ltb_spec c min_capacity) as [Hlt|Hge];
      [|exists c; repeat split; lia].
    assert (Hhalf : 1 <= Z.shiftr c 1 <= c).
    { rewrite Z.shiftr_div_pow2 by lia. change (2 ^ 1) with 2.
      split; [apply Z.div_le_lower_bound; lia | apply Z.div_le_upper_bound; lia]. }
    unfold Buffer.to_size. rewrite Z.mod_small by lia.
    destruct (IH (c + Z.shiftr c 1) min_capacity) as (c' & Hloop & Hmin' & Hc');
      [lia | lia | lia |].
    exists c'. repeat split; [exact Hloop | lia | lia].
Qed.

Lemma grow_loop_more_fuel (fuel fuel' : nat) (c min_capacity c' : Z) :
  (fuel <= fuel')%nat ->
  Buffer.grow_loop fuel c min_capacity = Some c' ->
  Buffer.grow_loop fuel' c min_capacity = Some c'.
Proof.
  revert fuel' c. induction fuel as [|fuel IH]; intros fuel' c Hle Hloop.
  - cbn in Hloop. destruct (c <? min_capacity) eqn:E; [discriminate|].
    destruct fuel'; cbn; now rewrite E.
  - destruct fuel' as [|fuel']; [lia|]. cbn [Buffer.grow_loop] in *.
    destruct (c <? min_capacity); [|exact Hloop]. apply IH; [lia | exact Hloop].
Qed.

Lemma grow_loop_stuck (fuel : nat) (min_capacity : Z) :
  1 < min_capacity -> Buffer.grow_loop fuel 1 min_capacity = None.
Proof.
  intros Hmin. induction fuel as [|fuel IH]; cbn [Buffer.grow_loop];
    destruct (Z.ltb_spec 1 min_capacity) as [_|Hge]; try lia; [reflexivity|].
  exact IH.
Qed.

(** X28. [buffer_append] adds the bytes at the end: for a buffer with a
    capacity of at least 2 and no more than 2^63 bytes in all, the growth
    loop ends, the call returns [REBUILD_OK], the data are the old data
    followed by the new bytes, and the capacity has not shrunk and holds
    them. *)
Theorem buffer_append_concatenates (buf : Buffer.Buffer) (bytes : list byte) :
  2 <= Buffer.capacity buf ->
  Buffer.buffer_size buf <= Buffer.capacity buf ->
  Buffer.buffer_size buf + Z.of_nat (length bytes) <= 2 ^ 63 ->
  exists fuel,
    forall fuel', (fuel <= fuel')%nat ->
      exists buf',
        Buffer.buffer_append fuel' buf bytes = Some (REBUILD_OK, buf')
        /\ Buffer.data buf' = Buffer.data buf ++ bytes
        /\ Buffer.buffer_to_string buf' = rebuild_strdup (Buffer.data buf ++ bytes)
        /\ Buffer.capacity buf <= Buffer.capacity buf'
        /\ Buffer.buffer_size buf' <= Buffer.capacity buf'.
Proof.
  intros Hcap Hsize Htotal.
  set (min_capacity := Buffer.buffer_size buf + Z.of_nat (length bytes)).
  exists (Z.to_nat (min_capacity - Buffer.capacity buf)). intros fuel' Hfuel.
  unfold Buffer.buffer_append.
  destruct (Z.eqb_spec (Z.of_nat (length bytes)) 0) as [Hlen|Hlen].
  { exists buf. destruct bytes; [|discriminate Hlen]. rewrite app_nil_r.
    split; [reflexivity|]. split; [reflexivity|]. split; [reflexivity|].
    split; [lia | exact Hsize]. }
  assert (Hpos : 0 <= Buffer.buffer_size buf) by (unfold Buffer.buffer_size; lia).
  unfold Buffer.to_size. rewrite Z.mod_small by (fold min_capacity; lia).
  fold min_capacity. unfold Buffer.buffer_ensure_capacity.
  assert (Hnew : forall c, min_capacity <= c ->
            Buffer.buffer_size (Buffer.mkBuffer (Buffer.data buf ++ bytes) c) <= c).
  { intros c Hc. unfold Buffer.buffer_size in *. cbn. rewrite length_app. lia. }
  destruct (Z.leb_spec min_capacity (Buffer.capacity buf)) as [Hfits|Hgrow].
  { eexists. split; [reflexivity|]. cbn [Buffer.data Buffer.capacity].
    split; [reflexivity|]. split; [reflexivity|]. split; [lia | now apply Hnew]. }
  destruct (Z.eqb_spec (Buffer.capacity buf) 0) as [Hzero|_]; [lia|].
  destruct (grow_loop_ends _ (Buffer.capacity buf) min_capacity Hcap Htotal (Nat.le_refl _))
    as (c' & Hloop & Hmin & Hc').
  rewrite (grow_loop_more_fuel _ fuel' _ _ _ Hfuel Hloop).
  destruct (Z.eqb_spec c' 0) as [Hzero|_]; [lia|].
  eexists. split; [reflexivity|]. cbn [Buffer.data Buffer.capacity].
  split; [reflexivity|]. split; [reflexivity|]. split; [exact Hc' | now apply Hnew].
Qed.

Lemma buffer_append_concatenates_witness :
  exists fuel,
    forall fuel', (fuel <= fuel')%nat ->
      exists buf',
        Buffer.buffer_append fuel' (Buffer.buffer_create 2) [x52; x42; x54; x52]
        = Some (REBUILD_OK, buf')
        /\ Buffer.data buf' = Buffer.data (Buffer.buffer_create 2) ++ [x52; x42; x54; x52]
        /\ Buffer.buffer_to_string buf'
           = rebuild_strdup (Buffer.data (Buffer.buffer_create 2) ++ [x52; x42; x54; x52])
        /\ Buffer.capacity (Buffer.buffer_create 2) <= Buffer.capacity buf'
        /\ Buffer.buffer_size buf' <= Buffer.capacity buf'.
Proof.
  apply buffer_append_concatenates; vm_compute; discriminate.
Defined.

(** X29. A buffer of capacity 1 cannot grow: one and a half times 1 is 1
    again in [size_t], so [buffer_ensure_capacity] for more than one byte
    stays in its loop, and [buffer_append] to the buffer [buffer_create(1)]
    returns does not return once more than one byte is asked for in all. *)
Theorem buffer_of_capacity_one_hangs (buf : Buffer.Buffer) (bytes : list byte) :
  Buffer.capacity buf = 1 ->
  1 < Buffer.buffer_size buf + Z.of_nat (length bytes) < 2 ^ 64 ->
  bytes <> [] ->
  forall fuel, Buffer.buffer_append fuel buf bytes = None.
Proof.
  intros Hcap Htotal Hbytes fuel. unfold Buffer.buffer_append.
  destruct (Z.eqb_spec (Z.of_nat (length bytes)) 0) as [Hlen|_].
  { destruct bytes; [contradiction | discriminate Hlen]. }
  unfold Buffer.to_size. rewrite Z.mod_small by lia.
  unfold Buffer.buffer_ensure_capacity. rewrite Hcap.
  destruct (Z.leb_spec (Buffer.buffer_size buf + Z.of_nat (length bytes)) 1); [lia|].
  cbn [Z.eqb]. now rewrite grow_loop_stuck by lia.
Qed.

Lemma buffer_of_capacity_one_hangs_witness :
  Buffer.capacity (Buffer.buffer_create 1) = 1
  /\ forall fuel,
       Buffer.buffer_append fuel (Buffer.buffer_create 1) [x52; x42] = None.
Proof.
  split; [reflexivity|].
  apply buffer_of_capacity_one_hangs;
    [reflexivity | vm_compute; split; reflexivity | discriminate].
Defined.

(** ** The command line *)

Lemma streq_option (arg opt : string) :
  starts_with_dash opt = true -> streq arg opt = true -> starts_with_dash arg = true.
Proof.
  unfold streq, starts_with_dash. intros Hopt Heq.
  apply bytes_eqb_eq in Heq. now rewrite Heq.
Qed.

Lemma parse_options_target (args : list string) (first target : string) :
  parse_options args (Some first) = inr (Some target) -> args = [] /\ target = first.
Proof.
  destruct args as [|arg rest]; cbn [parse_options].
  - intros [= ->]. now split.
  - destruct (streq arg "-h" || streq arg "--help"); [discriminate|].
    destruct (streq arg "--version"); [discriminate|].
    destruct (starts_with_dash arg); discriminate.
Qed.

(** X30. [main] goes on to build a target exactly when the command line is
    the program name followed by one argument that does not start with a
    dash, and that argument is the target: with no argument, with any
    option, and with a second target it returns before it sets anything
    up. *)
Theorem main_builds_one_target (argv : list string) (target : string) :
  main_arguments argv = inr target
  <-> exists program, argv = [program; target] /\ starts_with_dash target = false.
Proof.
  unfold main_arguments. split.
  - destruct argv as [|program [|arg rest]]; cbn [length Nat.ltb Nat.leb tl];
      try discriminate.
    cbn [parse_options].
    destruct (streq arg "-h" || streq arg "--help"); [discriminate|].
    destruct (streq arg "--version"); [discriminate|].
    destruct (starts_with_dash arg) eqn:Hdash; [discriminate|].
    destruct (parse_options rest (Some arg)) as [code|[first|]] eqn:Hrest;
      try discriminate.
    intros [= ->]. apply parse_options_target in Hrest as [-> ->].
    now exists program.
  - intros (program & -> & Hdash). cbn [length Nat.ltb Nat.leb tl parse_options].
    destruct (streq target "-h") eqn:Hh.
    { now rewrite (streq_option target "-h" eq_refl Hh) in Hdash. }
    destruct (streq target "--help") eqn:Hhelp.
    { now rewrite (streq_option target "--help" eq_refl Hhelp) in Hdash. }
    destruct (streq target "--version") eqn:Hversion.
    { now rewrite (streq_option target "--version" eq_refl Hversion) in Hdash. }
    cbn [orb]. now rewrite Hdash.
Qed.
